(** * PaceForge: the workout generator (src/generator.ts)

    A shallow embedding of the segment generator and of its safety pass,
    with the properties its specification states.

    Numbers.  A JavaScript [number] is a binary64 floating-point number.
    The generator is modelled on the rationals [Q]: arithmetic is exact,
    and the infinities and NaN are not represented.  Two rationals that are
    equal as numbers may be different terms ([1#2] and [2#4]), so the [===]
    of the source is [Qeq_bool] and numeric equality is [==]; membership of
    a speed in a list of speeds is plain [In], since the generator only
    ever copies speeds out of that list.  The one non-number that does flow
    through the generator, the [undefined] read from an array out of its
    bounds, is modelled as [None] where it can occur.

    What the exact model can and cannot say.  A property that rests on
    comparisons, on membership and on which segments are kept or joined
    holds of the source whichever way its arithmetic rounds.  A property
    that names the value of a product, a difference or a sum is stated
    under hypotheses that keep the arithmetic of the source exact
    ([binary64], [exactDifferences], [exactWhole]).  Where a property
    turns on an infinite speed, the ramp check is modelled once more on
    binary64 numbers themselves (module [Binary64]).

    Counts.  The options [repeats] and [steps] are numbers like the others;
    a counting loop [for (let i = 0; i < bound; i++)] runs over the integers
    below its bound, whole or not.

    Strings.  Cues are strings.  The conversion of a number to its decimal
    text is the host language's; it is a parameter, [numToString].

    Errors.  A function that can throw returns a [Result].

    Beside the generator the file models the code that consumes its
    workouts: [describe], [formatTime] and [segmentLabel] of the runner
    screen, [normalizeSpeeds] of the command line and [buildWorkout] of the
    mobile session. *)

From Stdlib Require Import QArith Qabs Qround Qminmax Qpower Lqa ZArith Lia.
From Stdlib Require Import List Ascii String Bool DecimalString.
From Stdlib Require Import Floats.
From Stdlib Require Import Sorting.Sorted Sorting.Permutation.
Import ListNotations.

Open Scope Q_scope.

(** ** Host-language primitives *)

(** [a < b] on numbers, as a boolean. *)
Definition Qlt_bool (a b : Q) : bool := negb (Qle_bool b a).

(** [Math.round]: the nearest integer, a tie going up. *)
Definition Math_round (x : Q) : Q := inject_Z (Qfloor (x + (1 # 2))).

(** [Math.floor]. *)
Definition Math_floor (x : Q) : Q := inject_Z (Qfloor x).

(** [Math.max] and [Math.min] of two numbers. *)
Definition Math_max (a b : Q) : Q := Qmax a b.
Definition Math_min (a b : Q) : Q := Qmin a b.

(** [value <= target] when [target] may be [undefined]: a comparison with
    [undefined] is false. *)
Definition leTarget (value : Q) (target : option Q) : bool :=
  match target with
  | Some t => Qle_bool value t
  | None => false
  end.

(** Truthiness of a string that may be [undefined]: defined and not empty. *)
Definition truthy (s : option string) : bool :=
  match s with
  | Some EmptyString => false
  | Some _ => true
  | None => false
  end.

(** [xs[xs.length - 1]]; [undefined] on the empty array. *)
Definition lastOf {A : Type} (xs : list A) : option A :=
  match xs with
  | [] => None
  | x :: rest => Some (last rest x)
  end.

(** [xs[i]] at an integer index; [undefined] out of the bounds. *)
Definition at_index {A : Type} (xs : list A) (i : Z) : option A :=
  if (i <? 0)%Z then None else nth_error xs (Z.to_nat i).

(** The values [i = 0, 1, 2, ...] taken by [for (let i = 0; i < bound; i++)]. *)
Definition countUp (bound : Q) : list Z :=
  map Z.of_nat (seq 0 (Z.to_nat (Qceiling bound))).

(** The conversion of a number to text in a template literal. *)
Class NumberToString := numToString : Q -> string.

Infix "+++" := String.append (right associativity, at level 60).

(** ** Errors *)

(** [throw new Error(message)]. *)
Inductive Error : Type := JsError (message : string).

(** The error the specification calls EmptyDomain. *)
Definition EmptyDomain : Error := JsError "Device profile speeds cannot be empty.".

(** A computation that returns a value or throws. *)
Inductive Result (A : Type) : Type :=
| Return (a : A)
| Throw (e : Error).
Arguments Return {A} a.
Arguments Throw {A} e.

Definition bind {A B : Type} (m : Result A) (k : A -> Result B) : Result B :=
  match m with
  | Return a => k a
  | Throw e => Throw e
  end.

Notation "x <- m ;; k" := (bind m (fun x => k))
  (at level 61, m at next level, right associativity).

(** ** Data model *)

Inductive Units : Type := mph | kph.

Definition unitsToString (u : Units) : string :=
  match u with mph => "mph" | kph => "kph" end.

Record DeviceProfile : Type := mkDeviceProfile {
  name : string;
  units : Units;
  speeds : list Q;
  inclines : option (list Q);
  minSegmentSec : option Q;
  rampLimitPerChange : option Q
}.

(** A segment.  In the plan a builder hands to [applySafety] the speed is a
    target, and may be [undefined] ([V] is [option Q]); in a finished
    workout it is a number ([V] is [Q]). *)
Record SegmentOf (V : Type) : Type := mkSegment {
  secs : Q;
  speed : V;
  incline : option Q;
  cue : option string
}.
Arguments mkSegment {V} secs speed incline cue.
Arguments secs {V} s.
Arguments speed {V} s.
Arguments incline {V} s.
Arguments cue {V} s.

Definition RawSegment : Type := SegmentOf (option Q).
Definition Segment : Type := SegmentOf Q.

Module Workout.
Record t : Type := make {
    name : string;
    units : Units;
    totalSecs : Q;
    segments : list Segment
  }.
End Workout.

Module IntervalPlanOpts.
Record t : Type := make {
    name : option string;
    warmupMins : option Q;
    cooldownMins : option Q;
    repeats : option Q;
    hardSecs : option Q;
    easySecs : option Q;
    hardIntensity : option Q;
    easyIntensity : option Q
  }.
(** The options object [{}]. *)
Definition empty : t := make None None None None None None None None.
End IntervalPlanOpts.

Module SteadyOpts.
Record t : Type := make {
    name : option string;
    totalMins : option Q;
    intensity : option Q;
    addStrides : option bool
  }.
Definition empty : t := make None None None None.
End SteadyOpts.

Module ProgressionOpts.
Record t : Type := make {
    name : option string;
    totalMins : option Q;
    steps : option Q;
    topIntensity : option Q
  }.
Definition empty : t := make None None None None.
End ProgressionOpts.

(** A destructuring default: [const { field = d } = opts]. *)
Definition orDefault {A : Type} (d : A) (field : option A) : A :=
  match field with
  | Some v => v
  | None => d
  end.

(** ** quantizeDown *)

(** The loop of [quantizeDown]: [candidate] is the last value seen that did
    not exceed the target; the scan stops at the first value that does. *)
Fixpoint scanDown (target : option Q) (candidate : Q) (values : list Q) : Q :=
  match values with
  | [] => candidate
  | value :: rest =>
      if leTarget value target then scanDown target value rest else candidate
  end.

Definition quantizeDown (allowed : list Q) (target : option Q) : Result Q :=
  match allowed with
  | [] => Throw EmptyDomain
  | first :: _ => Return (scanDown target first allowed)
  end.

Definition clamp (n lo hi : Q) : Q := Math_max lo (Math_min hi n).

(** ** sortSpeeds *)

(** [[...speeds].sort((a, b) => a - b)] sorts a copy in ascending order and
    keeps equal numbers in their order (the sort of the host is stable); an
    insertion sort does the same. *)
Fixpoint insertSpeed (x : Q) (sorted : list Q) : list Q :=
  match sorted with
  | [] => [x]
  | y :: rest => if Qle_bool x y then x :: sorted else y :: insertSpeed x rest
  end.

Definition sortSpeeds (speeds : list Q) : list Q :=
  fold_right insertSpeed [] speeds.

(** ** applySafety *)

(** [cue ? `${cue} (clamped)` : '(clamped)']. *)
Definition clampedCue (cue : option string) : option string :=
  match cue with
  | Some text => if truthy cue then Some (text +++ " (clamped)") else Some "(clamped)"%string
  | None => Some "(clamped)"%string
  end.

(** The candidates within the ramp limit of the previous speed. *)
Definition withinRamp (allowed : list Q) (prevSpeed rampLimit : Q) : list Q :=
  filter (fun value => Qle_bool (Qabs (value - prevSpeed)) rampLimit) allowed.

(** The search for the candidate closest to [baseSpeed]: [best] starts at
    the first candidate and moves only on a strictly smaller difference. *)
Definition closestStep (baseSpeed : Q) (state : Q * Q) (candidate : Q) : Q * Q :=
  let diff := Qabs (candidate - baseSpeed) in
  if Qlt_bool diff (snd state) then (candidate, diff) else state.

Definition closest (baseSpeed first : Q) (candidates : list Q) : Q :=
  fst (fold_left (closestStep baseSpeed) candidates (first, Qabs (first - baseSpeed))).

(** Which branch the ramp check of [applySafety] takes for one segment. *)
Inductive RampCase : Type :=
| Unchecked   (* no previous segment, or no ramp limit *)
| Within      (* the quantized speed is within the limit *)
| Closest     (* a candidate within the limit is substituted *)
| Stall.      (* no candidate: the previous speed is reused *)

Definition rampCase (allowed : list Q) (rampLimit : option Q) (prev : option Segment)
    (baseSpeed : Q) : RampCase :=
  match prev, rampLimit with
  | Some previous, Some limit =>
      if Qlt_bool limit (Qabs (baseSpeed - speed previous)) then
        match withinRamp allowed (speed previous) limit with
        | _ :: _ => Closest
        | [] => Stall
        end
      else Within
  | _, _ => Unchecked
  end.

(** The speed and cue [applySafety] gives a segment whose quantized speed is
    [baseSpeed], after [prev], the last segment already constrained. *)
Definition limitRamp (allowed : list Q) (rampLimit : option Q) (prev : option Segment)
    (baseSpeed : Q) (cue : option string) : Q * option string :=
  match prev, rampLimit with
  | Some previous, Some limit =>
      let prevSpeed := speed previous in
      if Qlt_bool limit (Qabs (baseSpeed - prevSpeed)) then
        match withinRamp allowed prevSpeed limit with
        | (first :: _) as candidates =>
            let best := closest baseSpeed first candidates in
            if negb (Qeq_bool best baseSpeed)
            then (best, clampedCue cue)
            else (baseSpeed, cue)
        | [] =>
            if negb (Qeq_bool prevSpeed baseSpeed)
            then (prevSpeed, clampedCue cue)
            else (baseSpeed, cue)
        end
      else (baseSpeed, cue)
  | _, _ => (baseSpeed, cue)
  end.

(** The segment the first loop of [applySafety] pushes for [segment], whose
    quantized speed is [baseSpeed]: [{ ...segment, speed, cue }]. *)
Definition constrainedSegment (allowed : list Q) (rampLimit : option Q)
    (prev : option Segment) (segment : RawSegment) (baseSpeed : Q) : Segment :=
  let '(speed', cue') := limitRamp allowed rampLimit prev baseSpeed (cue segment) in
  mkSegment (secs segment) speed' (incline segment) cue'.

(** The body of the first loop of [applySafety]: quantize, limit the ramp
    against the last constrained segment, push. *)
Definition constrainStep (allowed : list Q) (rampLimit : option Q)
    (constrained : list Segment) (segment : RawSegment) : Result (list Segment) :=
  baseSpeed <- quantizeDown allowed (speed segment) ;;
  Return (constrained ++
            [constrainedSegment allowed rampLimit (lastOf constrained) segment baseSpeed]).

(** The first loop of [applySafety], from the segments constrained so far. *)
Fixpoint constrainFrom (allowed : list Q) (rampLimit : option Q)
    (constrained : list Segment) (rawSegments : list RawSegment) : Result (list Segment) :=
  match rawSegments with
  | [] => Return constrained
  | segment :: rest =>
      next <- constrainStep allowed rampLimit constrained segment ;;
      constrainFrom allowed rampLimit next rest
  end.

Definition mergeCue (previous next : option string) : option string :=
  match previous, next with
  | Some p, Some n =>
      if truthy previous && truthy next && negb (String.eqb p n)
      then Some (p +++ " | " +++ n)
      else previous
  | Some _, None => previous
  | None, _ => next
  end.

(** Whether the merge loop folds [segment] into [previous], the last merged
    segment. *)
Definition mergeable (minSegmentSec : Q) (previous segment : Segment) : bool :=
  Qeq_bool (speed previous) (speed segment)
  && (Qlt_bool (secs previous) minSegmentSec || Qlt_bool (secs segment) minSegmentSec).

(** The segment that replaces [previous] when [segment] is folded into it. *)
Definition mergedSegment (previous segment : Segment) : Segment :=
  mkSegment (secs previous + secs segment) (speed previous) (incline previous)
    (mergeCue (cue previous) (cue segment)).

(** The body of the second loop of [applySafety]. *)
Definition mergeStep (minSegmentSec : Q) (merged : list Segment) (segment : Segment)
    : list Segment :=
  match lastOf merged with
  | Some previous =>
      if mergeable minSegmentSec previous segment
      then removelast merged ++ [mergedSegment previous segment]
      else merged ++ [segment]
  | None => merged ++ [segment]
  end.

(** The second loop of [applySafety], from the segments merged so far. *)
Definition mergeFrom (minSegmentSec : Q) (merged constrained : list Segment) : list Segment :=
  fold_left (mergeStep minSegmentSec) constrained merged.

Definition applySafety (profile : DeviceProfile) (rawSegments : list RawSegment)
    : Result (list Segment) :=
  let allowed := sortSpeeds (speeds profile) in
  let rampLimit := rampLimitPerChange profile in
  constrained <- constrainFrom allowed rampLimit [] rawSegments ;;
  match minSegmentSec profile with
  | None => Return constrained
  | Some minSec => Return (mergeFrom minSec [] constrained)
  end.

(** [segments.reduce((sum, segment) => sum + segment.secs, 0)]. *)
Definition sumSecs (segments : list Segment) : Q :=
  fold_left (fun sum segment => sum + secs segment) segments 0.

Definition finalizeWorkout (profile : DeviceProfile) (name' : option string)
    (segments : list RawSegment) : Result Workout.t :=
  let resolvedName := orDefault (name profile) name' in
  constrained <- applySafety profile segments ;;
  let totalSecs := sumSecs constrained in
  Return (Workout.make resolvedName (units profile) totalSecs constrained).

(** ** Plan builders *)

(** [speeds[speeds.length - 1]] and [speeds[0]] of the sorted speeds.  On an
    empty list both are [undefined] in the source, and every target computed
    from them is passed to [quantizeDown], which throws on the empty list
    before it reads its target: the [0] below is never looked at. *)
Definition maxSpeed (sorted : list Q) : Q := last sorted 0.
Definition minSpeed (sorted : list Q) : Q := hd 0 sorted.

Section Builders.

Context {toText : NumberToString}.

(** [`${label} @ ${speed} ${units}`]. *)
Definition cueAt (label : string) (speed : string) (profile : DeviceProfile) : option string :=
  Some (label +++ " @ " +++ speed +++ " " +++ unitsToString (units profile)).

(** The speed of a raw segment in a template literal. *)
Definition targetToString (target : option Q) : string :=
  match target with
  | Some v => numToString v
  | None => "undefined"
  end.

(** The warm-up speed all three builders share. *)
Definition warmSpeed (sorted : list Q) : Result Q :=
  let max := maxSpeed sorted in
  let min := minSpeed sorted in
  let warmTarget := clamp (min + (max - min) * 0.35) min max in
  quantizeDown sorted (Some warmTarget).

(** The pair of segments pushed by iteration [i] of the loop of
    [makeIntervals]. *)
Definition intervalPair (profile : DeviceProfile) (repeats hardSecs easySecs hard easy : Q)
    (i : Z) : list RawSegment :=
  let index := numToString (inject_Z (i + 1)) +++ "/" +++ numToString repeats in
  [ mkSegment hardSecs (Some hard) None
      (cueAt ("Hard " +++ index) (numToString hard) profile);
    mkSegment easySecs (Some easy) None
      (cueAt ("Easy " +++ index) (numToString easy) profile) ].

Definition makeIntervals (profile : DeviceProfile) (opts : IntervalPlanOpts.t)
    : Result Workout.t :=
  let speeds := sortSpeeds (speeds profile) in
  let max := maxSpeed speeds in
  let min := minSpeed speeds in
  let name := orDefault "Intervals"%string (IntervalPlanOpts.name opts) in
  let warmupMins := orDefault 5 (IntervalPlanOpts.warmupMins opts) in
  let cooldownMins := orDefault 5 (IntervalPlanOpts.cooldownMins opts) in
  let repeats := orDefault 6 (IntervalPlanOpts.repeats opts) in
  let hardSecs := orDefault 90 (IntervalPlanOpts.hardSecs opts) in
  let easySecs := orDefault 90 (IntervalPlanOpts.easySecs opts) in
  let hardIntensity := orDefault 0.85 (IntervalPlanOpts.hardIntensity opts) in
  let easyIntensity := orDefault 0.55 (IntervalPlanOpts.easyIntensity opts) in
  warm <- warmSpeed speeds ;;
  let hardTarget := clamp (max * hardIntensity) min max in
  let easyTarget := clamp (max * easyIntensity) min max in
  hard <- quantizeDown speeds (Some hardTarget) ;;
  easy <- quantizeDown speeds (Some easyTarget) ;;
  let warmup : list RawSegment :=
    if Qlt_bool 0 warmupMins
    then [mkSegment (Math_round (warmupMins * 60)) (Some warm) None
            (cueAt "Warm-up" (numToString warm) profile)]
    else [] in
  let work : list RawSegment :=
    flat_map (intervalPair profile repeats hardSecs easySecs hard easy) (countUp repeats) in
  let cooldown : list RawSegment :=
    if Qlt_bool 0 cooldownMins
    then [mkSegment (Math_round (cooldownMins * 60)) (Some warm) None
            (cueAt "Cool-down" (numToString warm) profile)]
    else [] in
  finalizeWorkout profile (Some name) (warmup ++ work ++ cooldown).

(** The pair of segments pushed by iteration [i] of the stride loop of
    [makeSteady]. *)
Definition stridePair (profile : DeviceProfile) (stride cruiseSpeed : Q) (i : Z)
    : list RawSegment :=
  [ mkSegment 20 (Some stride) None
      (cueAt ("Stride " +++ numToString (inject_Z (i + 1)) +++ "/4") (numToString stride) profile);
    mkSegment 40 (Some cruiseSpeed) None
      (cueAt "Easy between strides" (numToString cruiseSpeed) profile) ].

(** The raw plan of [makeSteady], before [finalizeWorkout]. *)
Definition steadyPlan (profile : DeviceProfile) (opts : SteadyOpts.t)
    : Result (list RawSegment) :=
  let speeds := sortSpeeds (speeds profile) in
  let max := maxSpeed speeds in
  let min := minSpeed speeds in
  let totalMins := orDefault 30 (SteadyOpts.totalMins opts) in
  let intensity := orDefault 0.65 (SteadyOpts.intensity opts) in
  let addStrides := orDefault true (SteadyOpts.addStrides opts) in
  warm <- warmSpeed speeds ;;
  let cruiseTarget := clamp (max * intensity) min max in
  cruise <- quantizeDown speeds (Some cruiseTarget) ;;
  let totalSecs := Math_max 0 (Math_round (totalMins * 60)) in
  let warmSecs := Math_min (totalSecs / 2) (5 * 60) in
  let coolSecs := warmSecs in
  let cruiseSecs := Math_max 0 (totalSecs - warmSecs - coolSecs) in
  let warmSeg : RawSegment :=
    mkSegment (Math_round warmSecs) (Some warm) None (cueAt "Warm-up" (numToString warm) profile) in
  let cruiseSeg : RawSegment :=
    mkSegment (Math_round cruiseSecs) (Some cruise) None
      (cueAt "Cruise" (numToString cruise) profile) in
  let coolSeg : RawSegment :=
    mkSegment (Math_round coolSecs) (Some warm) None
      (cueAt "Cool-down" (numToString warm) profile) in
  if addStrides && Qle_bool (4 * (20 + 40)) cruiseSecs && (3 <=? List.length speeds)%nat then
    let strideTarget := clamp (max * 0.9) min max in
    stride <- quantizeDown speeds (Some strideTarget) ;;
    let preCruise := Math_max 0 (secs cruiseSeg - (4 * 20 + 4 * 40)) in
    let pre : list RawSegment :=
      if Qlt_bool 0 preCruise
      then [mkSegment preCruise (speed cruiseSeg) None (cue cruiseSeg)]
      else [] in
    Return ([warmSeg] ++ pre
              ++ flat_map (stridePair profile stride cruise) (countUp 4)
              ++ [coolSeg])
  else Return [warmSeg; cruiseSeg; coolSeg].

Definition makeSteady (profile : DeviceProfile) (opts : SteadyOpts.t) : Result Workout.t :=
  let name := orDefault "Steady"%string (SteadyOpts.name opts) in
  segments <- steadyPlan profile opts ;;
  finalizeWorkout profile (Some name) segments.

(** [stepCount] of [makeProgression]. *)
Definition stepCount (opts : ProgressionOpts.t) : Q :=
  Math_max 1 (orDefault 4 (ProgressionOpts.steps opts)).

(** The index into [usableSpeeds] sampled for step [i]. *)
Definition ladderIndex (stepCount : Q) (usableCount : nat) (i : Z) : Z :=
  let lastIndex := inject_Z (Z.of_nat usableCount - 1) in
  if Qeq_bool stepCount 1
  then (Z.of_nat usableCount - 1)%Z
  else Qfloor (inject_Z i / (stepCount - 1) * lastIndex + (1 # 2)).

(** The entry of the ladder pushed by iteration [i]; [undefined] when the
    sampled index is out of the bounds of [usableSpeeds]. *)
Definition ladderEntry (stepCount warm : Q) (usableSpeeds : list Q) (i : Z) : option Q :=
  match usableSpeeds with
  | [] => Some warm
  | _ :: _ => at_index usableSpeeds (ladderIndex stepCount (List.length usableSpeeds) i)
  end.

(** The first part of [makeProgression]: the warm-up speed and the ladder
    of step speeds. *)
Definition progressionLadder (profile : DeviceProfile) (opts : ProgressionOpts.t)
    : Result (Q * list (option Q)) :=
  let speeds := sortSpeeds (speeds profile) in
  let max := maxSpeed speeds in
  let topIntensity := orDefault 0.8 (ProgressionOpts.topIntensity opts) in
  warm <- warmSpeed speeds ;;
  let topTarget := clamp (max * topIntensity) warm max in
  top <- quantizeDown speeds (Some topTarget) ;;
  let stepCount := stepCount opts in
  let usableSpeeds :=
    filter (fun speed => Qle_bool warm speed && Qle_bool speed top) speeds in
  Return (warm, map (ladderEntry stepCount warm usableSpeeds) (countUp stepCount)).

(** The body of [ladder.forEach]: the state is the segments pushed so far,
    the remainder still to hand out, and the index of the next entry. *)
Definition pushStep (profile : DeviceProfile) (stepCount baseStepSecs : Q)
    (state : list RawSegment * Q * Z) (speed : option Q) : list RawSegment * Q * Z :=
  let '(segments, remainder, index) := state in
  let bonus := Qlt_bool 0 remainder in
  let secs := if bonus then baseStepSecs + 1 else baseStepSecs in
  let remainder' := if bonus then remainder - 1 else remainder in
  (segments ++
     [mkSegment secs speed None
        (cueAt ("Step " +++ numToString (inject_Z (index + 1)) +++ "/" +++ numToString stepCount)
           (targetToString speed) profile)],
   remainder', (index + 1)%Z).

(** The raw plan of [makeProgression], before [finalizeWorkout]. *)
Definition progressionPlan (profile : DeviceProfile) (opts : ProgressionOpts.t)
    : Result (list RawSegment) :=
  let totalMins := orDefault 30 (ProgressionOpts.totalMins opts) in
  built <- progressionLadder profile opts ;;
  let '(warm, ladder) := built in
  let stepCount := stepCount opts in
  let totalSecs := Math_max 0 (Math_round (totalMins * 60)) in
  let warmSecs := Math_min (totalSecs / 2) (5 * 60) in
  let coolSecs := warmSecs in
  let workSecs := Math_max 0 (totalSecs - warmSecs - coolSecs) in
  let baseStepSecs :=
    if Qeq_bool stepCount 0 then 0 else Math_floor (workSecs / stepCount) in
  let remainder := workSecs - baseStepSecs * stepCount in
  let warmSeg : RawSegment :=
    mkSegment (Math_round warmSecs) (Some warm) None (cueAt "Warm-up" (numToString warm) profile) in
  let '(segments, _, _) :=
    fold_left (pushStep profile stepCount baseStepSecs) ladder ([warmSeg], remainder, 0%Z) in
  Return (segments ++
            [mkSegment (Math_round coolSecs) (Some warm) None
               (cueAt "Cool-down" (numToString warm) profile)]).

Definition makeProgression (profile : DeviceProfile) (opts : ProgressionOpts.t)
    : Result Workout.t :=
  let name := orDefault "Progression"%string (ProgressionOpts.name opts) in
  segments <- progressionPlan profile opts ;;
  finalizeWorkout profile (Some name) segments.

End Builders.

(** ** A printer for the examples *)

(** A decimal rendering of a rational, used to run the generator on concrete
    profiles: the integer part and up to six decimals, trailing zeros
    dropped.  No property below depends on it. *)
Definition digitsOf (z : Z) : string := DecimalString.NilZero.string_of_int (Z.to_int z).

Fixpoint decimals (fuel : nat) (remainder : Z) (den : Z) : string :=
  match fuel with
  | O => EmptyString
  | S fuel' =>
      if (remainder =? 0)%Z then EmptyString
      else digitsOf (remainder * 10 / den) +++ decimals fuel' (remainder * 10 mod den) den
  end.

Definition decimalText (q : Q) : string :=
  let n := Z.abs (Qnum q) in
  let d := Zpos (Qden q) in
  let sign := (if (Qnum q <? 0)%Z then "-" else "")%string in
  let fraction := decimals 6 (n mod d) d in
  sign +++ digitsOf (n / d) +++ (if String.eqb fraction "" then EmptyString else "." +++ fraction).

#[local] Instance decimalNumbers : NumberToString := decimalText.

(** The profile of the test suite. *)
Definition testProfile : DeviceProfile :=
  mkDeviceProfile "Test Device" mph [1; 1.5; 2; 2.5; 3] None (Some 30) (Some 1).

(** ** describe *)

(** [text.padStart(2, '0')]. *)
Definition padStart2 (text : string) : string :=
  match String.length text with
  | O => "00"
  | S O => "0" +++ text
  | _ => text
  end.

(** [a % b] on numbers: the remainder has the sign of [a]. *)
Definition jsRemainder (a b : Q) : Q :=
  let quotient := a / b in
  let truncated := if Qle_bool 0 quotient then Qfloor quotient else Qceiling quotient in
  a - b * inject_Z truncated.

(** The separator between the two times of a line, as the bytes the source
    file holds at this place: the UTF-8 of the characters U+00E2, U+20AC and
    U+201C. *)
Definition separator : string :=
  String (ascii_of_nat 195) (String (ascii_of_nat 162)
    (String (ascii_of_nat 226) (String (ascii_of_nat 130) (String (ascii_of_nat 172)
      (String (ascii_of_nat 226) (String (ascii_of_nat 128) (String (ascii_of_nat 156)
        EmptyString))))))).

Section Rendering.

Context {toText : NumberToString}.

(** [pad] of [describe]: [String(value).padStart(2, '0')]. *)
Definition pad (value : Q) : string := padStart2 (numToString value).

(** The line [describe] prints for a segment that starts at [start] and
    ends at [elapsed]. *)
Definition describeLine (units : Units) (start elapsed : Q) (segment : Segment) : string :=
  let startMin := Math_floor (start / 60) in
  let startSec := jsRemainder start 60 in
  let endMin := Math_floor (elapsed / 60) in
  let endSec := jsRemainder elapsed 60 in
  let cueText :=
    match cue segment with
    | Some text => if truthy (cue segment) then "  " +++ text else EmptyString
    | None => EmptyString
    end in
  pad startMin +++ ":" +++ pad startSec +++ separator +++ pad endMin +++ ":" +++ pad endSec
    +++ "  @ " +++ numToString (speed segment) +++ " " +++ unitsToString units +++ cueText.

(** The callback of [describe] on one segment; the state is [elapsed] and
    the lines mapped so far. *)
Definition describeStep (units : Units) (state : Q * list string) (segment : Segment)
    : Q * list string :=
  let start := fst state in
  let elapsed := start + secs segment in
  (elapsed, snd state ++ [describeLine units start elapsed segment]).

(** The array [describe] joins. *)
Definition describeLines (workout : Workout.t) : list string :=
  snd (fold_left (describeStep (Workout.units workout)) (Workout.segments workout) (0, [])).

Definition describe (workout : Workout.t) : string :=
  String.concat (String (ascii_of_nat 10) EmptyString) (describeLines workout).

(** [segmentLabel] of the runner screen: the cue, or the speed when there
    is none. *)
Definition segmentLabel (segment : Segment) (units : Units) : string :=
  match cue segment with
  | Some text =>
      if truthy (cue segment) then text
      else "Speed " +++ numToString (speed segment) +++ " " +++ unitsToString units
  | None => "Speed " +++ numToString (speed segment) +++ " " +++ unitsToString units
  end.

End Rendering.

(** ** formatTime (runner screen) *)

(** [value.toString()] of a whole number: its decimal digits (below 1e21,
    where the host switches to the exponent form). *)
Definition wholeToString (value : Q) : string := digitsOf (Qfloor value).

Definition formatTime (seconds : Q) : string :=
  let total := Math_max 0 (Math_floor seconds) in
  let mins := padStart2 (wholeToString (Math_floor (total / 60))) in
  let secs := padStart2 (wholeToString (Math_floor (jsRemainder total 60))) in
  mins +++ ":" +++ secs.

(** ** normalizeSpeeds (command line) *)

(** The filter of [normalizeSpeeds] after the first element: a value stays
    when it differs from the one before it in the sorted array. *)
Fixpoint dropRepeats (previous : Q) (values : list Q) : list Q :=
  match values with
  | [] => []
  | value :: rest =>
      if negb (Qeq_bool value previous)
      then value :: dropRepeats value rest
      else dropRepeats value rest
  end.

Definition normalizeSpeeds (values : list Q) : list Q :=
  match sortSpeeds values with
  | [] => []
  | first :: rest => first :: dropRepeats first rest
  end.

(** ** buildWorkout (mobile session) *)

Inductive PlanMode : Type := intervals | steady | progression.

Module Profile.
Record t : Type := make {
  units : Units;
  speeds : list Q
}.
End Profile.

Module IntervalSettings.
Record t : Type := make {
  warmupMins : Q;
  cooldownMins : Q;
  repeats : Q;
  hardSecs : Q;
  easySecs : Q;
  hardIntensity : Q;
  easyIntensity : Q
}.
End IntervalSettings.

Module SteadySettings.
Record t : Type := make {
  totalMins : Q;
  intensity : Q;
  addStrides : bool
}.
End SteadySettings.

Module ProgressionSettings.
Record t : Type := make {
  totalMins : Q;
  steps : Q;
  topIntensity : Q
}.
End ProgressionSettings.

Module PlanState.
Record t : Type := make {
  mode : PlanMode;
  intervals : IntervalSettings.t;
  steady : SteadySettings.t;
  progression : ProgressionSettings.t
}.
End PlanState.







(** ** The ramp check on the numbers of the host *)

(** The numbers of the host are the binary64 floating-point numbers, with
    two infinities and NaN; the definitions above compute with exact
    rationals.  This module is [quantizeDown], [sortSpeeds] and the first
    loop of [applySafety] once more, on binary64 numbers: subtraction rounds
    to the nearest number, a comparison with NaN is false, and [!==] on NaN
    is true. *)
Module Binary64.

#[local] Open Scope float_scope.

Definition leTarget (value : float) (target : option float) : bool :=
  match target with
  | Some t => value <=? t
  | None => false
  end.

Fixpoint scanDown (target : option float) (candidate : float) (values : list float) : float :=
  match values with
  | [] => candidate
  | value :: rest =>
      if leTarget value target then scanDown target value rest else candidate
  end.

Definition quantizeDown (allowed : list float) (target : option float) : Result float :=
  match allowed with
  | [] => Throw EmptyDomain
  | first :: _ => Return (scanDown target first allowed)
  end.

(** The comparator [(a, b) => a - b] puts [a] after [b] when the difference
    is positive. *)
Fixpoint insertSpeed (x : float) (sorted : list float) : list float :=
  match sorted with
  | [] => [x]
  | y :: rest => if 0 <? x - y then y :: insertSpeed x rest else x :: sorted
  end.

Definition sortSpeeds (speeds : list float) : list float :=
  fold_right insertSpeed [] speeds.

Definition withinRamp (allowed : list float) (prevSpeed rampLimit : float) : list float :=
  filter (fun value => abs (value - prevSpeed) <=? rampLimit) allowed.

Definition closestStep (baseSpeed : float) (state : float * float) (candidate : float)
    : float * float :=
  let diff := abs (candidate - baseSpeed) in
  if diff <? snd state then (candidate, diff) else state.

Definition closest (baseSpeed first : float) (candidates : list float) : float :=
  fst (fold_left (closestStep baseSpeed) candidates (first, abs (first - baseSpeed))).

Definition rampCase (allowed : list float) (rampLimit : option float)
    (prev : option (SegmentOf float)) (baseSpeed : float) : RampCase :=
  match prev, rampLimit with
  | Some previous, Some limit =>
      if limit <? abs (baseSpeed - speed previous) then
        match withinRamp allowed (speed previous) limit with
        | _ :: _ => Closest
        | [] => Stall
        end
      else Within
  | _, _ => Unchecked
  end.

Definition limitRamp (allowed : list float) (rampLimit : option float)
    (prev : option (SegmentOf float)) (baseSpeed : float) (cue : option string)
    : float * option string :=
  match prev, rampLimit with
  | Some previous, Some limit =>
      let prevSpeed := speed previous in
      if limit <? abs (baseSpeed - prevSpeed) then
        match withinRamp allowed prevSpeed limit with
        | (first :: _) as candidates =>
            let best := closest baseSpeed first candidates in
            if negb (best =? baseSpeed)
            then (best, clampedCue cue)
            else (baseSpeed, cue)
        | [] =>
            if negb (prevSpeed =? baseSpeed)
            then (prevSpeed, clampedCue cue)
            else (baseSpeed, cue)
        end
      else (baseSpeed, cue)
  | _, _ => (baseSpeed, cue)
  end.

Definition constrainedSegment (allowed : list float) (rampLimit : option float)
    (prev : option (SegmentOf float)) (segment : SegmentOf (option float))
    (baseSpeed : float) : SegmentOf float :=
  let '(speed', cue') := limitRamp allowed rampLimit prev baseSpeed (cue segment) in
  mkSegment (secs segment) speed' (incline segment) cue'.

Definition constrainStep (allowed : list float) (rampLimit : option float)
    (constrained : list (SegmentOf float)) (segment : SegmentOf (option float))
    : Result (list (SegmentOf float)) :=
  baseSpeed <- quantizeDown allowed (speed segment) ;;
  Return (constrained ++
            [constrainedSegment allowed rampLimit (lastOf constrained) segment baseSpeed]).

Fixpoint constrainFrom (allowed : list float) (rampLimit : option float)
    (constrained : list (SegmentOf float)) (rawSegments : list (SegmentOf (option float)))
    : Result (list (SegmentOf float)) :=
  match rawSegments with
  | [] => Return constrained
  | segment :: rest =>
      next <- constrainStep allowed rampLimit constrained segment ;;
      constrainFrom allowed rampLimit next rest
  end.

(** The constrained list of [applySafety], from the speeds and the ramp
    limit of the profile. *)
Definition constrainedOf (speeds : list float) (rampLimit : option float)
    (rawSegments : list (SegmentOf (option float))) : Result (list (SegmentOf float)) :=
  constrainFrom (sortSpeeds speeds) rampLimit [] rawSegments.

(** A finite number: neither an infinity nor NaN. *)
Definition finite (x : float) : Prop :=
  match Prim2SF x with
  | S754_zero _ | S754_finite _ _ _ => True
  | _ => False
  end.

(** Speeds that end in an infinite one, and a plan that asks for the
    infinite speed and then for the lowest. *)
Definition speedsToInfinity : list float := [1; 2; infinity].

Definition downFromInfinity : list (SegmentOf (option float)) :=
  [ mkSegment 60%Q (Some infinity) None None; mkSegment 60%Q (Some 1) None None ].

End Binary64.

(** ** Vocabulary of the properties *)

(** A list of numbers sorted in ascending order. *)
Definition ascending (l : list Q) : Prop := Sorted Qle l.

(** [q] is the largest member of [allowed] that does not exceed [target]. *)
Definition largestBelow (allowed : list Q) (target q : Q) : Prop :=
  In q allowed /\ q <= target /\ forall v, In v allowed -> v <= target -> v <= q.

(** The adjacent pairs of a list, in order. *)
Fixpoint adjacentPairs {A : Type} (l : list A) : list (A * A) :=
  match l with
  | [] => []
  | a :: rest =>
      match rest with
      | [] => []
      | b :: _ => (a, b) :: adjacentPairs rest
      end
  end.

(** The sum of a list of numbers. *)
Definition total (l : list Q) : Q := fold_right Qplus 0 l.

(** Every segment has one of the allowed speeds. *)
Definition allAllowed (allowed : list Q) (segments : list Segment) : Prop :=
  Forall (fun s => In (speed s) allowed) segments.

(** An adjacent pair of segments respects the ramp limit [r]: the speed
    changes by at most [r]. *)
Definition withinLimit (r : Q) (pair : Segment * Segment) : Prop :=
  Qabs (speed (snd pair) - speed (fst pair)) <= r.

(** The same, or the speed does not change at all (a stall). *)
Definition withinLimitOrStall (r : Q) (pair : Segment * Segment) : Prop :=
  withinLimit r pair \/ speed (snd pair) == speed (fst pair).

(** An adjacent pair the merge pass is there to remove: equal speeds, both
    shorter than [minSec]. *)
Definition bothShort (minSec : Q) (pair : Segment * Segment) : Prop :=
  speed (fst pair) == speed (snd pair) /\ secs (fst pair) < minSec /\ secs (snd pair) < minSec.

(** A property of adjacent pairs that only looks at the two speeds, as
    numbers. *)
Definition speedOnly (R : Segment * Segment -> Prop) : Prop :=
  forall a b a' b',
    speed a == speed a' -> speed b == speed b' -> R (a, b) -> R (a', b').

(** An adjacent pair of equal speeds starts with a segment that is not
    shorter than [minSec]. *)
Definition firstLongEnough (minSec : Q) (pair : Segment * Segment) : Prop :=
  speed (fst pair) == speed (snd pair) -> minSec <= secs (fst pair).

(** The constrained list of [applySafety]: the result of its first loop. *)
Definition constrainedOf (profile : DeviceProfile) (rawSegments : list RawSegment)
    : Result (list Segment) :=
  constrainFrom (sortSpeeds (speeds profile)) (rampLimitPerChange profile) [] rawSegments.

(** [P] holds of the workout every builder returns, whatever the options;
    in particular every builder returns one. *)
Definition everyBuilder {toText : NumberToString} (profile : DeviceProfile)
    (P : Workout.t -> Prop) : Prop :=
  (forall opts, exists w, makeIntervals profile opts = Return w /\ P w) /\
  (forall opts, exists w, makeSteady profile opts = Return w /\ P w) /\
  (forall opts, exists w, makeProgression profile opts = Return w /\ P w).

(** [w] is what [finalizeWorkout] returns on some raw plan. *)
Definition finalizedFor (profile : DeviceProfile) (w : Workout.t) : Prop :=
  exists name rawSegments, finalizeWorkout profile name rawSegments = Return w.

(** [a <= b] between two entries of the ladder; false when either is
    [undefined]. *)
Definition leEntry (a b : option Q) : bool :=
  match a, b with
  | Some x, Some y => Qle_bool x y
  | _, _ => false
  end.

(** [ladder[i] <= ladder[i + 1]] for every [i]. *)
Definition nonDecreasing (ladder : list (option Q)) : bool :=
  forallb (fun pair => leEntry (fst pair) (snd pair)) (adjacentPairs ladder).

(** A number that is an integer. *)
Definition wholeNumber (q : Q) : Prop := inject_Z (Qfloor q) == q.

(** A profile with four speeds and no limits, and a progression of two and
    a half steps up to the top speed. *)
Definition fourSpeeds : DeviceProfile :=
  mkDeviceProfile "Four speeds" mph [1; 2; 3; 4] None None None.

Definition fractionalSteps : ProgressionOpts.t :=
  ProgressionOpts.make None (Some 30) (Some 2.5) (Some 1).

(** [quantizeDown(speeds, clamp(max * fraction, min, max))]: the speed a
    builder derives from an intensity. *)
Definition intensitySpeed (sorted : list Q) (fraction : Q) : Result Q :=
  quantizeDown sorted
    (Some (clamp (maxSpeed sorted * fraction) (minSpeed sorted) (maxSpeed sorted))).





(** A profile with three speeds and no limits. *)
Definition threeSpeeds : DeviceProfile :=
  mkDeviceProfile "Three speeds" mph [1; 2; 3] None None None.


(** A constrained segment that is its raw segment with the speed quantized
    and everything else untouched. *)
Definition quantizedOnly (allowed : list Q) (raw : RawSegment) (s : Segment) : Prop :=
  quantizeDown allowed (speed raw) = Return (speed s) /\
  secs s = secs raw /\ cue s = cue raw /\ incline s = incline raw.

(** A segment, raw or finished, with a cue that is not empty. *)
Definition cued {V : Type} (s : SegmentOf V) : Prop := truthy (cue s) = true.

(** [totalSecs] of [makeSteady] and [makeProgression]. *)
Definition plannedSecs (totalMins : Q) : Q := Math_max 0 (Math_round (totalMins * 60)).

(** The seconds of a warm-up or cool-down of [mins] minutes in
    [makeIntervals]: none unless [mins] is positive. *)
Definition bookendSecs (mins : Q) : Q :=
  if Qlt_bool 0 mins then Math_round (mins * 60) else 0.

(** The number of turns of [for (let i = 0; i < bound; i++)]. *)
Definition turns (bound : Q) : Z := Z.max 0 (Qceiling bound).

(** A list of numbers in strictly ascending order: sorted, and no number
    twice. *)
Definition strictlyAscending (l : list Q) : Prop := Sorted Qlt l.










(** A step of the raw plan of [makeProgression]: its cue starts with
    [Step]. *)
Definition isStep (s : RawSegment) : bool :=
  match cue s with
  | Some text => String.prefix "Step" text
  | None => false
  end.

(** A number the host holds exactly.  The finite numbers of the host are
    the binary64 numbers: [m * 2^e] with [|m| < 2^53] and
    [-1074 <= e <= 971]. *)
Definition binary64 (q : Q) : Prop :=
  exists m e : Z,
    (Z.abs m < 2 ^ 53)%Z /\ (-1074 <= e <= 971)%Z /\ q == inject_Z m * 2 ^ e.

(** Numbers the host subtracts without rounding: each of them is a binary64
    number, and so is the difference of any two of them. *)
Definition exactDifferences (numbers : list Q) : Prop :=
  Forall binary64 numbers /\
  forall a b, In a numbers -> In b numbers -> binary64 (a - b).

(** A check that [q] is [m * 2^e] for a whole [m] below 2^53 in absolute
    value and an exponent [e] of the binary64 format; and the same check of
    the numbers of a list and of their differences. *)
Definition binary64At (e : Z) (q : Q) : bool :=
  let scaled := Qred (q * 2 ^ (- e)) in
  (Z.pos (Qden scaled) =? 1)%Z && (Z.abs (Qnum scaled) <? 2 ^ 53)%Z
  && (-1074 <=? e)%Z && (e <=? 971)%Z.

Definition exactDifferencesAt (e : Z) (numbers : list Q) : bool :=
  forallb (binary64At e) numbers
  && forallb (fun a => forallb (fun b => binary64At e (a - b)) numbers) numbers.

(** A number of turns of a loop that pushes one or two segments per turn
    and stays within the length of an array of the host, 2^32 - 1. *)
Definition fitsArray (count : Q) : Prop := count < 2 ^ 30.

(** A whole number below 2^50 in absolute value.  The host holds it
    exactly; it also rounds to it the product, by 60, of the binary64
    number nearest to a sixtieth of it. *)
Definition exactWhole (q : Q) : Prop := wholeNumber q /\ Qabs q < 2 ^ 50.

(** The total time [makeIntervals] plans: the warm-up, the repeats, the
    cool-down. *)
Definition intervalsSecs (opts : IntervalPlanOpts.t) : Q :=
  bookendSecs (orDefault 5 (IntervalPlanOpts.warmupMins opts))
  + inject_Z (turns (orDefault 6 (IntervalPlanOpts.repeats opts)))
    * (orDefault 90 (IntervalPlanOpts.hardSecs opts)
       + orDefault 90 (IntervalPlanOpts.easySecs opts))
  + bookendSecs (orDefault 5 (IntervalPlanOpts.cooldownMins opts)).

(** Options of [makeIntervals] in whole seconds: the warm-up and the
    cool-down last a whole number of seconds, the hard and the easy stretch
    a whole number of seconds that is not negative, and the number of
    repeats, whole or not, is a binary64 number an array has room for. *)
Definition wholeIntervals (opts : IntervalPlanOpts.t) : Prop :=
  exactWhole (orDefault 5 (IntervalPlanOpts.warmupMins opts) * 60) /\
  exactWhole (orDefault 5 (IntervalPlanOpts.cooldownMins opts) * 60) /\
  binary64 (orDefault 6 (IntervalPlanOpts.repeats opts)) /\
  fitsArray (orDefault 6 (IntervalPlanOpts.repeats opts)) /\
  exactWhole (orDefault 90 (IntervalPlanOpts.hardSecs opts)) /\
  0 <= orDefault 90 (IntervalPlanOpts.hardSecs opts) /\
  exactWhole (orDefault 90 (IntervalPlanOpts.easySecs opts)) /\
  0 <= orDefault 90 (IntervalPlanOpts.easySecs opts).

(** * Properties *)

(** ** Numbers and lists *)

Lemma Qlt_bool_iff (a b : Q) : Qlt_bool a b = true <-> a < b.
Proof.
  unfold Qlt_bool. rewrite negb_true_iff. split.
  - intros H. destruct (Qlt_le_dec a b) as [Hlt | Hle]; [exact Hlt|].
    apply Qle_bool_iff in Hle. congruence.
  - intros H. destruct (Qle_bool b a) eqn:E; [|reflexivity].
    apply Qle_bool_iff in E. exfalso. apply (Qlt_not_le _ _ H E).
Qed.

Lemma Qlt_bool_false (a b : Q) : Qlt_bool a b = false <-> b <= a.
Proof.
  unfold Qlt_bool. rewrite negb_false_iff. apply Qle_bool_iff.
Qed.

Lemma Qle_bool_false (a b : Q) : Qle_bool a b = false <-> b < a.
Proof.
  rewrite <- Qlt_bool_iff. unfold Qlt_bool. destruct (Qle_bool a b); simpl; intuition congruence.
Qed.

Lemma Qeq_bool_false (a b : Q) : Qeq_bool a b = false <-> ~ a == b.
Proof.
  split; [apply Qeq_bool_neq|].
  intros H. destruct (Qeq_bool a b) eqn:E; [|reflexivity].
  apply Qeq_bool_iff in E. contradiction.
Qed.

Lemma ascending_strongly (l : list Q) : ascending l -> StronglySorted Qle l.
Proof.
  apply Sorted_StronglySorted. intros x y z. apply Qle_trans.
Qed.

Lemma ascending_head_least (first : Q) (rest : list Q) :
  ascending (first :: rest) -> forall v, In v (first :: rest) -> first <= v.
Proof.
  intros Hs v [<- | Hin]; [apply Qle_refl|].
  apply ascending_strongly, StronglySorted_inv in Hs. destruct Hs as [_ Hall].
  rewrite Forall_forall in Hall. apply Hall, Hin.
Qed.

(** ** quantizeDown *)

Lemma scanDown_In (target : option Q) (values : list Q) :
  forall candidate, In (scanDown target candidate values) (candidate :: values).
Proof.
  induction values as [|value rest IH]; intros candidate; simpl.
  - left; reflexivity.
  - destruct (leTarget value target).
    + destruct (IH value) as [<- | Hin]; [right; left; reflexivity | right; right; exact Hin].
    + left; reflexivity.
Qed.

(** Scanning an ascending list from a candidate that is below the target and
    below the whole list ends on the largest value below the target. *)
Lemma scanDown_largest (target : Q) (values : list Q) :
  StronglySorted Qle values ->
  forall candidate,
    candidate <= target ->
    (forall v, In v values -> candidate <= v) ->
    let q := scanDown (Some target) candidate values in
    q <= target /\ candidate <= q /\ forall v, In v values -> v <= target -> v <= q.
Proof.
  induction 1 as [|value rest Hrest IH Hall]; intros candidate Hc Hlow; simpl.
  - repeat split; [exact Hc | apply Qle_refl | intros v []].
  - rewrite Forall_forall in Hall.
    destruct (Qle_bool value target) eqn:E.
    + apply Qle_bool_iff in E.
      destruct (IH value E Hall) as (Hq & Hvq & Hmax).
      repeat split; [exact Hq | |].
      * apply Qle_trans with value; [apply Hlow; left; reflexivity | exact Hvq].
      * intros v [<- | Hin] Hv; [exact Hvq | apply Hmax; assumption].
    + apply Qle_bool_false in E.
      repeat split; [exact Hc | apply Qle_refl |].
      intros v Hin Hv. exfalso.
      assert (value <= v) as Hvv by (destruct Hin as [<- | Hin]; [apply Qle_refl | apply Hall, Hin]).
      apply (Qlt_not_le _ _ E). apply Qle_trans with v; assumption.
Qed.

Lemma quantizeDown_returns (allowed : list Q) (target : option Q) :
  allowed <> [] ->
  exists q, quantizeDown allowed target = Return q /\ In q allowed.
Proof.
  destruct allowed as [|first rest]; [congruence|]. intros _.
  eexists; split; [reflexivity|].
  simpl. destruct (leTarget first target).
  - apply scanDown_In.
  - left; reflexivity.
Qed.

(** What [quantizeDown] computes on an ascending list. *)
Lemma quantizeDown_floor (first : Q) (rest : list Q) (target : Q) :
  ascending (first :: rest) ->
  exists q, quantizeDown (first :: rest) (Some target) = Return q /\
    In q (first :: rest) /\
    (first <= target -> largestBelow (first :: rest) target q) /\
    (target < first -> q = first).
Proof.
  intros Hs.
  destruct (quantizeDown_returns (first :: rest) (Some target)) as (q & Hq & Hin); [discriminate|].
  exists q. split; [exact Hq|]. split; [exact Hin|]. split.
  - intros Hle. split; [exact Hin|].
    simpl in Hq. injection Hq as Hq. subst q.
    apply Qle_bool_iff in Hle. rewrite Hle.
    apply Qle_bool_iff in Hle.
    pose proof (ascending_head_least _ _ Hs) as Hleast.
    apply ascending_strongly, StronglySorted_inv in Hs. destruct Hs as [Hrest _].
    destruct (scanDown_largest target rest Hrest first Hle) as (H1 & H2 & H3).
    { intros v Hv. apply Hleast. right; exact Hv. }
    split; [exact H1|]. intros v [<- | Hv] Hvt; [exact H2 | apply H3; assumption].
  - intros Hlt. simpl in Hq. injection Hq as Hq. subst q.
    apply Qle_bool_false in Hlt. rewrite Hlt. reflexivity.
Qed.

(** C3.  For a non-empty list [allowed] sorted in ascending order and a
    target [target]: [quantizeDown] returns a member of [allowed]; when the
    minimum of the list (its head) does not exceed the target, that member
    is the largest one that does not exceed the target; otherwise it is the
    minimum. *)
Theorem quantizeDown_largest_or_min (allowed : list Q) (target : Q) :
  allowed <> [] ->
  ascending allowed ->
  exists q, quantizeDown allowed (Some target) = Return q /\
    In q allowed /\
    (forall v, In v allowed -> minSpeed allowed <= v) /\
    (minSpeed allowed <= target -> largestBelow allowed target q) /\
    (~ minSpeed allowed <= target -> q = minSpeed allowed).
Proof.
  destruct allowed as [|first rest]; [congruence|]. intros _ Hs.
  destruct (quantizeDown_floor first rest target Hs) as (q & Hq & Hin & Hfloor & Hmin).
  exists q. simpl minSpeed.
  split; [exact Hq|]. split; [exact Hin|]. split; [|split].
  - apply ascending_head_least, Hs.
  - exact Hfloor.
  - intros Hn. apply Hmin, Qnot_le_lt, Hn.
Qed.

(** C9.  On a non-empty list sorted in ascending order, [quantizeDown]
    returns a member of the list unchanged (as a number), and a larger
    target never gets a smaller result. *)
Theorem quantizeDown_idempotent_monotone (allowed : list Q) :
  allowed <> [] ->
  ascending allowed ->
  (forall v, In v allowed ->
     exists q, quantizeDown allowed (Some v) = Return q /\ q == v) /\
  (forall t1 t2, t1 <= t2 ->
     exists q1 q2,
       quantizeDown allowed (Some t1) = Return q1 /\
       quantizeDown allowed (Some t2) = Return q2 /\
       q1 <= q2).
Proof.
  destruct allowed as [|first rest]; [congruence|]. intros _ Hs.
  pose proof (ascending_head_least _ _ Hs) as Hleast.
  split.
  - intros v Hv.
    destruct (quantizeDown_floor first rest v Hs) as (q & Hq & _ & Hfloor & _).
    exists q. split; [exact Hq|].
    destruct (Hfloor (Hleast v Hv)) as (_ & Hle & Hmax).
    apply Qle_antisym; [exact Hle | apply Hmax; [exact Hv | apply Qle_refl]].
  - intros t1 t2 Ht.
    destruct (quantizeDown_floor first rest t1 Hs) as (q1 & Hq1 & Hin1 & Hfloor1 & Hmin1).
    destruct (quantizeDown_floor first rest t2 Hs) as (q2 & Hq2 & Hin2 & Hfloor2 & Hmin2).
    exists q1, q2. split; [exact Hq1|]. split; [exact Hq2|].
    destruct (Qlt_le_dec t1 first) as [Hlow | Hhigh].
    + rewrite (Hmin1 Hlow). apply Hleast, Hin2.
    + destruct (Hfloor1 Hhigh) as (_ & Hle1 & _).
      destruct (Hfloor2 (Qle_trans _ _ _ Hhigh Ht)) as (_ & _ & Hmax2).
      apply Hmax2; [exact Hin1 | apply Qle_trans with t1; assumption].
Qed.

(** ** sortSpeeds *)

Lemma insertSpeed_perm (x : Q) (sorted : list Q) :
  Permutation (x :: sorted) (insertSpeed x sorted).
Proof.
  induction sorted as [|y rest IH]; simpl; [reflexivity|].
  destruct (Qle_bool x y); [reflexivity|].
  rewrite perm_swap. apply perm_skip, IH.
Qed.

Lemma insertSpeed_ascending (x : Q) (sorted : list Q) :
  ascending sorted -> ascending (insertSpeed x sorted).
Proof.
  unfold ascending. induction 1 as [|y rest Hrest IH Hhd]; simpl.
  - repeat constructor.
  - destruct (Qle_bool x y) eqn:E.
    + apply Qle_bool_iff in E. repeat constructor; assumption.
    + apply Qle_bool_false, Qlt_le_weak in E.
      constructor; [exact IH|].
      destruct Hhd as [|z rest' Hyz]; simpl; [repeat constructor; exact E|].
      destruct (Qle_bool x z); constructor; assumption.
Qed.

Lemma sortSpeeds_perm (speeds : list Q) : Permutation speeds (sortSpeeds speeds).
Proof.
  induction speeds as [|x rest IH]; simpl; [reflexivity|].
  rewrite <- insertSpeed_perm. apply perm_skip, IH.
Qed.

Lemma sortSpeeds_ascending (speeds : list Q) : ascending (sortSpeeds speeds).
Proof.
  induction speeds as [|x rest IH]; simpl; [constructor | apply insertSpeed_ascending, IH].
Qed.

Lemma sortSpeeds_In (speeds : list Q) (v : Q) : In v (sortSpeeds speeds) <-> In v speeds.
Proof.
  split; apply Permutation_in; [symmetry|]; apply sortSpeeds_perm.
Qed.

Lemma sortSpeeds_nonempty (speeds : list Q) : speeds <> [] -> sortSpeeds speeds <> [].
Proof.
  intros Hne Hnil. apply Hne. apply Permutation_nil. rewrite <- Hnil. symmetry. apply sortSpeeds_perm.
Qed.


(** ** Arrays grown at their end *)

Lemma last_cons {A : Type} (l : list A) :
  forall a d, last (a :: l) d = last l a.
Proof.
  induction l as [|b l IH]; intros a d; [reflexivity|].
  change (last (a :: b :: l) d) with (last (b :: l) d).
  rewrite (IH b d), (IH b a). reflexivity.
Qed.

Lemma lastOf_last {A : Type} (l : list A) (d : A) :
  l <> [] -> lastOf l = Some (last l d).
Proof.
  destruct l as [|a l]; [congruence|]. intros _. unfold lastOf. rewrite last_cons. reflexivity.
Qed.

Lemma lastOf_snoc {A : Type} (l : list A) (x : A) : lastOf (l ++ [x]) = Some x.
Proof.
  rewrite (lastOf_last _ x); [rewrite last_last; reflexivity | destruct l; discriminate].
Qed.

Lemma lastOf_split {A : Type} (l : list A) (x : A) :
  lastOf l = Some x -> l = removelast l ++ [x].
Proof.
  intros H. assert (l <> []) as Hne by (destruct l; [discriminate | congruence]).
  rewrite (lastOf_last l x Hne) in H. injection H as H.
  pose proof (app_removelast_last x Hne) as E. rewrite H in E. exact E.
Qed.

Lemma lastOf_In {A : Type} (l : list A) (x : A) : lastOf l = Some x -> In x l.
Proof.
  intros H. rewrite (lastOf_split l x H). apply in_or_app. right; left; reflexivity.
Qed.

Lemma adjacentPairs_snoc {A : Type} (l : list A) (x : A) :
  adjacentPairs (l ++ [x]) =
  adjacentPairs l ++ match lastOf l with Some y => [(y, x)] | None => [] end.
Proof.
  induction l as [|a l IH]; [reflexivity|].
  destruct l as [|b l]; [reflexivity|].
  change (adjacentPairs ((a :: b :: l) ++ [x])) with ((a, b) :: adjacentPairs ((b :: l) ++ [x])).
  rewrite IH.
  rewrite (lastOf_last (b :: l) x), (lastOf_last (a :: b :: l) x) by discriminate.
  reflexivity.
Qed.

(** ** The ramp limiter *)

Lemma Qabs_diff_le_compat (a a' b b' r : Q) :
  a == a' -> b == b' -> Qabs (a - b) <= r -> Qabs (a' - b') <= r.
Proof.
  intros Ha Hb H. apply Qabs_Qle_condition in H. apply Qabs_Qle_condition.
  destruct H as [H1 H2]. split; lra.
Qed.

Lemma withinRamp_In (allowed : list Q) (prevSpeed rampLimit v : Q) :
  In v (withinRamp allowed prevSpeed rampLimit) <->
  In v allowed /\ Qabs (v - prevSpeed) <= rampLimit.
Proof.
  unfold withinRamp. rewrite filter_In, Qle_bool_iff. reflexivity.
Qed.

Lemma closestStep_fst (baseSpeed : Q) (state : Q * Q) (candidate : Q) :
  fst (closestStep baseSpeed state candidate) = candidate \/
  fst (closestStep baseSpeed state candidate) = fst state.
Proof.
  unfold closestStep. destruct (Qlt_bool _ _); [left | right]; reflexivity.
Qed.

Lemma closest_fold_In (baseSpeed : Q) (candidates : list Q) :
  forall state,
    In (fst (fold_left (closestStep baseSpeed) candidates state)) (fst state :: candidates).
Proof.
  induction candidates as [|c rest IH]; intros state.
  - left; reflexivity.
  - change (fold_left (closestStep baseSpeed) (c :: rest) state)
      with (fold_left (closestStep baseSpeed) rest (closestStep baseSpeed state c)).
    destruct (IH (closestStep baseSpeed state c)) as [H | H].
    + rewrite <- H. destruct (closestStep_fst baseSpeed state c) as [-> | ->];
        [right; left; reflexivity | left; reflexivity].
    + right; right; exact H.
Qed.

Lemma closest_In (baseSpeed first : Q) (candidates : list Q) :
  In (closest baseSpeed first candidates) (first :: candidates).
Proof.
  apply (closest_fold_In baseSpeed candidates (first, Qabs (first - baseSpeed))).
Qed.

(** The closest candidate is one of the candidates. *)
Lemma closest_candidate (baseSpeed first : Q) (rest : list Q) :
  In (closest baseSpeed first (first :: rest)) (first :: rest).
Proof.
  destruct (closest_In baseSpeed first (first :: rest)) as [<- | H];
    [left; reflexivity | exact H].
Qed.

(** The three outcomes of the ramp check, by the branch taken. *)
Lemma limitRamp_cases (allowed : list Q) (rampLimit : option Q) (prev : option Segment)
    (baseSpeed : Q) (cue : option string) :
  let emitted := fst (limitRamp allowed rampLimit prev baseSpeed cue) in
  match rampCase allowed rampLimit prev baseSpeed, prev, rampLimit with
  | Unchecked, _, _ => emitted = baseSpeed /\ (prev = None \/ rampLimit = None)
  | Within, Some previous, Some limit =>
      emitted = baseSpeed /\ Qabs (baseSpeed - speed previous) <= limit
  | Closest, Some previous, Some limit =>
      In emitted (withinRamp allowed (speed previous) limit)
  | Stall, Some previous, Some limit =>
      emitted == speed previous /\ withinRamp allowed (speed previous) limit = []
  | _, _, _ => False
  end.
Proof.
  unfold limitRamp, rampCase.
  destruct prev as [previous|]; [|simpl; auto].
  destruct rampLimit as [limit|]; [|simpl; auto].
  destruct (Qlt_bool limit (Qabs (baseSpeed - speed previous))) eqn:Hramp.
  - destruct (withinRamp allowed (speed previous) limit) as [|first rest] eqn:Hcand.
    + destruct (Qeq_bool (speed previous) baseSpeed) eqn:Heq; simpl.
      * apply Qeq_bool_iff in Heq. split; [symmetry; exact Heq | reflexivity].
      * split; reflexivity.
    + destruct (Qeq_bool (closest baseSpeed first (first :: rest)) baseSpeed) eqn:Heq; simpl.
      * (* the closest candidate is the quantized speed, as a number *)
        exfalso. apply Qeq_bool_iff in Heq.
        pose proof (closest_candidate baseSpeed first rest) as Hin.
        rewrite <- Hcand in Hin at 2. apply withinRamp_In in Hin. destruct Hin as [_ Hle].
        apply Qlt_bool_iff in Hramp.
        apply (Qlt_not_le _ _ Hramp).
        apply (Qabs_diff_le_compat _ _ _ _ _ Heq (Qeq_refl _) Hle).
      * apply closest_candidate.
  - simpl. split; [reflexivity|]. apply Qlt_bool_false, Hramp.
Qed.

(** The emitted speed is an allowed speed. *)
Lemma limitRamp_allowed (allowed : list Q) (rampLimit : option Q) (prev : option Segment)
    (baseSpeed : Q) (cue : option string) :
  In baseSpeed allowed ->
  (forall previous, prev = Some previous -> In (speed previous) allowed) ->
  In (fst (limitRamp allowed rampLimit prev baseSpeed cue)) allowed.
Proof.
  intros Hbase Hprev.
  unfold limitRamp.
  destruct prev as [previous|]; [|exact Hbase].
  destruct rampLimit as [limit|]; [|exact Hbase].
  destruct (Qlt_bool limit (Qabs (baseSpeed - speed previous))); [|exact Hbase].
  destruct (withinRamp allowed (speed previous) limit) as [|first rest] eqn:Hcand.
  - destruct (negb (Qeq_bool (speed previous) baseSpeed)); simpl;
      [apply Hprev; reflexivity | exact Hbase].
  - destruct (negb (Qeq_bool (closest baseSpeed first (first :: rest)) baseSpeed)); simpl;
      [|exact Hbase].
    pose proof (closest_candidate baseSpeed first rest) as Hin.
    rewrite <- Hcand in Hin at 2. apply withinRamp_In in Hin. apply Hin.
Qed.

(** After a previous segment and under a limit, the emitted speed is within
    the limit of the previous speed, or equal to it. *)
Lemma limitRamp_ramp (allowed : list Q) (limit : Q) (previous : Segment)
    (baseSpeed : Q) (cue : option string) :
  let emitted := fst (limitRamp allowed (Some limit) (Some previous) baseSpeed cue) in
  Qabs (emitted - speed previous) <= limit \/ emitted == speed previous.
Proof.
  pose proof (limitRamp_cases allowed (Some limit) (Some previous) baseSpeed cue) as H.
  cbv zeta in H |- *.
  destruct (rampCase allowed (Some limit) (Some previous) baseSpeed).
  - destruct H as [_ [H | H]]; discriminate.
  - destruct H as [-> H]. left; exact H.
  - apply withinRamp_In in H. left; apply H.
  - right; apply H.
Qed.

(** When the limit is not negative and the previous speed is allowed, the
    previous speed is itself a candidate: there is no stall. *)
Lemma rampCase_no_stall (allowed : list Q) (limit : Q) (previous : Segment) (baseSpeed : Q) :
  0 <= limit ->
  In (speed previous) allowed ->
  In (speed previous) (withinRamp allowed (speed previous) limit) /\
  rampCase allowed (Some limit) (Some previous) baseSpeed <> Stall.
Proof.
  intros Hlimit Hin.
  assert (In (speed previous) (withinRamp allowed (speed previous) limit)) as Hcand.
  { apply withinRamp_In. split; [exact Hin|].
    apply Qabs_Qle_condition. split; lra. }
  split; [exact Hcand|].
  unfold rampCase.
  destruct (Qlt_bool limit (Qabs (baseSpeed - speed previous))); [|discriminate].
  destruct (withinRamp allowed (speed previous) limit); [destruct Hcand | discriminate].
Qed.

(** ** The first loop of applySafety *)

Lemma constrainedSegment_speed (allowed : list Q) (rampLimit : option Q)
    (prev : option Segment) (segment : RawSegment) (baseSpeed : Q) :
  speed (constrainedSegment allowed rampLimit prev segment baseSpeed)
  = fst (limitRamp allowed rampLimit prev baseSpeed (cue segment)).
Proof.
  unfold constrainedSegment. destruct (limitRamp _ _ _ _ _). reflexivity.
Qed.

Lemma constrainedSegment_secs (allowed : list Q) (rampLimit : option Q)
    (prev : option Segment) (segment : RawSegment) (baseSpeed : Q) :
  secs (constrainedSegment allowed rampLimit prev segment baseSpeed) = secs segment.
Proof.
  unfold constrainedSegment. destruct (limitRamp _ _ _ _ _). reflexivity.
Qed.

Section ConstrainLoop.

Variable allowed : list Q.
Variable rampLimit : option Q.
Hypothesis allowed_nonempty : allowed <> [].

(** With allowed speeds, every iteration pushes one segment. *)
Lemma constrainStep_pushes (constrained : list Segment) (segment : RawSegment) :
  exists baseSpeed,
    quantizeDown allowed (speed segment) = Return baseSpeed /\
    In baseSpeed allowed /\
    constrainStep allowed rampLimit constrained segment =
      Return (constrained ++
                [constrainedSegment allowed rampLimit (lastOf constrained) segment baseSpeed]).
Proof.
  destruct (quantizeDown_returns allowed (speed segment) allowed_nonempty) as (b & Hq & Hin).
  exists b. split; [exact Hq|]. split; [exact Hin|].
  unfold constrainStep. rewrite Hq. reflexivity.
Qed.

(** The loop returns, and keeps every invariant its body keeps. *)
Lemma constrainFrom_invariant (Inv : list Segment -> Prop) :
  (forall constrained segment baseSpeed,
      Inv constrained ->
      In baseSpeed allowed ->
      Inv (constrained ++
             [constrainedSegment allowed rampLimit (lastOf constrained) segment baseSpeed])) ->
  forall rawSegments constrained,
    Inv constrained ->
    exists out,
      constrainFrom allowed rampLimit constrained rawSegments = Return out /\ Inv out.
Proof.
  intros Hstep. induction rawSegments as [|segment rest IH]; intros constrained Hinv; simpl.
  - exists constrained. split; [reflexivity | exact Hinv].
  - destruct (constrainStep_pushes constrained segment) as (b & _ & Hin & ->). simpl.
    apply IH, Hstep; assumption.
Qed.

(** The loop is the loop over a prefix followed by the loop over the rest. *)
Lemma constrainFrom_app (prefix rest : list RawSegment) :
  forall constrained,
    constrainFrom allowed rampLimit constrained (prefix ++ rest) =
    (middle <- constrainFrom allowed rampLimit constrained prefix ;;
     constrainFrom allowed rampLimit middle rest).
Proof.
  induction prefix as [|segment prefix IH]; intros constrained; simpl; [reflexivity|].
  destruct (constrainStep allowed rampLimit constrained segment) as [next|e]; simpl;
    [apply IH | reflexivity].
Qed.

(** Every pushed speed is an allowed speed. *)
Lemma allAllowed_push (constrained : list Segment) (segment : RawSegment) (baseSpeed : Q) :
  allAllowed allowed constrained ->
  In baseSpeed allowed ->
  allAllowed allowed
    (constrained ++
       [constrainedSegment allowed rampLimit (lastOf constrained) segment baseSpeed]).
Proof.
  intros Hall Hbase. apply Forall_app. split; [exact Hall|].
  constructor; [|constructor].
  rewrite constrainedSegment_speed. apply limitRamp_allowed; [exact Hbase|].
  intros previous Hlast. unfold allAllowed in Hall. rewrite Forall_forall in Hall.
  apply Hall, lastOf_In, Hlast.
Qed.

(** The durations are those of the raw segments. *)
Lemma constrainFrom_secs (rawSegments : list RawSegment) :
  forall constrained out,
    constrainFrom allowed rampLimit constrained rawSegments = Return out ->
    map secs out = map secs constrained ++ map secs rawSegments.
Proof.
  induction rawSegments as [|segment rest IH]; intros constrained out; simpl.
  - intros H. injection H as <-. rewrite app_nil_r. reflexivity.
  - destruct (constrainStep_pushes constrained segment) as (b & _ & _ & ->). simpl.
    intros H. rewrite (IH _ _ H), map_app. simpl.
    rewrite constrainedSegment_secs, <- app_assoc. reflexivity.
Qed.

End ConstrainLoop.

(** ** The ramp limit along the constrained list *)

Lemma withinLimit_speedOnly (r : Q) : speedOnly (withinLimit r).
Proof.
  intros a b a' b' Ha Hb. unfold withinLimit. simpl.
  apply Qabs_diff_le_compat; assumption.
Qed.

Lemma withinLimitOrStall_speedOnly (r : Q) : speedOnly (withinLimitOrStall r).
Proof.
  intros a b a' b' Ha Hb [H | H]; [left | right].
  - apply (withinLimit_speedOnly r a b a' b' Ha Hb H).
  - simpl in *. rewrite <- Ha, <- Hb. exact H.
Qed.

Lemma rampOrStall_push (allowed : list Q) (r : Q) (constrained : list Segment)
    (segment : RawSegment) (baseSpeed : Q) :
  Forall (withinLimitOrStall r) (adjacentPairs constrained) ->
  Forall (withinLimitOrStall r)
    (adjacentPairs
       (constrained ++
          [constrainedSegment allowed (Some r) (lastOf constrained) segment baseSpeed])).
Proof.
  intros Hpairs. rewrite adjacentPairs_snoc. apply Forall_app. split; [exact Hpairs|].
  destruct (lastOf constrained) as [previous|]; [|constructor].
  constructor; [|constructor].
  unfold withinLimitOrStall, withinLimit. simpl.
  rewrite constrainedSegment_speed. apply limitRamp_ramp.
Qed.

Lemma ramp_push (allowed : list Q) (r : Q) (constrained : list Segment)
    (segment : RawSegment) (baseSpeed : Q) :
  0 <= r ->
  allAllowed allowed constrained ->
  Forall (withinLimit r) (adjacentPairs constrained) ->
  Forall (withinLimit r)
    (adjacentPairs
       (constrained ++
          [constrainedSegment allowed (Some r) (lastOf constrained) segment baseSpeed])).
Proof.
  intros Hr Hall Hpairs. rewrite adjacentPairs_snoc. apply Forall_app. split; [exact Hpairs|].
  destruct (lastOf constrained) as [previous|] eqn:Hlast; [|constructor].
  constructor; [|constructor].
  unfold withinLimit. simpl. rewrite constrainedSegment_speed.
  assert (In (speed previous) allowed) as Hprev.
  { unfold allAllowed in Hall. rewrite Forall_forall in Hall. apply Hall, lastOf_In, Hlast. }
  destruct (rampCase_no_stall allowed r previous baseSpeed Hr Hprev) as [_ Hno].
  pose proof (limitRamp_cases allowed (Some r) (Some previous) baseSpeed (cue segment)) as H.
  cbv zeta in H.
  destruct (rampCase allowed (Some r) (Some previous) baseSpeed).
  - destruct H as [_ [H | H]]; discriminate.
  - destruct H as [-> H]. exact H.
  - apply withinRamp_In in H. apply H.
  - congruence.
Qed.

(** ** The second loop of applySafety *)

Lemma sumSecs_snoc (segments : list Segment) (s : Segment) :
  sumSecs (segments ++ [s]) = sumSecs segments + secs s.
Proof.
  unfold sumSecs. rewrite fold_left_app. reflexivity.
Qed.

Lemma sumSecs_total (segments : list Segment) :
  sumSecs segments == total (map secs segments).
Proof.
  unfold sumSecs. rewrite <- (Qplus_0_l (total (map secs segments))).
  generalize 0 as start.
  induction segments as [|s rest IH]; intros start; simpl.
  - rewrite Qplus_0_r. reflexivity.
  - rewrite IH. unfold total. simpl. rewrite Qplus_assoc. reflexivity.
Qed.

Section MergeLoop.

Variable minSec : Q.

(** The three ways an iteration can go. *)
Lemma mergeStep_cases (merged : list Segment) (segment : Segment) :
  (merged = [] /\ mergeStep minSec merged segment = [segment]) \/
  (exists init previous,
      merged = init ++ [previous] /\
      ((mergeable minSec previous segment = true /\
        mergeStep minSec merged segment = init ++ [mergedSegment previous segment]) \/
       (mergeable minSec previous segment = false /\
        mergeStep minSec merged segment = init ++ [previous] ++ [segment]))).
Proof.
  unfold mergeStep. destruct (lastOf merged) as [previous|] eqn:Hlast.
  - right. exists (removelast merged), previous.
    pose proof (lastOf_split merged previous Hlast) as Hsplit.
    split; [exact Hsplit|].
    destruct (mergeable minSec previous segment); [left | right]; split; try reflexivity.
    rewrite Hsplit at 1. rewrite <- app_assoc. reflexivity.
  - left. destruct merged; [split; reflexivity | discriminate].
Qed.

(** A property of single segments that looks at the speed alone passes from
    the constrained list to the merged list. *)
Lemma mergeFrom_Forall (P : Q -> Prop) (constrained : list Segment) :
  forall merged,
    Forall (fun s => P (speed s)) merged ->
    Forall (fun s => P (speed s)) constrained ->
    Forall (fun s => P (speed s)) (mergeFrom minSec merged constrained).
Proof.
  unfold mergeFrom.
  induction constrained as [|segment rest IH]; intros merged Hm Hc; simpl; [exact Hm|].
  inversion Hc as [|? ? Hseg Hrest]; subst.
  apply IH; [|exact Hrest].
  destruct (mergeStep_cases merged segment) as [[-> ->] | (init & previous & -> & Hcase)].
  - constructor; [exact Hseg | constructor].
  - apply Forall_app in Hm. destruct Hm as [Hinit Hprev].
    inversion Hprev as [|? ? Hp _]; subst.
    destruct Hcase as [[_ ->] | [_ ->]]; apply Forall_app; split; try exact Hinit.
    + constructor; [exact Hp | constructor].
    + constructor; [exact Hp | constructor; [exact Hseg | constructor]].
Qed.

(** The merged list keeps the total duration. *)
Lemma mergeFrom_sumSecs (constrained : list Segment) :
  forall merged,
    sumSecs (mergeFrom minSec merged constrained) ==
    sumSecs merged + total (map secs constrained).
Proof.
  unfold mergeFrom.
  induction constrained as [|segment rest IH]; intros merged; simpl.
  - unfold total. simpl. rewrite Qplus_0_r. reflexivity.
  - rewrite IH. unfold total at 2. simpl. fold (total (map secs rest)).
    rewrite Qplus_assoc. apply Qplus_inj_r.
    destruct (mergeStep_cases merged segment) as [[-> ->] | (init & previous & -> & Hcase)].
    + reflexivity.
    + destruct Hcase as [[_ ->] | [_ ->]].
      * rewrite !sumSecs_snoc. simpl. rewrite Qplus_assoc. reflexivity.
      * rewrite app_assoc, !sumSecs_snoc. reflexivity.
Qed.

(** A property of adjacent pairs that looks at the speeds alone passes from
    the constrained list to the merged list. *)
Lemma mergeFrom_pairs (R : Segment * Segment -> Prop) :
  speedOnly R ->
  forall constrained merged,
    Forall R (adjacentPairs merged) ->
    Forall R (adjacentPairs constrained) ->
    (forall previous segment,
        lastOf merged = Some previous -> hd_error constrained = Some segment ->
        R (previous, segment)) ->
    Forall R (adjacentPairs (mergeFrom minSec merged constrained)).
Proof.
  intros HR. unfold mergeFrom.
  induction constrained as [|segment rest IH]; intros merged Hm Hc Hlink; simpl; [exact Hm|].
  assert (Forall R (adjacentPairs rest)) as Hrest.
  { destruct rest as [|s' rest']; [constructor|].
    change (adjacentPairs (segment :: s' :: rest'))
      with ((segment, s') :: adjacentPairs (s' :: rest')) in Hc.
    inversion Hc; assumption. }
  assert (forall s', hd_error rest = Some s' -> R (segment, s')) as Hnext.
  { intros s' Hs'. destruct rest as [|s'' rest']; [discriminate|]. injection Hs' as ->.
    change (adjacentPairs (segment :: s' :: rest'))
      with ((segment, s') :: adjacentPairs (s' :: rest')) in Hc.
    inversion Hc; assumption. }
  destruct (mergeStep_cases merged segment) as [[-> ->] | (init & previous & -> & Hcase)].
  - apply IH; [constructor | exact Hrest |].
    intros p s' Hp Hs'. injection Hp as <-. apply Hnext, Hs'.
  - assert (R (previous, segment)) as Hps
        by (apply Hlink; [apply lastOf_snoc | reflexivity]).
    rewrite adjacentPairs_snoc in Hm. apply Forall_app in Hm. destruct Hm as [Hinit Hlast].
    destruct Hcase as [[Hmerge ->] | [_ ->]].
    + apply IH; [| exact Hrest |].
      * rewrite adjacentPairs_snoc. apply Forall_app. split; [exact Hinit|].
        destruct (lastOf init) as [before|]; [|constructor].
        inversion Hlast as [|? ? Hbp _]; subst.
        constructor; [|constructor].
        apply (HR before previous before (mergedSegment previous segment));
          [reflexivity | reflexivity | exact Hbp].
      * intros p s' Hp Hs'. rewrite lastOf_snoc in Hp. injection Hp as <-.
        unfold mergeable in Hmerge. apply andb_true_iff in Hmerge.
        destruct Hmerge as [Heq _]. apply Qeq_bool_iff in Heq.
        apply (HR segment s' (mergedSegment previous segment) s');
          [symmetry; exact Heq | reflexivity | apply Hnext, Hs'].
    + rewrite app_assoc. apply IH; [| exact Hrest |].
      * rewrite adjacentPairs_snoc, lastOf_snoc. apply Forall_app. split.
        -- rewrite adjacentPairs_snoc. apply Forall_app. split; assumption.
        -- constructor; [exact Hps | constructor].
      * intros p s' Hp Hs'. rewrite lastOf_snoc in Hp. injection Hp as <-. apply Hnext, Hs'.
Qed.

(** In the merged list, an adjacent pair of equal speeds starts with a
    segment that is not shorter than the minimum. *)
Lemma mergeFrom_firstLongEnough (constrained : list Segment) :
  forall merged,
    Forall (firstLongEnough minSec) (adjacentPairs merged) ->
    Forall (firstLongEnough minSec) (adjacentPairs (mergeFrom minSec merged constrained)).
Proof.
  unfold mergeFrom.
  induction constrained as [|segment rest IH]; intros merged Hm; simpl; [exact Hm|].
  apply IH.
  destruct (mergeStep_cases merged segment) as [[-> ->] | (init & previous & -> & Hcase)].
  - constructor.
  - rewrite adjacentPairs_snoc in Hm. apply Forall_app in Hm. destruct Hm as [Hinit Hlast].
    destruct Hcase as [[_ ->] | [Hno ->]].
    + rewrite adjacentPairs_snoc. apply Forall_app. split; [exact Hinit|].
      destruct (lastOf init) as [before|]; [|constructor].
      inversion Hlast as [|? ? Hbp _]; subst.
      constructor; [exact Hbp | constructor].
    + rewrite app_assoc, adjacentPairs_snoc, lastOf_snoc. apply Forall_app. split.
      * rewrite adjacentPairs_snoc. apply Forall_app. split; assumption.
      * constructor; [|constructor].
        intros Heq. simpl in Heq. simpl.
        unfold mergeable in Hno. apply andb_false_iff in Hno.
        destruct Hno as [Hno | Hno].
        -- apply Qeq_bool_false in Hno. contradiction.
        -- apply orb_false_iff in Hno. destruct Hno as [Hno _].
           apply Qlt_bool_false, Hno.
Qed.

End MergeLoop.

(** ** applySafety and finalizeWorkout *)

(** What the first loop guarantees of the constrained list. *)
Lemma constrainedOf_safe (profile : DeviceProfile) (rawSegments : list RawSegment) :
  speeds profile <> [] ->
  exists constrained,
    constrainedOf profile rawSegments = Return constrained /\
    allAllowed (sortSpeeds (speeds profile)) constrained /\
    (forall r, rampLimitPerChange profile = Some r ->
       Forall (withinLimitOrStall r) (adjacentPairs constrained)) /\
    (forall r, rampLimitPerChange profile = Some r -> 0 <= r ->
       Forall (withinLimit r) (adjacentPairs constrained)) /\
    map secs constrained = map secs rawSegments.
Proof.
  intros Hne. pose proof (sortSpeeds_nonempty _ Hne) as Hs.
  unfold constrainedOf.
  set (allowed := sortSpeeds (speeds profile)) in *.
  set (rampLimit := rampLimitPerChange profile).
  destruct (constrainFrom_invariant allowed rampLimit Hs
              (fun c => allAllowed allowed c /\
                 (forall r, rampLimit = Some r ->
                    Forall (withinLimitOrStall r) (adjacentPairs c)) /\
                 (forall r, rampLimit = Some r -> 0 <= r ->
                    Forall (withinLimit r) (adjacentPairs c))))
    with (rawSegments := rawSegments) (constrained := @nil Segment)
    as (out & Hout & Hall & Hstall & Hramp).
  - intros c segment b (Hall & Hstall & Hramp) Hb. split; [|split].
    + apply allAllowed_push; assumption.
    + intros r Hr. rewrite Hr. apply rampOrStall_push, Hstall, Hr.
    + intros r Hr Hpos. rewrite Hr. apply ramp_push; [exact Hpos | exact Hall |].
      apply Hramp; assumption.
  - split; [constructor | split; intros; constructor].
  - exists out. split; [exact Hout|]. split; [exact Hall|]. split; [exact Hstall|].
    split; [exact Hramp|].
    apply (constrainFrom_secs allowed rampLimit Hs rawSegments [] out Hout).
Qed.

(** [applySafety] is its first loop followed by its second. *)
Lemma applySafety_loops (profile : DeviceProfile) (rawSegments : list RawSegment)
    (constrained : list Segment) :
  constrainedOf profile rawSegments = Return constrained ->
  applySafety profile rawSegments =
  Return (match minSegmentSec profile with
          | None => constrained
          | Some minSec => mergeFrom minSec [] constrained
          end).
Proof.
  unfold constrainedOf, applySafety. intros ->. simpl.
  destruct (minSegmentSec profile); reflexivity.
Qed.

(** What [applySafety] guarantees of the list it returns. *)
Lemma applySafety_safe (profile : DeviceProfile) (rawSegments : list RawSegment) :
  speeds profile <> [] ->
  exists segments,
    applySafety profile rawSegments = Return segments /\
    allAllowed (speeds profile) segments /\
    (forall r, rampLimitPerChange profile = Some r ->
       Forall (withinLimitOrStall r) (adjacentPairs segments)) /\
    (forall minSec, minSegmentSec profile = Some minSec ->
       Forall (firstLongEnough minSec) (adjacentPairs segments)) /\
    sumSecs segments == total (map secs rawSegments).
Proof.
  intros Hne.
  destruct (constrainedOf_safe profile rawSegments Hne)
    as (constrained & Hc & Hall & Hstall & _ & Hsecs).
  rewrite (applySafety_loops _ _ _ Hc).
  eexists. split; [reflexivity|].
  assert (allAllowed (speeds profile) constrained) as Hall'.
  { unfold allAllowed in *. rewrite Forall_forall in *.
    intros s Hs. apply sortSpeeds_In, Hall, Hs. }
  destruct (minSegmentSec profile) as [minSec|].
  - split; [|split; [|split]].
    + apply (mergeFrom_Forall minSec (fun v => In v (speeds profile)));
        [constructor | exact Hall'].
    + intros r Hr. apply mergeFrom_pairs;
        [apply withinLimitOrStall_speedOnly | constructor | apply Hstall, Hr |].
      intros previous segment Hlast. discriminate.
    + intros m Hm. injection Hm as <-. apply mergeFrom_firstLongEnough. constructor.
    + rewrite mergeFrom_sumSecs, Hsecs. unfold sumSecs. simpl. apply Qplus_0_l.
  - split; [exact Hall' | split; [exact Hstall | split]].
    + intros m Hm. discriminate.
    + rewrite sumSecs_total, Hsecs. reflexivity.
Qed.

Lemma finalizeWorkout_returns (profile : DeviceProfile) (name' : option string)
    (rawSegments : list RawSegment) (segments : list Segment) :
  applySafety profile rawSegments = Return segments ->
  finalizeWorkout profile name' rawSegments =
  Return (Workout.make (orDefault (name profile) name') (units profile)
            (sumSecs segments) segments).
Proof.
  unfold finalizeWorkout. intros ->. reflexivity.
Qed.

(** What [finalizeWorkout] guarantees of the workout it returns. *)
Lemma finalizedFor_safe (profile : DeviceProfile) (w : Workout.t) :
  speeds profile <> [] ->
  finalizedFor profile w ->
  allAllowed (speeds profile) (Workout.segments w) /\
  (forall r, rampLimitPerChange profile = Some r ->
     Forall (withinLimitOrStall r) (adjacentPairs (Workout.segments w))) /\
  (forall minSec, minSegmentSec profile = Some minSec ->
     Forall (firstLongEnough minSec) (adjacentPairs (Workout.segments w))) /\
  Workout.totalSecs w = sumSecs (Workout.segments w).
Proof.
  intros Hne (name' & rawSegments & Hw).
  destruct (applySafety_safe profile rawSegments Hne)
    as (segments & Hs & Hall & Hramp & Hmerge & _).
  rewrite (finalizeWorkout_returns _ _ _ _ Hs) in Hw. injection Hw as <-. simpl.
  repeat split; assumption.
Qed.

(** ** The builders reach finalizeWorkout *)

(** Rewrites the next call of [quantizeDown] on the sorted speeds [Hs] speaks
    of into the value it returns. *)
Ltac quantized Hs :=
  match goal with
  | |- context [quantizeDown ?allowed ?target] =>
      let q := fresh "q" in
      let Hq := fresh "Hq" in
      let Hin := fresh "Hin" in
      destruct (quantizeDown_returns allowed target Hs) as (q & Hq & Hin);
      rewrite Hq; cbv beta iota delta [bind]
  end.

Section BuildersReturn.

Context {toText : NumberToString}.

Variable profile : DeviceProfile.
Hypothesis speeds_nonempty : speeds profile <> [].

Lemma finalizeWorkout_finalizes (name' : option string) (rawSegments : list RawSegment) :
  exists w, finalizeWorkout profile name' rawSegments = Return w /\ finalizedFor profile w.
Proof.
  destruct (applySafety_safe profile rawSegments speeds_nonempty) as (segments & Hs & _).
  eexists. split; [apply finalizeWorkout_returns, Hs|].
  exists name', rawSegments. apply finalizeWorkout_returns, Hs.
Qed.

Lemma steadyPlan_returns (opts : SteadyOpts.t) :
  exists rawSegments, steadyPlan profile opts = Return rawSegments.
Proof.
  pose proof (sortSpeeds_nonempty _ speeds_nonempty) as Hs.
  unfold steadyPlan, warmSpeed. cbv zeta.
  quantized Hs. quantized Hs.
  match goal with |- context [if ?c then _ else _] => destruct c end.
  - quantized Hs. eexists; reflexivity.
  - eexists; reflexivity.
Qed.

Lemma progressionLadder_returns (opts : ProgressionOpts.t) :
  exists warm ladder, progressionLadder profile opts = Return (warm, ladder).
Proof.
  pose proof (sortSpeeds_nonempty _ speeds_nonempty) as Hs.
  unfold progressionLadder, warmSpeed. cbv zeta.
  quantized Hs. quantized Hs. eexists; eexists; reflexivity.
Qed.

Lemma progressionPlan_returns (opts : ProgressionOpts.t) :
  exists rawSegments, progressionPlan profile opts = Return rawSegments.
Proof.
  unfold progressionPlan.
  destruct (progressionLadder_returns opts) as (warm & ladder & ->).
  cbv beta iota delta [bind]. cbv zeta.
  match goal with |- context [fold_left ?f ?l ?a] => destruct (fold_left f l a) as [[? ?] ?] end.
  eexists; reflexivity.
Qed.

(** Every builder returns a workout, and it is one [finalizeWorkout] made. *)
Lemma everyBuilder_finalized : everyBuilder profile (finalizedFor profile).
Proof.
  pose proof (sortSpeeds_nonempty _ speeds_nonempty) as Hs.
  split; [|split]; intros opts.
  - unfold makeIntervals, warmSpeed. cbv zeta.
    quantized Hs. quantized Hs. quantized Hs.
    apply finalizeWorkout_finalizes.
  - unfold makeSteady. destruct (steadyPlan_returns opts) as (rawSegments & ->).
    cbv beta iota delta [bind]. apply finalizeWorkout_finalizes.
  - unfold makeProgression. destruct (progressionPlan_returns opts) as (rawSegments & ->).
    cbv beta iota delta [bind]. apply finalizeWorkout_finalizes.
Qed.

Lemma everyBuilder_weaken (P Q : Workout.t -> Prop) :
  (forall w, P w -> Q w) -> everyBuilder profile P -> everyBuilder profile Q.
Proof.
  intros HPQ (Hi & Hs & Hp).
  split; [|split]; intros opts;
    [destruct (Hi opts) as (w & Hw & HP)
    |destruct (Hs opts) as (w & Hw & HP)
    |destruct (Hp opts) as (w & Hw & HP)];
    exists w; (split; [exact Hw | apply HPQ, HP]).
Qed.

End BuildersReturn.

(** ** The guarantees of the finished workout *)

Section Guarantees.

Context {toText : NumberToString}.

(** C1.  For a profile whose list of speeds is not empty, and whatever the
    options, each of [makeIntervals], [makeSteady] and [makeProgression]
    returns a workout, and every segment of it has a speed that is an
    element of [profile.speeds]; so has every segment of the list
    [applySafety] returns, on every raw plan. *)
Theorem builders_emit_allowed_speeds (profile : DeviceProfile) :
  speeds profile <> [] ->
  everyBuilder profile
    (fun w => forall s, In s (Workout.segments w) -> In (speed s) (speeds profile)) /\
  (forall rawSegments,
      exists segments,
        applySafety profile rawSegments = Return segments /\
        forall s, In s segments -> In (speed s) (speeds profile)).
Proof.
  intros Hne. split.
  - apply (everyBuilder_weaken profile (finalizedFor profile));
      [|apply everyBuilder_finalized, Hne].
    intros w Hw. destruct (finalizedFor_safe profile w Hne Hw) as (Hall & _).
    unfold allAllowed in Hall. rewrite Forall_forall in Hall. exact Hall.
  - intros rawSegments.
    destruct (applySafety_safe profile rawSegments Hne) as (segments & Hs & Hall & _).
    exists segments. split; [exact Hs|].
    unfold allAllowed in Hall. rewrite Forall_forall in Hall. exact Hall.
Qed.

(** C2.  For a profile with speeds and a ramp limit [r], every adjacent
    pair of segments of the workout a builder returns changes speed by at
    most [r], or not at all; and for every raw plan this holds of the list
    [applySafety] has after ramp limiting as well as of the one it returns
    after the merge pass. *)
Theorem builders_respect_ramp_or_stall (profile : DeviceProfile) (r : Q) :
  speeds profile <> [] ->
  rampLimitPerChange profile = Some r ->
  everyBuilder profile
    (fun w => Forall (withinLimitOrStall r) (adjacentPairs (Workout.segments w))) /\
  (forall rawSegments,
      exists constrained segments,
        constrainedOf profile rawSegments = Return constrained /\
        applySafety profile rawSegments = Return segments /\
        Forall (withinLimitOrStall r) (adjacentPairs constrained) /\
        Forall (withinLimitOrStall r) (adjacentPairs segments)).
Proof.
  intros Hne Hr. split.
  - apply (everyBuilder_weaken profile (finalizedFor profile));
      [|apply everyBuilder_finalized, Hne].
    intros w Hw. destruct (finalizedFor_safe profile w Hne Hw) as (_ & Hramp & _).
    apply Hramp, Hr.
  - intros rawSegments.
    destruct (constrainedOf_safe profile rawSegments Hne) as (constrained & Hc & _ & Hstall & _).
    destruct (applySafety_safe profile rawSegments Hne) as (segments & Hs & _ & Hramp & _).
    exists constrained, segments.
    split; [exact Hc|]. split; [exact Hs|]. split; [apply Hstall, Hr | apply Hramp, Hr].
Qed.

(** C4.  For a profile with speeds and a minimum segment duration
    [minSec], the workout a builder returns has no two adjacent segments of
    equal speed that are both shorter than [minSec]. *)
Theorem builders_leave_no_short_pair (profile : DeviceProfile) (minSec : Q) :
  speeds profile <> [] ->
  minSegmentSec profile = Some minSec ->
  everyBuilder profile
    (fun w => Forall (fun pair => ~ bothShort minSec pair) (adjacentPairs (Workout.segments w))).
Proof.
  intros Hne Hmin.
  apply (everyBuilder_weaken profile (finalizedFor profile));
    [|apply everyBuilder_finalized, Hne].
  intros w Hw. destruct (finalizedFor_safe profile w Hne Hw) as (_ & _ & Hmerge & _).
  apply (Forall_impl _ (P := firstLongEnough minSec)); [|apply Hmerge, Hmin].
  intros pair Hlong (Heq & Hshort & _).
  apply (Qlt_not_le _ _ Hshort), Hlong, Heq.
Qed.

(** C5.  For a profile with speeds, the workout a builder returns has a
    [totalSecs] that is the sum of the [secs] of its segments: the very
    [reduce] of the source over the list it returns, which equals the sum
    as a number. *)
Theorem builders_total_is_sum (profile : DeviceProfile) :
  speeds profile <> [] ->
  everyBuilder profile
    (fun w => Workout.totalSecs w = sumSecs (Workout.segments w) /\
              Workout.totalSecs w == total (map secs (Workout.segments w))).
Proof.
  intros Hne.
  apply (everyBuilder_weaken profile (finalizedFor profile));
    [|apply everyBuilder_finalized, Hne].
  intros w Hw. destruct (finalizedFor_safe profile w Hne Hw) as (_ & _ & _ & ->).
  split; [reflexivity | apply sumSecs_total].
Qed.

(** C6.  For a profile whose list of speeds is empty, each builder throws
    the EmptyDomain error, whatever the options, and returns no workout. *)
Theorem builders_throw_on_empty_speeds (profile : DeviceProfile) :
  speeds profile = [] ->
  (forall opts, makeIntervals profile opts = Throw EmptyDomain) /\
  (forall opts, makeSteady profile opts = Throw EmptyDomain) /\
  (forall opts, makeProgression profile opts = Throw EmptyDomain).
Proof.
  intros Hempty. split; [|split]; intros opts.
  - unfold makeIntervals, warmSpeed. rewrite Hempty. reflexivity.
  - unfold makeSteady, steadyPlan, warmSpeed. rewrite Hempty. reflexivity.
  - unfold makeProgression, progressionPlan, progressionLadder, warmSpeed.
    rewrite Hempty. reflexivity.
Qed.

End Guarantees.

(** C10, amended.  In [applySafety], for a profile whose speeds are finite
    numbers (the numbers of the model: no [Infinity], no [NaN]), not empty,
    and a ramp limit [r >= 0], and for every raw plan: each segment of the
    constrained list has a speed that is itself in the candidate set around
    it; at no iteration of the loop (after the segments [done], on
    [segment], with [rest] to come) does the ramp check take the branch
    that reuses the previous speed for want of a candidate; and every
    adjacent pair of the constrained list changes speed by at most [r]. *)
Theorem stall_branch_unreachable (profile : DeviceProfile) (r : Q)
    (rawSegments : list RawSegment) :
  speeds profile <> [] ->
  rampLimitPerChange profile = Some r ->
  0 <= r ->
  let allowed := sortSpeeds (speeds profile) in
  exists constrained,
    constrainedOf profile rawSegments = Return constrained /\
    Forall (fun s => In (speed s) (withinRamp allowed (speed s) r)) constrained /\
    (forall done segment rest,
        rawSegments = done ++ segment :: rest ->
        exists before baseSpeed,
          constrainedOf profile done = Return before /\
          constrainFrom allowed (Some r) before (segment :: rest) = Return constrained /\
          quantizeDown allowed (speed segment) = Return baseSpeed /\
          rampCase allowed (Some r) (lastOf before) baseSpeed <> Stall) /\
    Forall (withinLimit r) (adjacentPairs constrained).
Proof.
  intros Hne Hr Hpos allowed.
  pose proof (sortSpeeds_nonempty _ Hne) as Hs.
  destruct (constrainedOf_safe profile rawSegments Hne) as (constrained & Hc & Hall & _ & Hramp & _).
  exists constrained. split; [exact Hc|]. split; [|split].
  - unfold allAllowed in Hall. rewrite Forall_forall in Hall. apply Forall_forall.
    intros s Hin. apply (rampCase_no_stall allowed r s 0 Hpos), Hall, Hin.
  - intros done segment rest ->.
    destruct (constrainedOf_safe profile done Hne) as (before & Hb & Hball & _).
    destruct (quantizeDown_returns allowed (speed segment) Hs) as (baseSpeed & Hq & _).
    exists before, baseSpeed. split; [exact Hb|]. split; [|split; [exact Hq|]].
    { unfold constrainedOf in Hc, Hb. fold allowed in Hc, Hb. rewrite Hr in Hc, Hb.
      rewrite constrainFrom_app, Hb in Hc. exact Hc. }
    destruct (lastOf before) as [previous|] eqn:Hlast.
    + apply (rampCase_no_stall allowed r previous baseSpeed Hpos).
      unfold allAllowed in Hball. rewrite Forall_forall in Hball.
      apply Hball, lastOf_In, Hlast.
    + discriminate.
  - apply Hramp; assumption.
Qed.

(** C10, as stated, fails on a profile with an infinite speed, which the
    type [number] admits.  With the speeds 1, 2 and [Infinity] and a ramp
    limit of 0.5, a plan that asks for [Infinity] and then for 1 emits
    [Infinity] first; around it the candidate set is empty, the previous
    speed included, since [Infinity - Infinity] is [NaN] and no comparison
    with [NaN] holds.  The ramp check takes the branch that reuses the
    previous speed, and the pair it leaves is not within the limit. *)
Lemma stall_branch_reached_from_an_infinite_speed :
  Binary64.sortSpeeds Binary64.speedsToInfinity = Binary64.speedsToInfinity /\
  PrimFloat.leb 0 0.5 = true /\
  Binary64.quantizeDown Binary64.speedsToInfinity (Some PrimFloat.infinity)
  = Return PrimFloat.infinity /\
  Binary64.quantizeDown Binary64.speedsToInfinity (Some 1%float) = Return 1%float /\
  Binary64.withinRamp Binary64.speedsToInfinity PrimFloat.infinity 0.5 = [] /\
  Binary64.rampCase Binary64.speedsToInfinity (Some 0.5%float)
    (Some (mkSegment 60 PrimFloat.infinity None None)) 1 = Stall /\
  Binary64.constrainedOf Binary64.speedsToInfinity (Some 0.5%float)
    Binary64.downFromInfinity
  = Return [ mkSegment 60 PrimFloat.infinity None None;
             mkSegment 60 PrimFloat.infinity None (Some "(clamped)"%string) ] /\
  PrimFloat.leb (PrimFloat.abs (PrimFloat.sub PrimFloat.infinity PrimFloat.infinity)) 0.5
  = false.
Proof. repeat split; vm_compute; reflexivity. Qed.

(** ** The ramp check on finite binary64 numbers *)

Section OnBinary64.

#[local] Open Scope float_scope.

(** A finite number is at distance zero from itself. *)
Lemma finite_minus_itself (x : float) :
  Binary64.finite x -> Prim2SF (abs (x - x)) = S754_zero false.
Proof.
  unfold Binary64.finite. intros H. rewrite abs_spec, sub_spec.
  destruct (Prim2SF x) as [s| | |s m e]; try contradiction.
  - destruct s; reflexivity.
  - unfold SF64sub, SFsub, SFabs. cbv zeta. rewrite Z.sub_diag. reflexivity.
Qed.

Lemma finite_near_itself (x limit : float) :
  Binary64.finite x -> (0 <=? limit) = true -> (abs (x - x) <=? limit) = true.
Proof.
  intros Hx Hlimit. rewrite leb_spec in *. rewrite (finite_minus_itself x Hx).
  exact Hlimit.
Qed.

Lemma binary64_insertSpeed_In (x y : float) (sorted : list float) :
  In y (Binary64.insertSpeed x sorted) <-> y = x \/ In y sorted.
Proof.
  induction sorted as [|z rest IH]; simpl.
  - split; [intros [H | []]; left; symmetry; exact H | intros [H | []]; left; symmetry; exact H].
  - destruct (0 <? x - z); simpl; [rewrite IH|]; intuition congruence.
Qed.

Lemma binary64_sortSpeeds_In (speeds : list float) (y : float) :
  In y (Binary64.sortSpeeds speeds) <-> In y speeds.
Proof.
  unfold Binary64.sortSpeeds. induction speeds as [|x rest IH]; simpl; [tauto|].
  rewrite binary64_insertSpeed_In, IH. intuition congruence.
Qed.

Lemma binary64_scanDown_In (target : option float) (values : list float) :
  forall candidate,
    In (Binary64.scanDown target candidate values) (candidate :: values).
Proof.
  induction values as [|value rest IH]; intros candidate; simpl; [left; reflexivity|].
  destruct (Binary64.leTarget value target); [|left; reflexivity].
  right. apply IH.
Qed.

Lemma binary64_quantizeDown_In (allowed : list float) (target : option float) :
  allowed <> [] ->
  exists baseSpeed,
    Binary64.quantizeDown allowed target = Return baseSpeed /\ In baseSpeed allowed.
Proof.
  destruct allowed as [|first rest]; [congruence|]. intros _.
  eexists. split; [reflexivity|].
  destruct (binary64_scanDown_In target (first :: rest) first) as [H | H];
    [rewrite <- H; left; reflexivity | exact H].
Qed.

Lemma binary64_closest_In (baseSpeed : float) (candidates : list float) :
  forall first,
    In (Binary64.closest baseSpeed first candidates) (first :: candidates).
Proof.
  unfold Binary64.closest.
  assert (forall state,
             In (fst (fold_left (Binary64.closestStep baseSpeed) candidates state))
               (fst state :: candidates)) as Hfold.
  { induction candidates as [|c rest IH]; intros state; simpl; [left; reflexivity|].
    destruct (IH (Binary64.closestStep baseSpeed state c)) as [H | H].
    - rewrite <- H. unfold Binary64.closestStep.
      destruct (_ <? _); simpl; [right; left | left]; reflexivity.
    - right; right; exact H. }
  intros first. apply (Hfold (first, abs (first - baseSpeed))).
Qed.

(** With finite speeds and a limit that is not negative, the previous
    speed is a candidate, and the ramp check never runs out of candidates. *)
Lemma binary64_rampCase_no_stall (allowed : list float) (limit : float)
    (previous : SegmentOf float) (baseSpeed : float) :
  (0 <=? limit) = true ->
  Binary64.finite (speed previous) ->
  In (speed previous) allowed ->
  In (speed previous) (Binary64.withinRamp allowed (speed previous) limit) /\
  Binary64.rampCase allowed (Some limit) (Some previous) baseSpeed <> Stall.
Proof.
  intros Hlimit Hfinite Hin.
  assert (In (speed previous) (Binary64.withinRamp allowed (speed previous) limit)) as Hnear.
  { unfold Binary64.withinRamp. apply filter_In. split; [exact Hin|].
    apply finite_near_itself; assumption. }
  split; [exact Hnear|].
  unfold Binary64.rampCase. destruct (limit <? _); [|discriminate].
  destruct (Binary64.withinRamp allowed (speed previous) limit); [destruct Hnear | discriminate].
Qed.

Lemma binary64_limitRamp_In (allowed : list float) (limit : float)
    (prev : option (SegmentOf float)) (baseSpeed : float) (cue : option string) :
  In baseSpeed allowed ->
  (forall previous, prev = Some previous -> In (speed previous) allowed) ->
  In (fst (Binary64.limitRamp allowed (Some limit) prev baseSpeed cue)) allowed.
Proof.
  intros Hbase Hprev. unfold Binary64.limitRamp.
  destruct prev as [previous|]; [|exact Hbase].
  destruct (limit <? _); [|exact Hbase].
  destruct (Binary64.withinRamp allowed (speed previous) limit) as [|first rest] eqn:E.
  - destruct (negb _); [apply Hprev; reflexivity | exact Hbase].
  - destruct (negb _); [|exact Hbase]. cbn [fst].
    assert (In (Binary64.closest baseSpeed first (first :: rest))
              (Binary64.withinRamp allowed (speed previous) limit)) as Hc.
    { rewrite E. destruct (binary64_closest_In baseSpeed (first :: rest) first) as [H | H];
        [rewrite <- H; left; reflexivity | exact H]. }
    apply filter_In in Hc. apply Hc.
Qed.

Lemma binary64_constrainFrom_In (allowed : list float) (limit : float)
    (rawSegments : list (SegmentOf (option float))) :
  allowed <> [] ->
  forall constrained,
    Forall (fun s => In (speed s) allowed) constrained ->
    exists out,
      Binary64.constrainFrom allowed (Some limit) constrained rawSegments = Return out /\
      Forall (fun s => In (speed s) allowed) out.
Proof.
  intros Hne. induction rawSegments as [|segment rest IH]; intros constrained Hall; simpl.
  - exists constrained. split; [reflexivity | exact Hall].
  - unfold Binary64.constrainStep.
    destruct (binary64_quantizeDown_In allowed (speed segment) Hne) as (baseSpeed & -> & Hbase).
    cbv beta iota delta [bind]. apply IH.
    apply Forall_app. split; [exact Hall|]. constructor; [|constructor].
    unfold Binary64.constrainedSegment.
    pose proof (binary64_limitRamp_In allowed limit (lastOf constrained) baseSpeed
                  (cue segment) Hbase) as Hemitted.
    destruct (Binary64.limitRamp allowed (Some limit) (lastOf constrained) baseSpeed
                (cue segment)) as [speed' cue'].
    cbn [speed fst] in *. apply Hemitted.
    intros previous Hlast. rewrite Forall_forall in Hall. apply Hall, lastOf_In, Hlast.
Qed.

(** In the binary64 numbers of the host: for finite speeds and a ramp limit
    that is not negative, every speed the first loop of [applySafety] emits
    is a speed of the profile, and at no iteration does the ramp check find
    the candidate list empty. *)
Lemma binary64_no_stall_for_finite_speeds (speeds : list float) (limit : float)
    (rawSegments : list (SegmentOf (option float))) :
  speeds <> [] ->
  Forall Binary64.finite speeds ->
  (0 <=? limit) = true ->
  exists constrained,
    Binary64.constrainedOf speeds (Some limit) rawSegments = Return constrained /\
    Forall (fun s => In (speed s) speeds) constrained /\
    forall done segment rest,
      rawSegments = done ++ segment :: rest ->
      exists before baseSpeed,
        Binary64.constrainedOf speeds (Some limit) done = Return before /\
        Binary64.quantizeDown (Binary64.sortSpeeds speeds) (speed segment)
        = Return baseSpeed /\
        Binary64.rampCase (Binary64.sortSpeeds speeds) (Some limit) (lastOf before) baseSpeed
        <> Stall.
Proof.
  intros Hne Hfinite Hlimit.
  set (allowed := Binary64.sortSpeeds speeds).
  assert (allowed <> []) as Hallowed.
  { destruct speeds as [|x rest]; [congruence|].
    assert (In x allowed) as Hx by (apply binary64_sortSpeeds_In; left; reflexivity).
    intros Hnil. rewrite Hnil in Hx. destruct Hx. }
  destruct (binary64_constrainFrom_In allowed limit rawSegments Hallowed [] (Forall_nil _))
    as (constrained & Hcon & Hall).
  exists constrained. split; [exact Hcon|]. split.
  - apply (Forall_impl _ (P := fun s => In (speed s) allowed)); [|exact Hall].
    intros s Hs. apply binary64_sortSpeeds_In, Hs.
  - intros done segment rest ->.
    destruct (binary64_constrainFrom_In allowed limit done Hallowed [] (Forall_nil _))
      as (before & Hbefore & Hball).
    destruct (binary64_quantizeDown_In allowed (speed segment) Hallowed)
      as (baseSpeed & Hbase & _).
    exists before, baseSpeed. split; [exact Hbefore|]. split; [exact Hbase|].
    destruct (lastOf before) as [previous|] eqn:Hlast; [|discriminate].
    assert (In (speed previous) allowed) as Hin.
    { rewrite Forall_forall in Hball. apply Hball, lastOf_In, Hlast. }
    apply (binary64_rampCase_no_stall allowed limit previous baseSpeed Hlimit); [|exact Hin].
    rewrite Forall_forall in Hfinite. apply Hfinite, binary64_sortSpeeds_In, Hin.
Qed.

End OnBinary64.

(** ** The ladder of makeProgression *)

Lemma filter_ascending (f : Q -> bool) (l : list Q) :
  StronglySorted Qle l -> StronglySorted Qle (filter f l).
Proof.
  induction 1 as [|x rest Hrest IH Hall]; simpl; [constructor|].
  destruct (f x); [|exact IH].
  constructor; [exact IH|].
  rewrite Forall_forall in *. intros y Hy. apply filter_In in Hy. apply Hall, Hy.
Qed.

Lemma ascending_nth (l : list Q) :
  StronglySorted Qle l ->
  forall i j a b,
    (i <= j)%nat -> nth_error l i = Some a -> nth_error l j = Some b -> a <= b.
Proof.
  induction 1 as [|x rest Hrest IH Hall]; intros i j a b Hij Hi Hj.
  - destruct i; discriminate.
  - destruct i as [|i]; destruct j as [|j]; simpl in Hi, Hj.
    + injection Hi as <-. injection Hj as <-. apply Qle_refl.
    + injection Hi as <-. rewrite Forall_forall in Hall.
      apply Hall. apply nth_error_In with j. exact Hj.
    + lia.
    + apply (IH i j); [lia | assumption | assumption].
Qed.

(** Adjacent entries of a list indexed by [0, 1, 2, ...]. *)
Lemma adjacent_of_counted {A : Type} (entry : Z -> A) (P : A * A -> bool) (count : nat) :
  forall start,
    (forall i, (start <= i)%nat -> (S i < start + count)%nat ->
               P (entry (Z.of_nat i), entry (Z.of_nat (S i))) = true) ->
    forallb P (adjacentPairs (map entry (map Z.of_nat (seq start count)))) = true.
Proof.
  induction count as [|count IH]; intros start Hstep; [reflexivity|].
  destruct count as [|count]; [reflexivity|].
  change (forallb P
            ((entry (Z.of_nat start), entry (Z.of_nat (S start)))
               :: adjacentPairs (map entry (map Z.of_nat (seq (S start) (S count))))) = true).
  simpl forallb. rewrite Hstep by lia. simpl.
  apply IH. intros i Hi Hlt. apply Hstep; lia.
Qed.

Lemma Qfloor_half (z : Z) : Qfloor (inject_Z z + (1 # 2)) = z.
Proof.
  assert (inject_Z z <= inject_Z z + (1 # 2)) as Hlow by lra.
  apply Qfloor_resp_le in Hlow. rewrite Qfloor_Z in Hlow.
  pose proof (Qfloor_le (inject_Z z + (1 # 2))) as Hhigh.
  assert (inject_Z (Qfloor (inject_Z z + (1 # 2))) < inject_Z (z + 1)) as Hlt.
  { rewrite inject_Z_plus. change (inject_Z 1) with 1.
    set (floor := inject_Z (Qfloor (inject_Z z + (1 # 2)))) in *. lra. }
  rewrite <- Zlt_Qlt in Hlt. lia.
Qed.

(** The sampled index stays within the usable speeds and does not decrease,
    when the step count is a whole number above one. *)
Lemma ladderIndex_bounds (steps : Z) (usableCount : nat) (i : Z) :
  (2 <= steps)%Z -> (1 <= usableCount)%nat -> (0 <= i <= steps - 1)%Z ->
  (0 <= ladderIndex (inject_Z steps) usableCount i <= Z.of_nat usableCount - 1)%Z.
Proof.
  intros Hsteps Hcount Hi. unfold ladderIndex.
  assert (Qeq_bool (inject_Z steps) 1 = false) as ->.
  { apply Qeq_bool_false. intros H.
    apply (proj1 (inject_Z_injective steps 1)) in H. lia. }
  set (lastIndex := inject_Z (Z.of_nat usableCount - 1)).
  assert (0 <= lastIndex) as Hlast.
  { unfold lastIndex. change 0 with (inject_Z 0). rewrite <- Zle_Qle. lia. }
  assert (0 < inject_Z steps - 1) as Hd.
  { assert (inject_Z 2 <= inject_Z steps) as H2 by (rewrite <- Zle_Qle; lia).
    change (inject_Z 2) with 2 in H2. lra. }
  assert (0 <= inject_Z i / (inject_Z steps - 1) <= 1) as [Hlo Hhi].
  { split.
    - apply Qle_shift_div_l; [exact Hd|]. rewrite Qmult_0_l.
      change 0 with (inject_Z 0). rewrite <- Zle_Qle. lia.
    - apply Qle_shift_div_r; [exact Hd|]. rewrite Qmult_1_l.
      assert (inject_Z i <= inject_Z (steps + - 1)) as H1 by (rewrite <- Zle_Qle; lia).
      rewrite inject_Z_plus in H1. change (inject_Z (- 1)) with (- (1)) in H1. lra. }
  set (ratio := inject_Z i / (inject_Z steps - 1)) in *.
  split.
  - assert (0 <= ratio * lastIndex + (1 # 2)) as H.
    { pose proof (Qmult_le_0_compat _ _ Hlo Hlast). lra. }
    apply Qfloor_resp_le in H. exact H.
  - assert (ratio * lastIndex + (1 # 2) <= lastIndex + (1 # 2)) as H.
    { assert (ratio * lastIndex <= 1 * lastIndex)
        by (apply Qmult_le_compat_r; assumption).
      lra. }
    apply Qfloor_resp_le in H. unfold lastIndex in H at 2. rewrite Qfloor_half in H. exact H.
Qed.

Lemma ladderIndex_monotone (steps : Z) (usableCount : nat) (i j : Z) :
  (2 <= steps)%Z -> (1 <= usableCount)%nat -> (0 <= i <= j)%Z ->
  (ladderIndex (inject_Z steps) usableCount i <= ladderIndex (inject_Z steps) usableCount j)%Z.
Proof.
  intros Hsteps Hcount Hij. unfold ladderIndex.
  destruct (Qeq_bool (inject_Z steps) 1); [lia|].
  apply Qfloor_resp_le.
  set (lastIndex := inject_Z (Z.of_nat usableCount - 1)).
  assert (0 <= lastIndex) as Hlast.
  { unfold lastIndex. change 0 with (inject_Z 0). rewrite <- Zle_Qle. lia. }
  assert (0 < inject_Z steps - 1) as Hd.
  { assert (inject_Z 2 <= inject_Z steps) as H2 by (rewrite <- Zle_Qle; lia).
    change (inject_Z 2) with 2 in H2. lra. }
  assert (inject_Z i / (inject_Z steps - 1) <= inject_Z j / (inject_Z steps - 1)) as Hratio.
  { unfold Qdiv. apply Qmult_le_compat_r; [rewrite <- Zle_Qle; lia|].
    apply Qlt_le_weak, Qinv_lt_0_compat, Hd. }
  assert (inject_Z i / (inject_Z steps - 1) * lastIndex
          <= inject_Z j / (inject_Z steps - 1) * lastIndex)
    by (apply Qmult_le_compat_r; assumption).
  lra.
Qed.

Lemma ladderIndex_comp (stepCount stepCount' : Q) (usableCount : nat) (i : Z) :
  stepCount == stepCount' ->
  ladderIndex stepCount usableCount i = ladderIndex stepCount' usableCount i.
Proof.
  intros H. unfold ladderIndex.
  assert (Qeq_bool stepCount 1 = Qeq_bool stepCount' 1) as ->.
  { destruct (Qeq_bool stepCount' 1) eqn:E.
    - apply Qeq_bool_iff. apply Qeq_bool_iff in E. rewrite H. exact E.
    - apply Qeq_bool_false. apply Qeq_bool_false in E. rewrite H. exact E. }
  destruct (Qeq_bool stepCount' 1); [reflexivity|].
  apply Qfloor_comp. rewrite H. reflexivity.
Qed.

(** Two successive entries of the ladder, for a whole step count. *)
Lemma ladderEntry_step (steps : Z) (warm : Q) (usableSpeeds : list Q) (i : nat) :
  StronglySorted Qle usableSpeeds ->
  (Z.of_nat (S i) < steps)%Z ->
  leEntry (ladderEntry (inject_Z steps) warm usableSpeeds (Z.of_nat i))
          (ladderEntry (inject_Z steps) warm usableSpeeds (Z.of_nat (S i))) = true.
Proof.
  intros Hsorted Hi. unfold ladderEntry.
  destruct usableSpeeds as [|u us]; [apply Qle_bool_iff, Qle_refl|].
  set (usable := u :: us) in *.
  assert (1 <= List.length usable)%nat as Hcount by (simpl; lia).
  pose proof (ladderIndex_bounds steps (List.length usable) (Z.of_nat i)) as Hlow.
  pose proof (ladderIndex_bounds steps (List.length usable) (Z.of_nat (S i))) as Hhigh.
  pose proof (ladderIndex_monotone steps (List.length usable) (Z.of_nat i) (Z.of_nat (S i)))
    as Hmono.
  set (low := ladderIndex (inject_Z steps) (List.length usable) (Z.of_nat i)) in *.
  set (high := ladderIndex (inject_Z steps) (List.length usable) (Z.of_nat (S i))) in *.
  assert (0 <= low <= Z.of_nat (List.length usable) - 1)%Z as [Hl0 Hl1] by (apply Hlow; lia).
  assert (0 <= high <= Z.of_nat (List.length usable) - 1)%Z as [Hh0 Hh1] by (apply Hhigh; lia).
  assert (low <= high)%Z as Hle by (apply Hmono; lia).
  unfold at_index.
  rewrite (proj2 (Z.ltb_ge low 0) Hl0), (proj2 (Z.ltb_ge high 0) Hh0).
  destruct (nth_error usable (Z.to_nat low)) as [a|] eqn:Ea;
    [|apply nth_error_None in Ea; lia].
  destruct (nth_error usable (Z.to_nat high)) as [b|] eqn:Eb;
    [|apply nth_error_None in Eb; lia].
  simpl. apply Qle_bool_iff.
  apply (ascending_nth usable Hsorted (Z.to_nat low) (Z.to_nat high) a b); [lia | exact Ea | exact Eb].
Qed.

(** Every entry of the ladder is a number, for a whole step count. *)
Lemma ladderEntry_defined (steps : Z) (warm : Q) (usableSpeeds : list Q) (i : Z) :
  (0 <= i <= steps - 1)%Z ->
  ladderEntry (inject_Z steps) warm usableSpeeds i <> None.
Proof.
  intros Hi. unfold ladderEntry.
  destruct usableSpeeds as [|u us]; [discriminate|].
  set (usable := u :: us).
  assert (1 <= List.length usable)%nat as Hcount by (simpl; lia).
  assert (0 <= ladderIndex (inject_Z steps) (List.length usable) i
          <= Z.of_nat (List.length usable) - 1)%Z as [Hlow Hhigh].
  { destruct (Z.eq_dec steps 1) as [-> | Hsteps].
    - unfold ladderIndex. change (Qeq_bool (inject_Z 1) 1) with true. cbv iota. lia.
    - apply ladderIndex_bounds; lia. }
  unfold at_index. rewrite (proj2 (Z.ltb_ge _ 0) Hlow).
  apply nth_error_Some. lia.
Qed.

(** For a whole step count the ladder of [makeProgression] is
    non-decreasing, and every entry is a number. *)
Lemma progressionLadder_non_decreasing (profile : DeviceProfile)
    (opts : ProgressionOpts.t) :
  speeds profile <> [] ->
  wholeNumber (stepCount opts) ->
  exists warm ladder,
    progressionLadder profile opts = Return (warm, ladder) /\
    Forall (fun entry => entry <> None) ladder /\
    nonDecreasing ladder = true.
Proof.
  intros Hne Hwhole.
  pose proof (sortSpeeds_nonempty _ Hne) as Hs.
  unfold progressionLadder, warmSpeed. cbv zeta.
  quantized Hs. quantized Hs.
  eexists; eexists. split; [reflexivity|].
  set (usable := filter _ _).
  assert (StronglySorted Qle usable) as Hsorted
      by (apply filter_ascending, ascending_strongly, sortSpeeds_ascending).
  unfold wholeNumber in Hwhole.
  set (steps := Qfloor (stepCount opts)) in *.
  unfold nonDecreasing, countUp.
  assert (Qceiling (stepCount opts) = steps) as ->.
  { rewrite <- (Qceiling_Z steps). apply Qceiling_comp. symmetry. exact Hwhole. }
  split.
  - apply Forall_forall. intros entry Hentry.
    apply in_map_iff in Hentry. destruct Hentry as (i & <- & Hi).
    apply in_map_iff in Hi. destruct Hi as (n & <- & Hn). apply in_seq in Hn.
    unfold ladderEntry.
    rewrite (ladderIndex_comp (stepCount opts) (inject_Z steps)) by (symmetry; exact Hwhole).
    apply (ladderEntry_defined steps q usable (Z.of_nat n)). lia.
  - apply adjacent_of_counted. intros i _ Hi. simpl fst. simpl snd.
    unfold ladderEntry.
    rewrite !(ladderIndex_comp (stepCount opts) (inject_Z steps)) by (symmetry; exact Hwhole).
    apply (ladderEntry_step steps q usable i Hsorted). lia.
Qed.

Section ProgressionSteps.

Context {toText : NumberToString}.

Variable profile : DeviceProfile.

(** The loop over the ladder pushes one step per entry, in order, at the
    speed of the entry. *)
Lemma pushStep_steps (count base : Q) (ladder : list (option Q)) :
  forall segments remainder index,
    exists steps,
      fst (fst (fold_left (pushStep profile count base) ladder
                  (segments, remainder, index))) = segments ++ steps /\
      map speed steps = ladder /\
      Forall (fun s => isStep s = true) steps.
Proof.
  induction ladder as [|entry rest IH]; intros segments remainder index.
  - exists []. rewrite app_nil_r. repeat split. constructor.
  - cbn [fold_left pushStep].
    match goal with
    | |- context [fold_left _ rest (segments ++ [?pushed], ?r, ?i)] =>
        destruct (IH (segments ++ [pushed]) r i) as (steps & Hsteps & Hspeeds & Hcues);
        exists (pushed :: steps)
    end.
    split; [etransitivity; [exact Hsteps | rewrite <- app_assoc; reflexivity]|].
    split; [cbn [map speed]; rewrite Hspeeds; reflexivity|].
    constructor; [reflexivity | exact Hcues].
Qed.

(** The raw plan of [makeProgression]: the warm-up, one step per entry of
    the ladder, the cool-down. *)
Lemma progressionPlan_steps (opts : ProgressionOpts.t) (warm : Q)
    (ladder : list (option Q)) :
  progressionLadder profile opts = Return (warm, ladder) ->
  exists first steps last,
    progressionPlan profile opts = Return (first :: steps ++ [last]) /\
    map speed steps = ladder /\
    Forall (fun s => isStep s = true) steps /\
    isStep first = false /\ isStep last = false /\
    makeProgression profile opts
    = finalizeWorkout profile
        (Some (orDefault "Progression"%string (ProgressionOpts.name opts)))
        (first :: steps ++ [last]).
Proof.
  intros Hladder.
  unfold makeProgression, progressionPlan. rewrite Hladder.
  cbv beta iota delta [bind]. cbv zeta.
  match goal with |- context [fold_left ?f ?l ?a] =>
    match a with (?segments, _, _) =>
      assert (exists steps,
                 fst (fst (fold_left f l a)) = segments ++ steps /\
                 map speed steps = ladder /\
                 Forall (fun s => isStep s = true) steps)
        as (steps & Hsteps & Hspeeds & Hcues) by apply pushStep_steps
    end;
    destruct (fold_left f l a) as [[pushed remainder] index]
  end.
  cbn [fst] in Hsteps. subst pushed.
  eexists; exists steps; eexists.
  split; [reflexivity|]. split; [exact Hspeeds|]. split; [exact Hcues|].
  split; [reflexivity|]. split; reflexivity.
Qed.

End ProgressionSteps.

(** C8, amended.  For a profile with speeds and options whose step count
    [max(1, steps)] is a whole number (as it is when [steps] is omitted or
    an integer), the ladder [makeProgression] builds is non-decreasing:
    every entry is a number and [ladder[i] <= ladder[i + 1]] for every
    [i].  The raw plan [makeProgression] hands to [finalizeWorkout] is the
    warm-up, the steps and the cool-down, and the steps carry the speeds of
    the ladder in order: ascending or equal. *)
Theorem ladder_non_decreasing_for_whole_steps {toText : NumberToString}
    (profile : DeviceProfile) (opts : ProgressionOpts.t) :
  speeds profile <> [] ->
  wholeNumber (stepCount opts) ->
  exists warm ladder first steps last,
    progressionLadder profile opts = Return (warm, ladder) /\
    Forall (fun entry => entry <> None) ladder /\
    nonDecreasing ladder = true /\
    progressionPlan profile opts = Return (first :: steps ++ [last]) /\
    makeProgression profile opts
    = finalizeWorkout profile
        (Some (orDefault "Progression"%string (ProgressionOpts.name opts)))
        (first :: steps ++ [last]) /\
    isStep first = false /\ isStep last = false /\
    Forall (fun s => isStep s = true) steps /\
    map speed steps = ladder /\
    nonDecreasing (map speed steps) = true.
Proof.
  intros Hne Hwhole.
  destruct (progressionLadder_non_decreasing profile opts Hne Hwhole)
    as (warm & ladder & Hladder & Hdefined & Hsorted).
  destruct (progressionPlan_steps profile opts warm ladder Hladder)
    as (first & steps & last & Hplan & Hspeeds & Hcues & Hfirst & Hlast & Hmake).
  exists warm, ladder, first, steps, last.
  split; [exact Hladder|]. split; [exact Hdefined|]. split; [exact Hsorted|].
  split; [exact Hplan|]. split; [exact Hmake|].
  split; [exact Hfirst|]. split; [exact Hlast|]. split; [exact Hcues|].
  split; [exact Hspeeds | rewrite Hspeeds; exact Hsorted].
Qed.

(** C8, as stated, fails when the step count is not a whole number: with
    two and a half steps the loop runs three times, and the third index
    falls outside the usable speeds.  The ladder ends in [undefined], so
    does the speed of the third step of the raw plan, and the third step of
    the finished workout drops to the lowest speed. *)
Lemma ladder_of_fractional_steps :
  progressionLadder fourSpeeds fractionalSteps = Return (2, [Some 2; Some 3; None]) /\
  nonDecreasing [Some 2; Some 3; None] = false /\
  (exists plan,
      progressionPlan fourSpeeds fractionalSteps = Return plan /\
      map speed (filter isStep plan) = [Some 2; Some 3; None]) /\
  exists w,
    makeProgression fourSpeeds fractionalSteps = Return w /\
    map speed (Workout.segments w) = [2; 2; 3; 1; 2].
Proof.
  split; [vm_compute; reflexivity|]. split; [vm_compute; reflexivity|].
  split; eexists; (split; [vm_compute; reflexivity | vm_compute; reflexivity]).
Qed.

(** ** Segments the merge pass leaves as they are *)

Lemma quantizeDown_member (allowed : list Q) (v : Q) :
  ascending allowed -> In v allowed ->
  exists q, quantizeDown allowed (Some v) = Return q /\ q == v /\ In q allowed.
Proof.
  intros Hs Hv. destruct allowed as [|first rest]; [destruct Hv|].
  destruct (quantizeDown_floor first rest v Hs) as (q & Hq & Hin & Hfloor & _).
  exists q. split; [exact Hq|]. split; [|exact Hin].
  destruct (Hfloor (ascending_head_least _ _ Hs v Hv)) as (_ & Hle & Hmax).
  apply Qle_antisym; [exact Hle | apply Hmax; [exact Hv | apply Qle_refl]].
Qed.




(** The first loop keeps the durations and, but for its mark, the cues. *)
Lemma limitRamp_cue (allowed : list Q) (rampLimit : option Q) (prev : option Segment)
    (baseSpeed : Q) (cue : option string) :
  snd (limitRamp allowed rampLimit prev baseSpeed cue) = cue \/
  snd (limitRamp allowed rampLimit prev baseSpeed cue) = clampedCue cue.
Proof.
  unfold limitRamp.
  destruct prev as [previous|]; [|left; reflexivity].
  destruct rampLimit as [limit|]; [|left; reflexivity].
  destruct (Qlt_bool _ _); [|left; reflexivity].
  destruct (withinRamp _ _ _); destruct (negb _); simpl; auto.
Qed.

Lemma mergeFrom_of_long (minSec : Q) (constrained : list Segment) :
  Forall (fun s => minSec <= secs s) constrained ->
  forall merged,
    Forall (fun s => minSec <= secs s) merged ->
    mergeFrom minSec merged constrained = merged ++ constrained.
Proof.
  unfold mergeFrom.
  induction 1 as [|segment rest Hseg Hrest IH]; intros merged Hm; simpl.
  - rewrite app_nil_r. reflexivity.
  - assert (mergeStep minSec merged segment = merged ++ [segment]) as ->.
    { unfold mergeStep.
      match goal with
      | |- context [@lastOf ?A ?m] => destruct (@lastOf A m) as [previous|] eqn:Hlast
      end; [|reflexivity].
      assert (minSec <= secs previous) as Hp.
      { rewrite Forall_forall in Hm. apply Hm, lastOf_In, Hlast. }
      unfold mergeable. apply Qlt_bool_false in Hp. apply Qlt_bool_false in Hseg.
      rewrite Hp, Hseg, andb_false_r. reflexivity. }
    rewrite IH; [rewrite <- app_assoc; reflexivity|].
    apply Forall_app. split; [exact Hm | constructor; [exact Hseg | constructor]].
Qed.




(** ** Strides the merge pass joins with a neighbour *)





Section MergedStrides.

Variable minSec : Q.








End MergedStrides.




(** ** Scenario D *)


Lemma quantizeDown_monotone (allowed : list Q) (t1 t2 q1 q2 : Q) :
  ascending allowed ->
  t1 <= t2 ->
  quantizeDown allowed (Some t1) = Return q1 ->
  quantizeDown allowed (Some t2) = Return q2 ->
  q1 <= q2.
Proof.
  intros Hs Ht H1 H2. destruct allowed as [|first rest]; [discriminate|].
  pose proof (ascending_head_least _ _ Hs) as Hleast.
  destruct (quantizeDown_floor first rest t1 Hs) as (q1' & Hq1 & Hin1 & Hfloor1 & Hmin1).
  destruct (quantizeDown_floor first rest t2 Hs) as (q2' & Hq2 & Hin2 & Hfloor2 & Hmin2).
  rewrite H1 in Hq1. injection Hq1 as <-. rewrite H2 in Hq2. injection Hq2 as <-.
  destruct (Qlt_le_dec t1 first) as [Hlow | Hhigh].
  - rewrite (Hmin1 Hlow). apply Hleast, Hin2.
  - destruct (Hfloor1 Hhigh) as (_ & Hle1 & _).
    destruct (Hfloor2 (Qle_trans _ _ _ Hhigh Ht)) as (_ & _ & Hmax2).
    apply Hmax2; [exact Hin1 | apply Qle_trans with t1; assumption].
Qed.


Section ScenarioD.

Context {toText : NumberToString}.

Variable profile : DeviceProfile.
Hypothesis three_speeds : (3 <= List.length (speeds profile))%nat.




End ScenarioD.


(** ** The properties at work on the profile of the test suite *)

(** C1 on the test profile. *)
Lemma builders_emit_allowed_speeds_on_testProfile :
  speeds testProfile <> [] /\
  everyBuilder testProfile
    (fun w => forall s, In s (Workout.segments w) -> In (speed s) (speeds testProfile)).
Proof.
  split; [discriminate|].
  apply (proj1 (builders_emit_allowed_speeds testProfile ltac:(discriminate))).
Defined.

(** C2 on the test profile, whose ramp limit is 1. *)
Lemma builders_respect_ramp_on_testProfile :
  rampLimitPerChange testProfile = Some 1 /\
  everyBuilder testProfile
    (fun w => Forall (withinLimitOrStall 1) (adjacentPairs (Workout.segments w))).
Proof.
  split; [reflexivity|].
  apply (builders_respect_ramp_or_stall testProfile 1); [discriminate | reflexivity].
Defined.

(** C3 on the first case of the test suite: the target 2.2 among 1, 1.5,
    2, 2.5. *)
Lemma quantizeDown_largest_at_2_2 :
  exists q,
    quantizeDown [1; 1.5; 2; 2.5] (Some 2.2) = Return q /\
    largestBelow [1; 1.5; 2; 2.5] 2.2 q.
Proof.
  destruct (quantizeDown_largest_or_min [1; 1.5; 2; 2.5] 2.2) as (q & Hq & _ & _ & Hfloor & _).
  - discriminate.
  - repeat constructor; discriminate.
  - exists q. split; [exact Hq|]. apply Hfloor. discriminate.
Defined.

(** C4 on the test profile, whose minimum segment duration is 30. *)
Lemma builders_leave_no_short_pair_on_testProfile :
  minSegmentSec testProfile = Some 30 /\
  everyBuilder testProfile
    (fun w => Forall (fun pair => ~ bothShort 30 pair) (adjacentPairs (Workout.segments w))).
Proof.
  split; [reflexivity|].
  apply (builders_leave_no_short_pair testProfile 30); [discriminate | reflexivity].
Defined.

(** C5 on the test profile. *)
Lemma builders_total_is_sum_on_testProfile :
  speeds testProfile <> [] /\
  everyBuilder testProfile
    (fun w => Workout.totalSecs w = sumSecs (Workout.segments w) /\
              Workout.totalSecs w == total (map secs (Workout.segments w))).
Proof.
  split; [discriminate|].
  apply (builders_total_is_sum testProfile). discriminate.
Defined.

(** C6 on a profile without speeds. *)
Lemma builders_throw_without_speeds :
  makeSteady (mkDeviceProfile "No speeds" kph [] None None None) SteadyOpts.empty
  = Throw EmptyDomain.
Proof.
  apply (builders_throw_on_empty_speeds (mkDeviceProfile "No speeds" kph [] None None None)).
  reflexivity.
Defined.


(** C8, amended, on scenario E: five steps on the test profile. *)
Lemma ladder_of_five_steps :
  wholeNumber (stepCount (ProgressionOpts.make None (Some 30) (Some 5) (Some 0.85))) /\
  exists warm ladder first steps last,
    progressionLadder testProfile (ProgressionOpts.make None (Some 30) (Some 5) (Some 0.85))
    = Return (warm, ladder) /\
    nonDecreasing ladder = true /\
    progressionPlan testProfile (ProgressionOpts.make None (Some 30) (Some 5) (Some 0.85))
    = Return (first :: steps ++ [last]) /\
    List.length steps = 5%nat /\
    map speed steps = ladder /\
    nonDecreasing (map speed steps) = true.
Proof.
  split; [reflexivity|].
  destruct (ladder_non_decreasing_for_whole_steps testProfile
              (ProgressionOpts.make None (Some 30) (Some 5) (Some 0.85)))
    as (warm & ladder & first & steps & last
        & Hladder & _ & Hsorted & Hplan & _ & _ & _ & _ & Hspeeds & Hsteps);
    [discriminate | reflexivity |].
  exists warm, ladder, first, steps, last.
  split; [exact Hladder|]. split; [exact Hsorted|]. split; [exact Hplan|].
  split; [|split; [exact Hspeeds | exact Hsteps]].
  pose proof (f_equal (@List.length _) Hspeeds) as Hlength.
  rewrite length_map in Hlength.
  etransitivity; [exact Hlength|].
  vm_compute in Hladder. injection Hladder as _ <-. reflexivity.
Defined.

(** C9 on the third case of the test suite: 1 among 0.8, 1, 1.2. *)
Lemma quantizeDown_keeps_1 :
  exists q, quantizeDown [0.8; 1; 1.2] (Some 1) = Return q /\ q == 1.
Proof.
  destruct (quantizeDown_idempotent_monotone [0.8; 1; 1.2]) as [Hidem _].
  - discriminate.
  - repeat constructor; discriminate.
  - apply Hidem. right; left; reflexivity.
Defined.

(** C10 on the test profile and a plan that jumps from 1 to 3. *)
Lemma no_stall_on_testProfile :
  0 <= 1 /\
  exists constrained,
    constrainedOf testProfile
      [mkSegment 60 (Some 1) None None; mkSegment 60 (Some 3) None None]
    = Return constrained /\
    Forall (withinLimit 1) (adjacentPairs constrained).
Proof.
  split; [discriminate|].
  destruct (stall_branch_unreachable testProfile 1
              [mkSegment 60 (Some 1) None None; mkSegment 60 (Some 3) None None])
    as (constrained & Hc & _ & _ & Hpairs).
  - discriminate.
  - reflexivity.
  - discriminate.
  - exists constrained. split; assumption.
Defined.

(** ** Numbers the host holds exactly *)

Lemma binary64At_sound (e : Z) (q : Q) : binary64At e q = true -> binary64 q.
Proof.
  unfold binary64At. cbv zeta. intros H.
  apply andb_prop in H. destruct H as [H He2].
  apply andb_prop in H. destruct H as [H He1].
  apply andb_prop in H. destruct H as [Hden Hnum].
  apply Z.eqb_eq in Hden. apply Z.ltb_lt in Hnum.
  apply Z.leb_le in He1, He2.
  exists (Qnum (Qred (q * 2 ^ (- e)))), e.
  split; [exact Hnum|]. split; [split; assumption|].
  assert (inject_Z (Qnum (Qred (q * 2 ^ (- e)))) == q * 2 ^ (- e)) as Hscaled.
  { rewrite <- (Qred_correct (q * 2 ^ (- e))) at 2.
    destruct (Qred (q * 2 ^ (- e))) as [n d]. cbn [Qnum Qden] in *.
    injection Hden as ->. reflexivity. }
  rewrite Hscaled, <- Qmult_assoc, <- Qpower_plus by discriminate.
  rewrite Z.add_opp_diag_l. change (2 ^ 0) with 1. ring.
Qed.

Lemma exactDifferencesAt_sound (e : Z) (numbers : list Q) :
  exactDifferencesAt e numbers = true -> exactDifferences numbers.
Proof.
  unfold exactDifferencesAt. intros H. apply andb_prop in H. destruct H as [Hall Hpairs].
  rewrite forallb_forall in Hall, Hpairs.
  split.
  - apply Forall_forall. intros x Hx. apply (binary64At_sound e), Hall, Hx.
  - intros a b Ha Hb. apply (binary64At_sound e).
    specialize (Hpairs a Ha). rewrite forallb_forall in Hpairs. apply Hpairs, Hb.
Qed.

(** * Further properties of the generator *)

(** ** clamp, sortSpeeds, mergeCue, quantizeDown *)

(** X1.  With [lo <= hi], [clamp] lands between the two bounds, and leaves
    a number that already lies between them as it is. *)
Theorem clamp_between (n lo hi : Q) :
  lo <= hi ->
  lo <= clamp n lo hi <= hi /\ (lo <= n <= hi -> clamp n lo hi == n).
Proof.
  intros Hbounds. unfold clamp, Math_max, Math_min. split; [split|].
  - apply Q.le_max_l.
  - apply Q.max_lub; [exact Hbounds | apply Q.le_min_l].
  - intros [Hlo Hhi]. rewrite (Q.min_r hi n Hhi). apply Q.max_r, Hlo.
Qed.

(** X1 on the warm-up target of the speeds 1 to 3. *)
Lemma clamp_between_1_and_3 :
  1 <= clamp (1 + (3 - 1) * 0.35) 1 3 <= 3 /\
  (1 <= 1 + (3 - 1) * 0.35 <= 3 -> clamp (1 + (3 - 1) * 0.35) 1 3 == 1 + (3 - 1) * 0.35).
Proof.
  apply (clamp_between (1 + (3 - 1) * 0.35) 1 3). discriminate.
Defined.

(** X2.  [sortSpeeds] returns the speeds it was given, each as often as
    given, in ascending order. *)
Theorem sortSpeeds_sorts (speeds : list Q) :
  ascending (sortSpeeds speeds) /\ Permutation speeds (sortSpeeds speeds).
Proof.
  split; [apply sortSpeeds_ascending | apply sortSpeeds_perm].
Qed.

Lemma insertSpeed_front (x : Q) (sorted : list Q) :
  ascending (x :: sorted) -> insertSpeed x sorted = x :: sorted.
Proof.
  intros Hs. destruct sorted as [|y rest]; [reflexivity|]. simpl.
  assert (x <= y) as Hxy by (apply (ascending_head_least _ _ Hs); right; left; reflexivity).
  apply Qle_bool_iff in Hxy. rewrite Hxy. reflexivity.
Qed.

Lemma sortSpeeds_fixed (speeds : list Q) : ascending speeds -> sortSpeeds speeds = speeds.
Proof.
  intros Hs. induction speeds as [|x rest IH]; [reflexivity|]. simpl.
  rewrite IH; [apply insertSpeed_front, Hs|].
  unfold ascending in *. inversion Hs; assumption.
Qed.

(** X3.  A list that is already in ascending order comes out of
    [sortSpeeds] unchanged, so sorting twice is sorting once. *)
Theorem sortSpeeds_of_ascending (speeds : list Q) :
  ascending speeds ->
  sortSpeeds speeds = speeds /\ sortSpeeds (sortSpeeds speeds) = sortSpeeds speeds.
Proof.
  intros Hs. rewrite !(sortSpeeds_fixed speeds Hs). split; reflexivity.
Qed.

(** X3 on the speeds of the test profile. *)
Lemma sortSpeeds_of_test_speeds :
  sortSpeeds (speeds testProfile) = speeds testProfile /\
  sortSpeeds (sortSpeeds (speeds testProfile)) = sortSpeeds (speeds testProfile).
Proof.
  apply (sortSpeeds_of_ascending (speeds testProfile)).
  repeat constructor; discriminate.
Defined.

Lemma prefix_append (p rest : string) : String.prefix p (p +++ rest) = true.
Proof.
  induction p as [|c p IH]; simpl; [destruct rest; reflexivity|].
  destruct (Ascii.ascii_dec c c) as [_ | Hne]; [exact IH | contradiction].
Qed.

Lemma prefix_self (p : string) : String.prefix p p = true.
Proof.
  induction p as [|c p IH]; simpl; [reflexivity|].
  destruct (Ascii.ascii_dec c c) as [_ | Hne]; [exact IH | contradiction].
Qed.

(** X4.  [mergeCue] never loses the earlier cue: when it is defined the
    result is defined and starts with it; when it is not, the result is the
    later cue; and a cue merged with itself stays as it is. *)
Theorem mergeCue_keeps_previous (next : option string) :
  (forall p, exists r, mergeCue (Some p) next = Some r /\ String.prefix p r = true) /\
  mergeCue None next = next /\
  mergeCue next next = next.
Proof.
  split; [|split].
  - intros p. unfold mergeCue. destruct next as [n|].
    + destruct (truthy (Some p) && truthy (Some n) && negb (p =? n)%string).
      * eexists. split; [reflexivity | apply prefix_append].
      * exists p. split; [reflexivity | apply prefix_self].
    + exists p. split; [reflexivity | apply prefix_self].
  - reflexivity.
  - destruct next as [n|]; [|reflexivity]. unfold mergeCue.
    rewrite String.eqb_refl, andb_false_r. reflexivity.
Qed.

(** X5.  [quantizeDown] throws on the empty list and only there; on a list
    with a first element, sorted or not, it returns a member of the list,
    and that member is the first element when the target is [undefined] or
    below the first element. *)
Theorem quantizeDown_throws_only_on_empty (target : option Q) :
  quantizeDown [] target = Throw EmptyDomain /\
  forall first rest,
    exists q,
      quantizeDown (first :: rest) target = Return q /\
      In q (first :: rest) /\
      (target = None -> q = first) /\
      (forall t, target = Some t -> t < first -> q = first).
Proof.
  split; [reflexivity|]. intros first rest.
  destruct (quantizeDown_returns (first :: rest) target) as (q & Hq & Hin); [discriminate|].
  exists q. split; [exact Hq|]. split; [exact Hin|].
  simpl in Hq. injection Hq as <-. split.
  - intros ->. reflexivity.
  - intros t -> Hlt. simpl. apply Qle_bool_false in Hlt. rewrite Hlt. reflexivity.
Qed.

(** ** The ramp limiter, case by case *)

(** The search keeps the difference of its best candidate, and no candidate
    seen so far is nearer. *)
Lemma closest_fold_nearest (baseSpeed : Q) (candidates : list Q) :
  forall state seen,
    snd state = Qabs (fst state - baseSpeed) ->
    (forall c, In c seen -> snd state <= Qabs (c - baseSpeed)) ->
    let final := fold_left (closestStep baseSpeed) candidates state in
    snd final = Qabs (fst final - baseSpeed) /\
    forall c, In c (seen ++ candidates) -> snd final <= Qabs (c - baseSpeed).
Proof.
  induction candidates as [|x rest IH]; intros state seen Hdiff Hseen; simpl.
  - split; [exact Hdiff|]. rewrite app_nil_r. exact Hseen.
  - destruct (IH (closestStep baseSpeed state x) (seen ++ [x])) as [H1 H2].
    + unfold closestStep. destruct (Qlt_bool _ _); [reflexivity | exact Hdiff].
    + intros c Hc. apply in_app_or in Hc. unfold closestStep.
      destruct (Qlt_bool (Qabs (x - baseSpeed)) (snd state)) eqn:E; simpl.
      * apply Qlt_bool_iff in E. destruct Hc as [Hc | [<- | []]].
        -- apply Qle_trans with (snd state); [apply Qlt_le_weak, E | apply Hseen, Hc].
        -- apply Qle_refl.
      * apply Qlt_bool_false in E. destruct Hc as [Hc | [<- | []]];
          [apply Hseen, Hc | exact E].
    + split; [exact H1|]. intros c Hc. apply H2. rewrite <- app_assoc. exact Hc.
Qed.

Lemma closest_nearest (baseSpeed first : Q) (rest : list Q) :
  forall c, In c (first :: rest) ->
    Qabs (closest baseSpeed first (first :: rest) - baseSpeed) <= Qabs (c - baseSpeed).
Proof.
  intros c Hc. unfold closest.
  destruct (closest_fold_nearest baseSpeed (first :: rest)
              (first, Qabs (first - baseSpeed)) []) as [H1 H2];
    [reflexivity | intros ? [] |].
  cbv zeta in H1, H2. rewrite <- H1. apply H2. exact Hc.
Qed.

(** In exact arithmetic: when the quantized speed is further than the limit
    from the previous speed, and some allowed speed is within the limit,
    the speed emitted is an allowed speed within the limit, and no allowed
    speed within the limit is nearer to the quantized speed. *)
Lemma limitRamp_nearest_within (allowed : list Q) (limit : Q) (previous : Segment)
    (baseSpeed : Q) (cue : option string) (candidate : Q) :
  limit < Qabs (baseSpeed - speed previous) ->
  In candidate allowed ->
  Qabs (candidate - speed previous) <= limit ->
  let emitted := fst (limitRamp allowed (Some limit) (Some previous) baseSpeed cue) in
  In emitted allowed /\
  Qabs (emitted - speed previous) <= limit /\
  forall v, In v allowed -> Qabs (v - speed previous) <= limit ->
            Qabs (emitted - baseSpeed) <= Qabs (v - baseSpeed).
Proof.
  intros Hfar Hin Hnear. cbv zeta. unfold limitRamp.
  apply Qlt_bool_iff in Hfar. rewrite Hfar.
  assert (In candidate (withinRamp allowed (speed previous) limit)) as Hcand
      by (apply withinRamp_In; split; assumption).
  destruct (withinRamp allowed (speed previous) limit) as [|first rest] eqn:E;
    [destruct Hcand|].
  pose proof (closest_candidate baseSpeed first rest) as Hbest.
  rewrite <- E in Hbest at 2. apply withinRamp_In in Hbest. destruct Hbest as [Hba Hbl].
  destruct (Qeq_bool (closest baseSpeed first (first :: rest)) baseSpeed) eqn:Heq; simpl.
  - exfalso. apply Qeq_bool_iff in Heq. apply Qlt_bool_iff in Hfar.
    apply (Qlt_not_le _ _ Hfar).
    apply (Qabs_diff_le_compat _ _ _ _ _ Heq (Qeq_refl _) Hbl).
  - split; [exact Hba|]. split; [exact Hbl|].
    intros v Hv Hvl. apply closest_nearest.
    rewrite <- E. apply withinRamp_In. split; assumption.
Qed.

(** X6.  Let the limit, the quantized speed, the previous speed and the
    allowed speeds be binary64 numbers whose differences are binary64
    numbers too, so that the host subtracts them without rounding.  When
    the quantized speed is further than the limit from the previous speed,
    and some allowed speed is within the limit, the speed emitted is an
    allowed speed within the limit, and no allowed speed within the limit
    is nearer to the quantized speed. *)
Theorem limitRamp_picks_nearest (allowed : list Q) (limit : Q) (previous : Segment)
    (baseSpeed : Q) (cue : option string) (candidate : Q) :
  binary64 limit ->
  exactDifferences (baseSpeed :: speed previous :: allowed) ->
  limit < Qabs (baseSpeed - speed previous) ->
  In candidate allowed ->
  Qabs (candidate - speed previous) <= limit ->
  let emitted := fst (limitRamp allowed (Some limit) (Some previous) baseSpeed cue) in
  In emitted allowed /\
  Qabs (emitted - speed previous) <= limit /\
  forall v, In v allowed -> Qabs (v - speed previous) <= limit ->
            Qabs (emitted - baseSpeed) <= Qabs (v - baseSpeed).
Proof.
  intros _ _. apply limitRamp_nearest_within.
Qed.

(** X6 on the speeds 1, 2, 3: after 1, with a limit of 1, the target 3 is
    brought to 2. *)
Lemma limitRamp_from_1_to_3 :
  exactDifferences [3; 1; 1; 2; 3] /\
  In (fst (limitRamp [1; 2; 3] (Some 1) (Some (mkSegment 60 1 None None)) 3 None)) [1; 2; 3] /\
  Qabs (fst (limitRamp [1; 2; 3] (Some 1) (Some (mkSegment 60 1 None None)) 3 None) - 1) <= 1.
Proof.
  assert (exactDifferences [3; 1; 1; 2; 3]) as Hexact
      by (apply (exactDifferencesAt_sound 0); vm_compute; reflexivity).
  split; [exact Hexact|].
  destruct (limitRamp_picks_nearest [1; 2; 3] 1 (mkSegment 60 1 None None) 3 None 2)
    as (H1 & H2 & _).
  - apply (binary64At_sound 0). vm_compute. reflexivity.
  - exact Hexact.
  - reflexivity.
  - right; left; reflexivity.
  - discriminate.
  - split; [exact H1 | exact H2].
Defined.

(** X7.  The ramp check either leaves the quantized speed and the cue as
    they are, or emits a different speed and a cue that ends in
    [(clamped)]: the old cue, a space and the marker, or the marker alone
    when there was no cue. *)
Theorem limitRamp_marks_what_it_changes (allowed : list Q) (rampLimit : option Q)
    (prev : option Segment) (baseSpeed : Q) (cue : option string) :
  let result := limitRamp allowed rampLimit prev baseSpeed cue in
  (fst result = baseSpeed /\ snd result = cue) \/
  (~ fst result == baseSpeed /\
   exists before,
     snd result = Some (before +++ "(clamped)") /\
     (before = EmptyString \/ exists text, cue = Some text /\ before = text +++ " ")).
Proof.
  assert (exists before,
             clampedCue cue = Some (before +++ "(clamped)") /\
             (before = EmptyString \/ exists text, cue = Some text /\ before = text +++ " "))
    as Hmark.
  { unfold clampedCue. destruct cue as [text|].
    - destruct text as [|c text]; simpl.
      + exists EmptyString. split; [reflexivity | left; reflexivity].
      + exists (String c text +++ " "). split.
        * simpl. f_equal. f_equal. clear c.
          induction text as [|d text IH]; simpl; [reflexivity | f_equal; exact IH].
        * right. exists (String c text). split; reflexivity.
    - exists EmptyString. split; [reflexivity | left; reflexivity]. }
  cbv zeta. unfold limitRamp.
  destruct prev as [previous|]; [|left; split; reflexivity].
  destruct rampLimit as [limit|]; [|left; split; reflexivity].
  destruct (Qlt_bool limit (Qabs (baseSpeed - speed previous)));
    [|left; split; reflexivity].
  destruct (withinRamp allowed (speed previous) limit) as [|first rest].
  - destruct (Qeq_bool (speed previous) baseSpeed) eqn:E; simpl.
    + left; split; reflexivity.
    + right. apply Qeq_bool_false in E. split; [exact E | exact Hmark].
  - destruct (Qeq_bool (closest baseSpeed first (first :: rest)) baseSpeed) eqn:E; simpl.
    + left; split; reflexivity.
    + right. apply Qeq_bool_false in E. split; [exact E | exact Hmark].
Qed.

(** ** applySafety as a whole *)

Lemma constrainFrom_extends (allowed : list Q) (rampLimit : option Q)
    (rawSegments : list RawSegment) :
  forall constrained out,
    constrainFrom allowed rampLimit constrained rawSegments = Return out ->
    exists pushed,
      out = constrained ++ pushed /\ List.length pushed = List.length rawSegments.
Proof.
  induction rawSegments as [|segment rest IH]; intros constrained out; simpl.
  - intros H. injection H as <-. exists []. rewrite app_nil_r. split; reflexivity.
  - unfold constrainStep.
    destruct (quantizeDown allowed (speed segment)) as [q|e]; simpl; [|discriminate].
    intros H. destruct (IH _ _ H) as (pushed & -> & Hlen).
    eexists (_ :: pushed). rewrite <- app_assoc. split; [reflexivity|].
    simpl. rewrite Hlen. reflexivity.
Qed.





(** X9.  [applySafety] throws exactly when the profile has no speeds and
    the plan has a segment to quantize; the error is then EmptyDomain.  An
    empty plan comes back empty whatever the profile. *)
Theorem applySafety_throws_iff (profile : DeviceProfile) (rawSegments : list RawSegment) :
  (forall e, applySafety profile rawSegments = Throw e ->
             e = EmptyDomain /\ speeds profile = [] /\ rawSegments <> []) /\
  (speeds profile = [] /\ rawSegments <> [] ->
   applySafety profile rawSegments = Throw EmptyDomain) /\
  applySafety profile [] = Return [].
Proof.
  split; [|split].
  - intros e He. destruct (speeds profile) as [|v rest] eqn:Hspeeds.
    + destruct rawSegments as [|segment rest].
      * unfold applySafety in He. simpl in He.
        destruct (minSegmentSec profile); discriminate.
      * unfold applySafety in He. rewrite Hspeeds in He. simpl in He.
        injection He as <-. split; [reflexivity|]. split; [reflexivity | discriminate].
    + destruct (applySafety_safe profile rawSegments) as (segments & Hs & _);
        [rewrite Hspeeds; discriminate | congruence].
  - intros [Hspeeds Hraw]. destruct rawSegments as [|segment rest]; [congruence|].
    unfold applySafety. rewrite Hspeeds. reflexivity.
  - unfold applySafety. simpl. destruct (minSegmentSec profile); reflexivity.
Qed.

Lemma constrainFrom_quantizes (allowed : list Q) (rawSegments : list RawSegment) :
  forall constrained out,
    constrainFrom allowed None constrained rawSegments = Return out ->
    exists pushed,
      out = constrained ++ pushed /\ Forall2 (quantizedOnly allowed) rawSegments pushed.
Proof.
  induction rawSegments as [|segment rest IH]; intros constrained out; simpl.
  - intros H. injection H as <-. exists []. rewrite app_nil_r. split; [reflexivity | constructor].
  - unfold constrainStep.
    destruct (quantizeDown allowed (speed segment)) as [q|e] eqn:Hq; simpl; [|discriminate].
    intros H. destruct (IH _ _ H) as (pushed & -> & Hall).
    eexists (_ :: pushed). rewrite <- app_assoc. split; [reflexivity|].
    constructor; [|exact Hall].
    unfold constrainedSegment, limitRamp.
    destruct (lastOf constrained); repeat split; exact Hq.
Qed.

(** X10.  Without a ramp limit and without a minimum duration,
    [applySafety] only quantizes: segment by segment, the speed is what
    [quantizeDown] returns for the target, and duration, cue and incline
    are untouched. *)
Theorem applySafety_only_quantizes (profile : DeviceProfile) (rawSegments : list RawSegment) :
  speeds profile <> [] ->
  rampLimitPerChange profile = None ->
  minSegmentSec profile = None ->
  exists segments,
    applySafety profile rawSegments = Return segments /\
    Forall2 (quantizedOnly (sortSpeeds (speeds profile))) rawSegments segments.
Proof.
  intros Hne Hramp Hmin.
  destruct (constrainedOf_safe profile rawSegments Hne) as (constrained & Hc & _).
  exists constrained. rewrite (applySafety_loops _ _ _ Hc), Hmin. split; [reflexivity|].
  unfold constrainedOf in Hc. rewrite Hramp in Hc.
  destruct (constrainFrom_quantizes _ _ _ _ Hc) as (pushed & -> & Hall). exact Hall.
Qed.

(** X10 on the speeds 1, 2, 3 and a plan of one segment. *)
Lemma applySafety_only_quantizes_one :
  exists segments,
    applySafety threeSpeeds [mkSegment 60 (Some 2.5) None None] = Return segments /\
    Forall2 (quantizedOnly (sortSpeeds (speeds threeSpeeds)))
      [mkSegment 60 (Some 2.5) None None] segments.
Proof.
  apply (applySafety_only_quantizes threeSpeeds); [discriminate | reflexivity | reflexivity].
Defined.

Lemma mergeFrom_head (minSec : Q) (constrained : list Segment) :
  forall head tail,
    exists head' tail',
      mergeFrom minSec (head :: tail) constrained = head' :: tail' /\
      speed head' = speed head.
Proof.
  unfold mergeFrom. induction constrained as [|segment rest IH]; intros head tail; simpl.
  - exists head, tail. split; reflexivity.
  - destruct (mergeStep_cases minSec (head :: tail) segment)
      as [[H _] | (init & previous & Hsplit & Hcase)]; [discriminate|].
    destruct init as [|i init]; simpl in Hsplit; injection Hsplit as -> ->.
    + destruct Hcase as [[_ ->] | [_ ->]]; simpl.
      * destruct (IH (mergedSegment previous segment) []) as (h & t & -> & Hh).
        exists h, t. split; [reflexivity | exact Hh].
      * apply IH.
    + destruct Hcase as [[_ ->] | [_ ->]]; simpl; apply IH.
Qed.

Lemma applySafety_first_segment (profile : DeviceProfile) (first : RawSegment)
    (rest : list RawSegment) :
  speeds profile <> [] ->
  exists q constrainedHead constrainedTail head tail,
    quantizeDown (sortSpeeds (speeds profile)) (speed first) = Return q /\
    constrainedOf profile (first :: rest) = Return (constrainedHead :: constrainedTail) /\
    speed constrainedHead = q /\
    secs constrainedHead = secs first /\
    cue constrainedHead = cue first /\
    applySafety profile (first :: rest) = Return (head :: tail) /\
    speed head = q.
Proof.
  intros Hne. pose proof (sortSpeeds_nonempty _ Hne) as Hs.
  destruct (quantizeDown_returns _ (speed first) Hs) as (q & Hq & _).
  destruct (constrainedOf_safe profile (first :: rest) Hne) as (constrained & Hc & _).
  pose proof Hc as Hc'. unfold constrainedOf in Hc'. simpl in Hc'.
  unfold constrainStep in Hc'. rewrite Hq in Hc'. simpl in Hc'.
  destruct (constrainFrom_extends _ _ _ _ _ Hc') as (pushed & -> & _).
  simpl in Hc. rewrite (applySafety_loops _ _ _ Hc).
  set (c0 := constrainedSegment _ _ None first q) in *.
  assert (speed c0 = q /\ secs c0 = secs first /\ cue c0 = cue first) as (H1 & H2 & H3)
      by (repeat split).
  destruct (minSegmentSec profile) as [minSec|].
  - unfold mergeFrom. simpl fold_left. change (mergeStep minSec [] c0) with [c0].
    destruct (mergeFrom_head minSec pushed c0 []) as (head & tail & Hm & Hh).
    unfold mergeFrom in Hm. rewrite Hm.
    exists q, c0, pushed, head, tail. repeat split; try assumption; congruence.
  - exists q, c0, pushed, c0, pushed. repeat split; assumption.
Qed.

(** X11.  The first segment of a plan is never ramp-limited: in the
    constrained list it has the quantized speed, the duration and the cue
    of the raw segment, and the first segment [applySafety] returns still
    has that speed. *)
Theorem first_segment_is_not_limited (profile : DeviceProfile) (first : RawSegment)
    (rest : list RawSegment) :
  speeds profile <> [] ->
  exists q constrainedHead constrainedTail head tail,
    quantizeDown (sortSpeeds (speeds profile)) (speed first) = Return q /\
    constrainedOf profile (first :: rest) = Return (constrainedHead :: constrainedTail) /\
    speed constrainedHead = q /\
    secs constrainedHead = secs first /\
    cue constrainedHead = cue first /\
    applySafety profile (first :: rest) = Return (head :: tail) /\
    speed head = q.
Proof.
  apply applySafety_first_segment.
Qed.

(** X11 on the test profile: a plan that starts at 3 starts at 3. *)
Lemma first_segment_at_3 :
  exists head tail,
    applySafety testProfile [mkSegment 60 (Some 3) None None; mkSegment 60 (Some 1) None None]
    = Return (head :: tail) /\
    speed head = 3.
Proof.
  destruct (first_segment_is_not_limited testProfile
              (mkSegment 60 (Some 3) None None) [mkSegment 60 (Some 1) None None])
    as (q & c0 & ct & head & tail & Hq & _ & _ & _ & _ & Hs & Hh); [discriminate|].
  vm_compute in Hq. injection Hq as <-.
  exists head, tail. split; assumption.
Defined.

(** X12.  When no segment of the plan is shorter than the minimum
    duration, the merge pass changes nothing: [applySafety] returns the
    constrained list, also where neighbours have equal speeds. *)
Theorem applySafety_merges_nothing_long (profile : DeviceProfile) (minSec : Q)
    (rawSegments : list RawSegment) :
  speeds profile <> [] ->
  minSegmentSec profile = Some minSec ->
  Forall (fun raw => minSec <= secs raw) rawSegments ->
  exists constrained,
    constrainedOf profile rawSegments = Return constrained /\
    applySafety profile rawSegments = Return constrained.
Proof.
  intros Hne Hmin Hlong.
  destruct (constrainedOf_safe profile rawSegments Hne) as (constrained & Hc & _ & _ & _ & Hsecs).
  exists constrained. split; [exact Hc|].
  rewrite (applySafety_loops _ _ _ Hc), Hmin. f_equal.
  apply (mergeFrom_of_long minSec constrained); [|constructor].
  apply Forall_forall. intros s Hs.
  apply (in_map secs) in Hs. rewrite Hsecs in Hs. apply in_map_iff in Hs.
  destruct Hs as (raw & <- & Hraw). rewrite Forall_forall in Hlong. apply Hlong, Hraw.
Qed.

(** X12 on the test profile: two segments of one speed, each as long as
    the minimum of 30 seconds. *)
Lemma applySafety_keeps_two_long_segments :
  exists constrained,
    constrainedOf testProfile [mkSegment 30 (Some 2) None None; mkSegment 45 (Some 2) None None]
    = Return constrained /\
    applySafety testProfile [mkSegment 30 (Some 2) None None; mkSegment 45 (Some 2) None None]
    = Return constrained.
Proof.
  apply (applySafety_merges_nothing_long testProfile 30); [discriminate | reflexivity |].
  repeat constructor; discriminate.
Defined.

Lemma pinned_by_zero (segments : list Segment) :
  forall first,
    Forall (withinLimitOrStall 0) (adjacentPairs (first :: segments)) ->
    Forall (fun s => speed s == speed first) segments.
Proof.
  induction segments as [|second rest IH]; intros first Hpairs; [constructor|].
  change (adjacentPairs (first :: second :: rest))
    with ((first, second) :: adjacentPairs (second :: rest)) in Hpairs.
  inversion Hpairs as [|? ? Hpair Hrest]; subst.
  assert (speed second == speed first) as Heq.
  { destruct Hpair as [H | H]; [|exact H].
    unfold withinLimit in H. cbn [fst snd] in H. apply Qabs_Qle_condition in H. lra. }
  constructor; [exact Heq|].
  apply (Forall_impl _ (P := fun s => speed s == speed second)); [|apply IH, Hrest].
  intros s Hs. rewrite Hs. exact Heq.
Qed.

(** X13.  A ramp limit of zero pins the workout to one speed: all the
    segments [applySafety] returns have the same speed, that of the
    first. *)
Theorem zero_ramp_limit_pins_the_speed (profile : DeviceProfile)
    (rawSegments : list RawSegment) :
  speeds profile <> [] ->
  rampLimitPerChange profile = Some 0 ->
  exists segments,
    applySafety profile rawSegments = Return segments /\
    forall a b, In a segments -> In b segments -> speed a == speed b.
Proof.
  intros Hne Hramp.
  destruct (applySafety_safe profile rawSegments Hne) as (segments & Hs & _ & Hpairs & _).
  exists segments. split; [exact Hs|].
  specialize (Hpairs 0 Hramp).
  destruct segments as [|first rest]; [intros a b []|].
  pose proof (pinned_by_zero rest first Hpairs) as Hall. rewrite Forall_forall in Hall.
  assert (forall s, In s (first :: rest) -> speed s == speed first) as Hfirst
      by (intros s [<- | Hin]; [reflexivity | apply Hall, Hin]).
  intros a b Ha Hb. rewrite (Hfirst a Ha), (Hfirst b Hb). reflexivity.
Qed.

(** X13 on the profile of scenario C. *)
Lemma zero_ramp_limit_on_scenario_C :
  exists segments,
    applySafety (mkDeviceProfile "Test Device" mph [1; 1.5; 2; 2.5; 3] None (Some 120) (Some 0))
      [mkSegment 60 (Some 1.5) None None; mkSegment 60 (Some 3) None None]
    = Return segments /\
    forall a b, In a segments -> In b segments -> speed a == speed b.
Proof.
  apply (zero_ramp_limit_pins_the_speed
           (mkDeviceProfile "Test Device" mph [1; 1.5; 2; 2.5; 3] None (Some 120) (Some 0)));
    [discriminate | reflexivity].
Defined.

(** ** Cues, names and units of the finished workout *)

Lemma truthy_append (a b : string) : b <> EmptyString -> truthy (Some (a +++ b)) = true.
Proof.
  intros Hb. destruct a; simpl; [destruct b; [contradiction | reflexivity] | reflexivity].
Qed.

Lemma clampedCue_truthy (cue : option string) : truthy (clampedCue cue) = true.
Proof.
  unfold clampedCue. destruct cue as [text|]; [|reflexivity].
  destruct (truthy (Some text)); [apply truthy_append; discriminate | reflexivity].
Qed.

Lemma constrainedSegment_cued (allowed : list Q) (rampLimit : option Q)
    (prev : option Segment) (segment : RawSegment) (baseSpeed : Q) :
  cued segment -> cued (constrainedSegment allowed rampLimit prev segment baseSpeed).
Proof.
  unfold cued, constrainedSegment. intros Hc.
  destruct (limitRamp_cue allowed rampLimit prev baseSpeed (cue segment)) as [H | H];
    destruct (limitRamp _ _ _ _ _) as [v c]; simpl in *; subst c;
    [exact Hc | apply clampedCue_truthy].
Qed.

Lemma constrainFrom_cued (allowed : list Q) (rampLimit : option Q)
    (rawSegments : list RawSegment) :
  Forall cued rawSegments ->
  forall constrained out,
    Forall cued constrained ->
    constrainFrom allowed rampLimit constrained rawSegments = Return out ->
    Forall cued out.
Proof.
  induction 1 as [|segment rest Hseg Hrest IH]; intros constrained out Hc; simpl.
  - intros H. injection H as <-. exact Hc.
  - unfold constrainStep.
    destruct (quantizeDown allowed (speed segment)) as [q|e]; simpl; [|discriminate].
    apply IH. apply Forall_app. split; [exact Hc|].
    constructor; [apply constrainedSegment_cued, Hseg | constructor].
Qed.

Lemma mergedSegment_cued (previous segment : Segment) :
  cued previous -> cued (mergedSegment previous segment).
Proof.
  unfold cued, mergedSegment, mergeCue. simpl.
  destruct (cue previous) as [p|]; [|discriminate].
  intros Hp. destruct (cue segment) as [n|]; [|exact Hp].
  destruct (truthy (Some p) && truthy (Some n) && negb (p =? n)%string); [|exact Hp].
  apply truthy_append. discriminate.
Qed.

Lemma mergeFrom_cued (minSec : Q) (constrained : list Segment) :
  Forall cued constrained ->
  forall merged, Forall cued merged -> Forall cued (mergeFrom minSec merged constrained).
Proof.
  unfold mergeFrom.
  induction 1 as [|segment rest Hseg Hrest IH]; intros merged Hm; simpl; [exact Hm|].
  apply IH.
  destruct (mergeStep_cases minSec merged segment)
    as [[-> ->] | (init & previous & -> & Hcase)].
  - constructor; [exact Hseg | constructor].
  - apply Forall_app in Hm. destruct Hm as [Hinit Hprev].
    inversion Hprev as [|? ? Hp _]; subst.
    destruct Hcase as [[_ ->] | [_ ->]]; apply Forall_app; split; try exact Hinit.
    + constructor; [apply mergedSegment_cued, Hp | constructor].
    + constructor; [exact Hp | constructor; [exact Hseg | constructor]].
Qed.

(** What [finalizeWorkout] makes of a plan. *)
Lemma finalizeWorkout_of_plan (profile : DeviceProfile) (name' : option string)
    (rawSegments : list RawSegment) :
  speeds profile <> [] ->
  exists w,
    finalizeWorkout profile name' rawSegments = Return w /\
    applySafety profile rawSegments = Return (Workout.segments w) /\
    Workout.name w = orDefault (name profile) name' /\
    Workout.units w = units profile /\
    Workout.totalSecs w == total (map secs rawSegments) /\
    (Forall cued rawSegments -> Forall cued (Workout.segments w)).
Proof.
  intros Hne.
  destruct (applySafety_safe profile rawSegments Hne) as (segments & Hs & _ & _ & _ & Hsum).
  eexists. split; [apply (finalizeWorkout_returns _ _ _ _ Hs)|]. simpl.
  split; [exact Hs|]. split; [reflexivity|]. split; [reflexivity|]. split; [exact Hsum|].
  intros Hcued.
  destruct (constrainedOf_safe profile rawSegments Hne) as (constrained & Hc & _).
  rewrite (applySafety_loops _ _ _ Hc) in Hs. injection Hs as <-.
  assert (Forall cued constrained) as Hcc
      by (apply (constrainFrom_cued _ _ _ Hcued [] constrained (Forall_nil _) Hc)).
  destruct (minSegmentSec profile); [apply mergeFrom_cued; [exact Hcc | constructor] | exact Hcc].
Qed.

Lemma map_flat_map {A B C : Type} (f : B -> C) (g : A -> list B) (l : list A) :
  map f (flat_map g l) = flat_map (fun x => map f (g x)) l.
Proof.
  induction l as [|x rest IH]; simpl; [reflexivity|]. rewrite map_app, IH. reflexivity.
Qed.

Lemma total_app (a b : list Q) : total (a ++ b) == total a + total b.
Proof.
  unfold total. induction a as [|x rest IH]; simpl.
  - rewrite Qplus_0_l. reflexivity.
  - rewrite IH, Qplus_assoc. reflexivity.
Qed.

Lemma total_cons (x : Q) (l : list Q) : total (x :: l) == x + total l.
Proof.
  reflexivity.
Qed.

Lemma total_repeated (pair : list Q) {A : Type} (l : list A) :
  total (flat_map (fun _ => pair) l) == inject_Z (Z.of_nat (List.length l)) * total pair.
Proof.
  induction l as [|x rest IH]; [simpl; rewrite Qmult_0_l; reflexivity|].
  change (flat_map (fun _ : A => pair) (x :: rest))
    with (pair ++ flat_map (fun _ : A => pair) rest).
  rewrite total_app, IH.
  change (List.length (x :: rest)) with (S (List.length rest)).
  rewrite Nat2Z.inj_succ. unfold Z.succ. rewrite inject_Z_plus.
  change (inject_Z 1) with 1. ring.
Qed.

Lemma countUp_length (bound : Q) : List.length (countUp bound) = Z.to_nat (Qceiling bound).
Proof.
  unfold countUp. rewrite length_map, length_seq. reflexivity.
Qed.

Lemma inject_Z_sub (a b : Z) : inject_Z (a - b) = inject_Z a - inject_Z b.
Proof.
  unfold Z.sub, Qminus. rewrite inject_Z_plus, inject_Z_opp. reflexivity.
Qed.

Lemma Math_round_comp (x y : Q) : x == y -> Math_round x = Math_round y.
Proof.
  intros H. unfold Math_round. f_equal. apply Qfloor_comp. rewrite H. reflexivity.
Qed.

Lemma Math_round_whole (z : Z) : Math_round (inject_Z z) = inject_Z z.
Proof.
  unfold Math_round. rewrite Qfloor_half. reflexivity.
Qed.

Lemma plannedSecs_whole (totalMins : Q) :
  exists t, (0 <= t)%Z /\ plannedSecs totalMins == inject_Z t.
Proof.
  unfold plannedSecs, Math_max, Math_round.
  set (z := Qfloor (totalMins * 60 + (1 # 2))).
  destruct (Q.max_spec 0 (inject_Z z)) as [[Hlt Hmax] | [Hle Hmax]].
  - exists z. split; [|exact Hmax].
    change 0 with (inject_Z 0) in Hlt. rewrite <- Zlt_Qlt in Hlt. lia.
  - exists 0%Z. split; [lia | exact Hmax].
Qed.

Section Plans.

Context {toText : NumberToString}.

Variable profile : DeviceProfile.
Hypothesis speeds_nonempty : speeds profile <> [].

Lemma cueAt_truthy (label text : string) : truthy (cueAt label text profile) = true.
Proof.
  unfold cueAt. apply truthy_append. discriminate.
Qed.

(** The plan [makeIntervals] hands to [finalizeWorkout]. *)
Lemma makeIntervals_plan (opts : IntervalPlanOpts.t) :
  let warmupMins := orDefault 5 (IntervalPlanOpts.warmupMins opts) in
  let cooldownMins := orDefault 5 (IntervalPlanOpts.cooldownMins opts) in
  let repeats := orDefault 6 (IntervalPlanOpts.repeats opts) in
  let hardSecs := orDefault 90 (IntervalPlanOpts.hardSecs opts) in
  let easySecs := orDefault 90 (IntervalPlanOpts.easySecs opts) in
  exists rawSegments,
    makeIntervals profile opts =
    finalizeWorkout profile
      (Some (orDefault "Intervals"%string (IntervalPlanOpts.name opts))) rawSegments /\
    Forall cued rawSegments /\
    map secs rawSegments =
    (if Qlt_bool 0 warmupMins then [Math_round (warmupMins * 60)] else [])
    ++ flat_map (fun _ => [hardSecs; easySecs]) (countUp repeats)
    ++ (if Qlt_bool 0 cooldownMins then [Math_round (cooldownMins * 60)] else []).
Proof.
  intros warmupMins cooldownMins repeats hardSecs easySecs.
  pose proof (sortSpeeds_nonempty _ speeds_nonempty) as Hs.
  unfold makeIntervals, warmSpeed. cbv zeta.
  quantized Hs. quantized Hs. quantized Hs.
  fold warmupMins cooldownMins repeats hardSecs easySecs.
  eexists. split; [reflexivity|]. split.
  - apply Forall_app. split; [|apply Forall_app; split].
    + destruct (Qlt_bool 0 warmupMins); repeat constructor; try apply cueAt_truthy.
    + apply Forall_flat_map, Forall_forall. intros i _.
      repeat constructor; try apply cueAt_truthy.
    + destruct (Qlt_bool 0 cooldownMins); repeat constructor; try apply cueAt_truthy.
  - rewrite !map_app, map_flat_map.
    destruct (Qlt_bool 0 warmupMins), (Qlt_bool 0 cooldownMins); reflexivity.
Qed.

Lemma steadyPlan_cued (opts : SteadyOpts.t) :
  exists rawSegments,
    steadyPlan profile opts = Return rawSegments /\ Forall cued rawSegments.
Proof.
  pose proof (sortSpeeds_nonempty _ speeds_nonempty) as Hs.
  unfold steadyPlan, warmSpeed. cbv zeta.
  quantized Hs. quantized Hs.
  match goal with |- context [if ?c then _ else _] => destruct c end.
  - quantized Hs. eexists. split; [reflexivity|].
    apply Forall_app. split; [repeat constructor|].
    apply Forall_app. split.
    + match goal with |- context [if ?c then _ else _] => destruct c end;
        repeat constructor.
    + apply Forall_app. split; [|repeat constructor].
      apply Forall_flat_map, Forall_forall. intros i _. repeat constructor.
  - eexists. split; [reflexivity | repeat constructor].
Qed.

(** The durations of the plan of [makeSteady] add up to the planned total
    when that is ten minutes or more. *)
Lemma steadyPlan_total (opts : SteadyOpts.t) (rawSegments : list RawSegment) :
  600 <= plannedSecs (orDefault 30 (SteadyOpts.totalMins opts)) ->
  steadyPlan profile opts = Return rawSegments ->
  total (map secs rawSegments) == plannedSecs (orDefault 30 (SteadyOpts.totalMins opts)).
Proof.
  intros Hlong.
  pose proof (sortSpeeds_nonempty _ speeds_nonempty) as Hs.
  destruct (plannedSecs_whole (orDefault 30 (SteadyOpts.totalMins opts))) as (t & Ht0 & Ht).
  unfold steadyPlan, warmSpeed. cbv zeta.
  quantized Hs. quantized Hs.
  change (Math_max 0 (Math_round (orDefault 30 (SteadyOpts.totalMins opts) * 60)))
    with (plannedSecs (orDefault 30 (SteadyOpts.totalMins opts))).
  set (T := plannedSecs (orDefault 30 (SteadyOpts.totalMins opts))) in *.
  set (W := Math_min (T / 2) (5 * 60)).
  assert (W == 300) as HW.
  { unfold W, Math_min. rewrite Q.min_r; [reflexivity|].
    apply Qle_shift_div_l; [reflexivity | lra]. }
  set (C := Math_max 0 (T - W - W)).
  assert (C == inject_Z (t - 600)) as HC.
  { unfold C, Math_max. rewrite Q.max_r by lra.
    rewrite inject_Z_sub. change (inject_Z 600) with 600. lra. }
  assert (Math_round W = 300) as HrW
      by (rewrite (Math_round_comp W (inject_Z 300) HW); apply Math_round_whole).
  assert (Math_round C = inject_Z (t - 600)) as HrC
      by (rewrite (Math_round_comp C _ HC); apply Math_round_whole).
  assert (inject_Z (t - 600) == T - 600) as Hcruise.
  { rewrite inject_Z_sub. change (inject_Z 600) with 600. lra. }
  match goal with |- context [if ?c then _ else _] => destruct c eqn:Hcond end.
  - quantized Hs. intros H. injection H as <-.
    apply andb_true_iff in Hcond. destruct Hcond as [Hcond _].
    apply andb_true_iff in Hcond. destruct Hcond as [_ Hcond].
    apply Qle_bool_iff in Hcond. fold C in Hcond.
    cbn [secs speed cue]. rewrite HrW, HrC.
    set (P := Math_max 0 (inject_Z (t - 600) - (4 * 20 + 4 * 40))).
    assert (P == T - 840) as HP by (unfold P, Math_max; rewrite Q.max_r; lra).
    rewrite map_cons, map_app, total_cons, total_app. cbn [map secs].
    assert (total (map secs (if Qlt_bool 0 P
                             then [mkSegment P (Some q0) None
                                     (cueAt "Cruise" (numToString q0) profile)]
                             else [])) == P) as ->.
    { destruct (Qlt_bool 0 P) eqn:E; unfold total; simpl; [lra|].
      apply Qlt_bool_false in E. lra. }
    unfold total. cbn [fold_right]. lra.
  - intros H. injection H as <-. cbn [map secs]. rewrite HrW, HrC.
    unfold total. cbn [fold_right]. lra.
Qed.

End Plans.

Section PlanDurations.

Context {toText : NumberToString}.

Variable profile : DeviceProfile.
Hypothesis speeds_nonempty : speeds profile <> [].

(** Below ten minutes the plan of [makeSteady] is two halves around an
    empty cruise. *)
Lemma steadyPlan_short_total (opts : SteadyOpts.t) (rawSegments : list RawSegment) :
  plannedSecs (orDefault 30 (SteadyOpts.totalMins opts)) < 600 ->
  steadyPlan profile opts = Return rawSegments ->
  total (map secs rawSegments)
  == 2 * Math_round (plannedSecs (orDefault 30 (SteadyOpts.totalMins opts)) / 2).
Proof.
  intros Hshort.
  pose proof (sortSpeeds_nonempty _ speeds_nonempty) as Hs.
  unfold steadyPlan, warmSpeed. cbv zeta.
  quantized Hs. quantized Hs.
  change (Math_max 0 (Math_round (orDefault 30 (SteadyOpts.totalMins opts) * 60)))
    with (plannedSecs (orDefault 30 (SteadyOpts.totalMins opts))).
  set (T := plannedSecs (orDefault 30 (SteadyOpts.totalMins opts))) in *.
  assert (0 <= T) as HT0 by (apply Q.le_max_l).
  set (W := Math_min (T / 2) (5 * 60)).
  assert (W == T / 2) as HW.
  { unfold W, Math_min. rewrite Q.min_l; [reflexivity|].
    apply Qle_shift_div_r; [reflexivity | lra]. }
  set (C := Math_max 0 (T - W - W)).
  assert (C == 0) as HC.
  { unfold C, Math_max. rewrite Q.max_l; [reflexivity|]. rewrite HW.
    assert (T / 2 == T * (1 # 2)) as -> by reflexivity. lra. }
  assert (Math_round W = Math_round (T / 2)) as HrW by (apply Math_round_comp, HW).
  assert (Math_round C = 0) as HrC
      by (rewrite (Math_round_comp C (inject_Z 0) HC); apply Math_round_whole).
  match goal with |- context [if ?c then _ else _] => destruct c eqn:Hcond end.
  - exfalso.
    apply andb_true_iff in Hcond. destruct Hcond as [Hcond _].
    apply andb_true_iff in Hcond. destruct Hcond as [_ Hcond].
    apply Qle_bool_iff in Hcond. fold C in Hcond. lra.
  - intros H. injection H as <-. cbn [map secs]. rewrite HrW, HrC.
    unfold total. cbn [fold_right]. lra.
Qed.

Lemma pushStep_cued (count base : Q) (ladder : list (option Q)) :
  forall segments remainder index,
    Forall cued segments ->
    Forall cued (fst (fst (fold_left (pushStep profile count base) ladder
                             (segments, remainder, index)))).
Proof.
  induction ladder as [|entry rest IH]; intros segments remainder index Hcued; [exact Hcued|].
  cbn [fold_left pushStep]. apply IH.
  apply Forall_app. split; [exact Hcued|]. repeat constructor.
Qed.

Lemma progressionPlan_cued (opts : ProgressionOpts.t) :
  exists rawSegments,
    progressionPlan profile opts = Return rawSegments /\ Forall cued rawSegments.
Proof.
  destruct (progressionLadder_returns profile speeds_nonempty opts) as (warm & ladder & Hl).
  unfold progressionPlan. rewrite Hl. cbv beta iota delta [bind]. cbv zeta.
  match goal with |- context [fold_left ?f ?l ?a] =>
    assert (Forall cued (fst (fst (fold_left f l a)))) as Hc
        by (apply pushStep_cued; repeat constructor);
    destruct (fold_left f l a) as [[segments remainder] index]
  end.
  eexists. split; [reflexivity|].
  apply Forall_app. split; [exact Hc | repeat constructor].
Qed.

(** The loop over the ladder hands out [base] seconds per step and one more
    to each of the first [k] steps, [k] being the whole remainder. *)
Lemma pushStep_total (count base : Q) (ladder : list (option Q)) :
  forall segments remainder index k,
    (0 <= k)%Z -> remainder == inject_Z k ->
    total (map secs (fst (fst (fold_left (pushStep profile count base) ladder
                                 (segments, remainder, index)))))
    == total (map secs segments)
       + inject_Z (Z.of_nat (List.length ladder)) * base
       + inject_Z (Z.min k (Z.of_nat (List.length ladder))).
Proof.
  induction ladder as [|entry rest IH]; intros segments remainder index k Hk Hr.
  - cbn [fold_left fst List.length]. rewrite Z.min_r by lia. simpl inject_Z.
    change (inject_Z 0) with 0. lra.
  - cbn [fold_left pushStep].
    destruct (Qlt_bool 0 remainder) eqn:Hbonus.
    + apply Qlt_bool_iff in Hbonus.
      assert (0 < k)%Z as Hpos by (rewrite Zlt_Qlt; change (inject_Z 0) with 0; lra).
      rewrite (IH _ (remainder - 1) _ (k - 1)%Z);
        [|lia | rewrite inject_Z_sub; change (inject_Z 1) with 1; lra].
      rewrite map_app, total_app. cbn [map secs]. rewrite total_cons.
      change (total []) with 0.
      change (List.length (entry :: rest)) with (S (List.length rest)).
      rewrite Nat2Z.inj_succ.
      replace (Z.min k (Z.succ (Z.of_nat (List.length rest))))
        with (1 + Z.min (k - 1) (Z.of_nat (List.length rest)))%Z by lia.
      unfold Z.succ. rewrite !inject_Z_plus. change (inject_Z 1) with 1.
      unfold RawSegment. ring.
    + apply Qlt_bool_false in Hbonus.
      assert (k = 0)%Z as ->.
      { assert (k <= 0)%Z; [|lia]. rewrite Zle_Qle. change (inject_Z 0) with 0. lra. }
      rewrite (IH _ remainder _ 0%Z); [|lia | exact Hr].
      rewrite map_app, total_app. cbn [map secs]. rewrite total_cons.
      change (total []) with 0.
      change (List.length (entry :: rest)) with (S (List.length rest)).
      rewrite Nat2Z.inj_succ. rewrite !Z.min_l by lia.
      unfold Z.succ. rewrite !inject_Z_plus. change (inject_Z 1) with 1.
      change (inject_Z 0) with 0. unfold RawSegment. ring.
Qed.

Lemma progressionLadder_length (opts : ProgressionOpts.t) (warm : Q)
    (ladder : list (option Q)) :
  progressionLadder profile opts = Return (warm, ladder) ->
  List.length ladder = Z.to_nat (Qceiling (stepCount opts)).
Proof.
  pose proof (sortSpeeds_nonempty _ speeds_nonempty) as Hs.
  unfold progressionLadder, warmSpeed. cbv zeta.
  quantized Hs. quantized Hs.
  intros H. injection H as _ <-. rewrite length_map. apply countUp_length.
Qed.

Lemma stepCount_least (opts : ProgressionOpts.t) : 1 <= stepCount opts.
Proof.
  apply Q.le_max_l.
Qed.

(** From ten minutes on, and with a whole number of steps, the durations of
    the plan of [makeProgression] add up to the planned total. *)
Lemma progressionPlan_total (opts : ProgressionOpts.t) (rawSegments : list RawSegment) :
  wholeNumber (stepCount opts) ->
  600 <= plannedSecs (orDefault 30 (ProgressionOpts.totalMins opts)) ->
  progressionPlan profile opts = Return rawSegments ->
  total (map secs rawSegments) == plannedSecs (orDefault 30 (ProgressionOpts.totalMins opts)).
Proof.
  intros Hwhole Hlong.
  destruct (plannedSecs_whole (orDefault 30 (ProgressionOpts.totalMins opts)))
    as (t & Ht0 & Ht).
  destruct (progressionLadder_returns profile speeds_nonempty opts) as (warm & ladder & Hl).
  pose proof (progressionLadder_length opts warm ladder Hl) as Hlen.
  pose proof (stepCount_least opts) as Hleast.
  unfold wholeNumber in Hwhole.
  set (n := Qfloor (stepCount opts)) in *.
  assert (Qceiling (stepCount opts) = n) as Hceil.
  { rewrite <- (Qceiling_Z n). apply Qceiling_comp. symmetry. exact Hwhole. }
  rewrite Hceil in Hlen.
  assert (1 <= n)%Z as Hn.
  { rewrite Zle_Qle. change (inject_Z 1) with 1. lra. }
  unfold progressionPlan. rewrite Hl. cbv beta iota delta [bind]. cbv zeta.
  change (Math_max 0 (Math_round (orDefault 30 (ProgressionOpts.totalMins opts) * 60)))
    with (plannedSecs (orDefault 30 (ProgressionOpts.totalMins opts))).
  set (T := plannedSecs (orDefault 30 (ProgressionOpts.totalMins opts))) in *.
  set (W := Math_min (T / 2) (5 * 60)).
  assert (W == 300) as HW.
  { unfold W, Math_min. rewrite Q.min_r; [reflexivity|].
    apply Qle_shift_div_l; [reflexivity | lra]. }
  set (C := Math_max 0 (T - W - W)).
  assert (C == inject_Z (t - 600)) as HC.
  { unfold C, Math_max. rewrite Q.max_r by lra.
    rewrite inject_Z_sub. change (inject_Z 600) with 600. lra. }
  assert (Math_round W = 300) as HrW
      by (rewrite (Math_round_comp W (inject_Z 300) HW); apply Math_round_whole).
  assert (Qeq_bool (stepCount opts) 0 = false) as ->.
  { destruct (Qeq_bool (stepCount opts) 0) eqn:E; [|reflexivity].
    apply Qeq_bool_iff in E. lra. }
  set (base := Math_floor (C / stepCount opts)).
  assert (base = inject_Z ((t - 600) / n)) as Hbase.
  { unfold base, Math_floor. f_equal. rewrite Zdiv_Qdiv. apply Qfloor_comp.
    rewrite HC, Hwhole. reflexivity. }
  assert (C - base * stepCount opts == inject_Z ((t - 600) mod n)) as Hrem.
  { rewrite Hbase, HC, <- Hwhole, <- inject_Z_mult, <- inject_Z_sub.
    rewrite Z.mod_eq by lia. apply inject_Z_injective. lia. }
  match goal with |- context [fold_left ?f ?l (?s, ?r, ?i)] =>
    assert (total (map secs (fst (fst (fold_left f l (s, r, i)))))
            == total (map secs s) + inject_Z (Z.of_nat (List.length l)) * base
               + inject_Z (Z.min ((t - 600) mod n) (Z.of_nat (List.length l)))) as Htotal
        by (apply pushStep_total; [apply Z.mod_pos_bound; lia | exact Hrem]);
    destruct (fold_left f l (s, r, i)) as [[segments remainder] index]
  end.
  intros H. injection H as <-.
  cbn [fst] in Htotal.
  rewrite map_app, total_app, Htotal. cbn [map secs]. rewrite !total_cons.
  change (total []) with 0. rewrite HrW, Hlen, Z2Nat.id by lia.
  rewrite Z.min_l by (pose proof (Z.mod_pos_bound (t - 600) n); lia).
  rewrite Hbase, <- inject_Z_mult.
  assert (inject_Z (n * ((t - 600) / n)) + inject_Z ((t - 600) mod n) == T - 600) as Hwork.
  { rewrite <- inject_Z_plus, <- Z.div_mod by lia.
    rewrite inject_Z_sub. change (inject_Z 600) with 600. lra. }
  lra.
Qed.

(** Below ten minutes there is no time for the steps: the plan of
    [makeProgression] is two halves, whatever the number of steps. *)
Lemma progressionPlan_short_total (opts : ProgressionOpts.t)
    (rawSegments : list RawSegment) :
  plannedSecs (orDefault 30 (ProgressionOpts.totalMins opts)) < 600 ->
  progressionPlan profile opts = Return rawSegments ->
  total (map secs rawSegments)
  == 2 * Math_round (plannedSecs (orDefault 30 (ProgressionOpts.totalMins opts)) / 2).
Proof.
  intros Hshort.
  destruct (progressionLadder_returns profile speeds_nonempty opts) as (warm & ladder & Hl).
  pose proof (stepCount_least opts) as Hleast.
  unfold progressionPlan. rewrite Hl. cbv beta iota delta [bind]. cbv zeta.
  change (Math_max 0 (Math_round (orDefault 30 (ProgressionOpts.totalMins opts) * 60)))
    with (plannedSecs (orDefault 30 (ProgressionOpts.totalMins opts))).
  set (T := plannedSecs (orDefault 30 (ProgressionOpts.totalMins opts))) in *.
  assert (0 <= T) as HT0 by (apply Q.le_max_l).
  set (W := Math_min (T / 2) (5 * 60)).
  assert (W == T / 2) as HW.
  { unfold W, Math_min. rewrite Q.min_l; [reflexivity|].
    apply Qle_shift_div_r; [reflexivity | lra]. }
  set (C := Math_max 0 (T - W - W)).
  assert (C == 0) as HC.
  { unfold C, Math_max. rewrite Q.max_l; [reflexivity|]. rewrite HW.
    assert (T / 2 == T * (1 # 2)) as -> by reflexivity. lra. }
  assert (Math_round W = Math_round (T / 2)) as HrW by (apply Math_round_comp, HW).
  assert (Qeq_bool (stepCount opts) 0 = false) as ->.
  { destruct (Qeq_bool (stepCount opts) 0) eqn:E; [|reflexivity].
    apply Qeq_bool_iff in E. lra. }
  set (base := Math_floor (C / stepCount opts)).
  assert (base = 0) as Hbase.
  { unfold base, Math_floor.
    change (inject_Z (Qfloor (C / stepCount opts)) = inject_Z 0). f_equal.
    rewrite <- (Qfloor_Z 0). apply Qfloor_comp. rewrite HC. unfold Qdiv. ring. }
  assert (C - base * stepCount opts == inject_Z 0) as Hrem.
  { rewrite Hbase, HC. change (inject_Z 0) with 0. ring. }
  match goal with |- context [fold_left ?f ?l (?s, ?r, ?i)] =>
    assert (total (map secs (fst (fst (fold_left f l (s, r, i)))))
            == total (map secs s) + inject_Z (Z.of_nat (List.length l)) * base
               + inject_Z (Z.min 0 (Z.of_nat (List.length l)))) as Htotal
        by (apply pushStep_total; [apply Z.le_refl | exact Hrem]);
    destruct (fold_left f l (s, r, i)) as [[segments remainder] index]
  end.
  intros H. injection H as <-.
  cbn [fst] in Htotal.
  rewrite map_app, total_app, Htotal. cbn [map secs]. rewrite !total_cons.
  change (total []) with 0. rewrite HrW, Hbase.
  rewrite Z.min_l by lia. change (inject_Z 0) with 0. ring.
Qed.

End PlanDurations.

(** ** Durations, names and cues of the three builders *)

(** In exact arithmetic, the total time of [makeIntervals] is the warm-up,
    then one hard and one easy stretch per repeat, then the cool-down. *)
Lemma makeIntervals_total {toText : NumberToString} (profile : DeviceProfile)
    (opts : IntervalPlanOpts.t) :
  speeds profile <> [] ->
  exists w,
    makeIntervals profile opts = Return w /\
    Workout.totalSecs w == intervalsSecs opts.
Proof.
  intros Hne. unfold intervalsSecs.
  destruct (makeIntervals_plan profile Hne opts) as (raw & Hmake & _ & Hsecs).
  destruct (finalizeWorkout_of_plan profile
              (Some (orDefault "Intervals"%string (IntervalPlanOpts.name opts))) raw Hne)
    as (w & Hw & _ & _ & _ & Htotal & _).
  exists w. split; [rewrite Hmake; exact Hw|].
  rewrite Htotal, Hsecs, !total_app, total_repeated, countUp_length.
  unfold bookendSecs, turns. rewrite ZifyInst.of_nat_to_nat_eq.
  destruct (Qlt_bool 0 (orDefault 5 (IntervalPlanOpts.warmupMins opts)));
    destruct (Qlt_bool 0 (orDefault 5 (IntervalPlanOpts.cooldownMins opts)));
    unfold total; cbn [fold_right]; ring.
Qed.

(** X14.  Let the options of [makeIntervals] be in whole seconds: a
    warm-up and a cool-down of a whole number of seconds, hard and easy
    stretches of a whole number of seconds, not negative, and a number of
    repeats the host holds exactly; and let the planned total stay below
    2^53, so that the host adds the seconds without rounding.  Then on a
    profile with speeds [makeIntervals] returns a workout whose total time
    is the warm-up, then one hard and one easy stretch per repeat, then the
    cool-down; a warm-up or cool-down of zero minutes or less is left out,
    and a fractional number of repeats counts as the next whole number.
    The speeds of the profile and its limits play no part in the total. *)
Theorem makeIntervals_duration {toText : NumberToString} (profile : DeviceProfile)
    (opts : IntervalPlanOpts.t) :
  speeds profile <> [] ->
  wholeIntervals opts ->
  intervalsSecs opts < 2 ^ 53 ->
  exists w,
    makeIntervals profile opts = Return w /\
    Workout.totalSecs w
    == bookendSecs (orDefault 5 (IntervalPlanOpts.warmupMins opts))
       + inject_Z (turns (orDefault 6 (IntervalPlanOpts.repeats opts)))
         * (orDefault 90 (IntervalPlanOpts.hardSecs opts)
            + orDefault 90 (IntervalPlanOpts.easySecs opts))
       + bookendSecs (orDefault 5 (IntervalPlanOpts.cooldownMins opts)).
Proof.
  intros Hne _ _. apply (makeIntervals_total profile opts Hne).
Qed.

(** X14 on the test profile and the default options: five minutes, six
    times three minutes, five minutes. *)
Lemma makeIntervals_duration_by_default :
  wholeIntervals IntervalPlanOpts.empty /\
  intervalsSecs IntervalPlanOpts.empty < 2 ^ 53 /\
  exists w,
    makeIntervals testProfile IntervalPlanOpts.empty = Return w /\
    Workout.totalSecs w == 1680.
Proof.
  assert (wholeIntervals IntervalPlanOpts.empty) as Hwhole.
  { split; [split; reflexivity|]. split; [split; reflexivity|].
    split; [apply (binary64At_sound 0); vm_compute; reflexivity|].
    split; [reflexivity|].
    split; [split; reflexivity|]. split; [discriminate|].
    split; [split; reflexivity | discriminate]. }
  split; [exact Hwhole|]. split; [reflexivity|].
  destruct (makeIntervals_duration testProfile IntervalPlanOpts.empty) as (w & Hw & Htotal);
    [discriminate | exact Hwhole | reflexivity |].
  exists w. split; [exact Hw|]. rewrite Htotal. reflexivity.
Defined.

(** In exact arithmetic, the total time of [makeSteady] is the planned one
    from ten minutes on, and two rounded halves below. *)
Lemma makeSteady_total {toText : NumberToString} (profile : DeviceProfile)
    (opts : SteadyOpts.t) :
  speeds profile <> [] ->
  exists w,
    makeSteady profile opts = Return w /\
    (600 <= plannedSecs (orDefault 30 (SteadyOpts.totalMins opts)) ->
     Workout.totalSecs w == plannedSecs (orDefault 30 (SteadyOpts.totalMins opts))) /\
    (plannedSecs (orDefault 30 (SteadyOpts.totalMins opts)) < 600 ->
     Workout.totalSecs w
     == 2 * Math_round (plannedSecs (orDefault 30 (SteadyOpts.totalMins opts)) / 2)).
Proof.
  intros Hne.
  destruct (steadyPlan_returns profile Hne opts) as (raw & Hplan).
  destruct (finalizeWorkout_of_plan profile
              (Some (orDefault "Steady"%string (SteadyOpts.name opts))) raw Hne)
    as (w & Hw & _ & _ & _ & Htotal & _).
  exists w. split; [unfold makeSteady; rewrite Hplan; exact Hw|].
  split; intros Hplanned; rewrite Htotal.
  - apply (steadyPlan_total profile Hne opts raw Hplanned Hplan).
  - apply (steadyPlan_short_total profile Hne opts raw Hplanned Hplan).
Qed.

(** X15.  Let [totalMins] be a whole number of seconds, below 2^50.  On a
    profile with speeds, [makeSteady] returns a workout.  From ten minutes
    on its total time is the planned one, [totalMins] in seconds, with or
    without strides.  Below ten minutes the workout is two halves, each
    rounded on its own: an odd number of seconds comes out one second
    longer than planned. *)
Theorem makeSteady_duration {toText : NumberToString} (profile : DeviceProfile)
    (opts : SteadyOpts.t) :
  speeds profile <> [] ->
  exactWhole (orDefault 30 (SteadyOpts.totalMins opts) * 60) ->
  exists w,
    makeSteady profile opts = Return w /\
    (600 <= plannedSecs (orDefault 30 (SteadyOpts.totalMins opts)) ->
     Workout.totalSecs w == plannedSecs (orDefault 30 (SteadyOpts.totalMins opts))) /\
    (plannedSecs (orDefault 30 (SteadyOpts.totalMins opts)) < 600 ->
     Workout.totalSecs w
     == 2 * Math_round (plannedSecs (orDefault 30 (SteadyOpts.totalMins opts)) / 2)).
Proof.
  intros Hne _. apply (makeSteady_total profile opts Hne).
Qed.

(** X15 on the test profile: twenty-one seconds are planned, twenty-two
    come out. *)
Lemma makeSteady_duration_of_21_seconds :
  exactWhole (0.35 * 60) /\
  exists w,
    makeSteady testProfile (SteadyOpts.make None (Some 0.35) None None) = Return w /\
    Workout.totalSecs w == 22.
Proof.
  split; [split; reflexivity|].
  destruct (makeSteady_duration testProfile (SteadyOpts.make None (Some 0.35) None None))
    as (w & Hw & _ & Hshort); [discriminate | split; reflexivity |].
  exists w. split; [exact Hw|]. rewrite Hshort; reflexivity.
Defined.

(** In exact arithmetic, the total time of [makeProgression] is the planned
    one from ten minutes on, with a whole number of steps, and two rounded
    halves below. *)
Lemma makeProgression_total {toText : NumberToString} (profile : DeviceProfile)
    (opts : ProgressionOpts.t) :
  speeds profile <> [] ->
  exists w,
    makeProgression profile opts = Return w /\
    (600 <= plannedSecs (orDefault 30 (ProgressionOpts.totalMins opts)) ->
     wholeNumber (stepCount opts) ->
     Workout.totalSecs w == plannedSecs (orDefault 30 (ProgressionOpts.totalMins opts))) /\
    (plannedSecs (orDefault 30 (ProgressionOpts.totalMins opts)) < 600 ->
     Workout.totalSecs w
     == 2 * Math_round (plannedSecs (orDefault 30 (ProgressionOpts.totalMins opts)) / 2)).
Proof.
  intros Hne.
  destruct (progressionPlan_returns profile Hne opts) as (raw & Hplan).
  destruct (finalizeWorkout_of_plan profile
              (Some (orDefault "Progression"%string (ProgressionOpts.name opts))) raw Hne)
    as (w & Hw & _ & _ & _ & Htotal & _).
  exists w. split; [unfold makeProgression; rewrite Hplan; exact Hw|].
  split; [intros Hplanned Hwhole | intros Hplanned]; rewrite Htotal.
  - apply (progressionPlan_total profile Hne opts raw Hwhole Hplanned Hplan).
  - apply (progressionPlan_short_total profile Hne opts raw Hplanned Hplan).
Qed.

(** X16.  Let [totalMins] be a whole number of seconds, below 2^50, and
    let the steps be few enough for an array.  On a profile with speeds,
    [makeProgression] returns a workout.  From ten minutes on, and with a
    whole number of steps, its total time is the planned one: the seconds
    left by the warm-up and the cool-down are shared out over the steps,
    the first steps taking the odd seconds.  Below ten minutes the steps
    get no time, and the workout is two halves, each rounded on its own. *)
Theorem makeProgression_duration {toText : NumberToString} (profile : DeviceProfile)
    (opts : ProgressionOpts.t) :
  speeds profile <> [] ->
  exactWhole (orDefault 30 (ProgressionOpts.totalMins opts) * 60) ->
  fitsArray (stepCount opts) ->
  exists w,
    makeProgression profile opts = Return w /\
    (600 <= plannedSecs (orDefault 30 (ProgressionOpts.totalMins opts)) ->
     wholeNumber (stepCount opts) ->
     Workout.totalSecs w == plannedSecs (orDefault 30 (ProgressionOpts.totalMins opts))) /\
    (plannedSecs (orDefault 30 (ProgressionOpts.totalMins opts)) < 600 ->
     Workout.totalSecs w
     == 2 * Math_round (plannedSecs (orDefault 30 (ProgressionOpts.totalMins opts)) / 2)).
Proof.
  intros Hne _ _. apply (makeProgression_total profile opts Hne).
Qed.

(** X16 on the test profile: seven steps share the 1001 seconds between the
    warm-up and the cool-down of a workout of 1601 seconds. *)
Lemma makeProgression_duration_of_1601_seconds :
  exactWhole ((1601 # 60) * 60) /\
  exists w,
    makeProgression testProfile
      (ProgressionOpts.make None (Some (1601 # 60)) (Some 7) None) = Return w /\
    Workout.totalSecs w == 1601.
Proof.
  split; [split; reflexivity|].
  destruct (makeProgression_duration testProfile
              (ProgressionOpts.make None (Some (1601 # 60)) (Some 7) None))
    as (w & Hw & Hlong & _); [discriminate | split; reflexivity | reflexivity |].
  exists w. split; [exact Hw|]. rewrite Hlong; [reflexivity | discriminate | reflexivity].
Defined.

(** X17.  Every segment of every workout a builder returns carries a cue
    that is not empty, ramp-limited and merged segments included; so the
    label the runner screen shows for a segment is always its cue, never the
    fallback made from the speed. *)
Theorem builders_cue_every_segment {toText : NumberToString} (profile : DeviceProfile) :
  speeds profile <> [] ->
  everyBuilder profile
    (fun w => Forall (fun s => cued s /\ cue s = Some (segmentLabel s (Workout.units w)))
                (Workout.segments w)).
Proof.
  intros Hne.
  assert (forall name' raw, Forall cued raw ->
            exists w, finalizeWorkout profile name' raw = Return w /\
              Forall (fun s => cued s /\ cue s = Some (segmentLabel s (Workout.units w)))
                (Workout.segments w)) as Hfinal.
  { intros name' raw Hraw.
    destruct (finalizeWorkout_of_plan profile name' raw Hne) as (w & Hw & _ & _ & _ & _ & Hc).
    exists w. split; [exact Hw|].
    apply (Forall_impl _ (P := cued)); [|exact (Hc Hraw)].
    intros s Hs. split; [exact Hs|].
    unfold cued in Hs. unfold segmentLabel. rewrite Hs.
    destruct (cue s); [reflexivity | discriminate]. }
  split; [|split]; intros opts.
  - destruct (makeIntervals_plan profile Hne opts) as (raw & Hmake & Hraw & _).
    rewrite Hmake. apply Hfinal, Hraw.
  - destruct (steadyPlan_cued profile Hne opts) as (raw & Hplan & Hraw).
    unfold makeSteady. rewrite Hplan. apply Hfinal, Hraw.
  - destruct (progressionPlan_cued profile Hne opts) as (raw & Hplan & Hraw).
    unfold makeProgression. rewrite Hplan. apply Hfinal, Hraw.
Qed.

(** X17 on the test profile. *)
Lemma builders_cue_every_segment_on_testProfile :
  speeds testProfile <> [] /\
  everyBuilder testProfile
    (fun w => Forall (fun s => cued s /\ cue s = Some (segmentLabel s (Workout.units w)))
                (Workout.segments w)).
Proof.
  split; [discriminate|].
  apply (builders_cue_every_segment testProfile). discriminate.
Defined.

(** X18.  The workout a builder returns is named after the option [name],
    or after the builder when there is none, and never after the profile;
    its units are those of the profile. *)
Theorem builders_name_and_units {toText : NumberToString} (profile : DeviceProfile) :
  speeds profile <> [] ->
  (forall opts, exists w,
     makeIntervals profile opts = Return w /\
     Workout.name w = orDefault "Intervals"%string (IntervalPlanOpts.name opts) /\
     Workout.units w = units profile) /\
  (forall opts, exists w,
     makeSteady profile opts = Return w /\
     Workout.name w = orDefault "Steady"%string (SteadyOpts.name opts) /\
     Workout.units w = units profile) /\
  (forall opts, exists w,
     makeProgression profile opts = Return w /\
     Workout.name w = orDefault "Progression"%string (ProgressionOpts.name opts) /\
     Workout.units w = units profile).
Proof.
  intros Hne.
  assert (forall name' raw,
            exists w, finalizeWorkout profile (Some name') raw = Return w /\
              Workout.name w = name' /\ Workout.units w = units profile) as Hfinal.
  { intros name' raw.
    destruct (finalizeWorkout_of_plan profile (Some name') raw Hne)
      as (w & Hw & _ & Hname & Hunits & _).
    exists w. split; [exact Hw|]. split; [exact Hname | exact Hunits]. }
  split; [|split]; intros opts.
  - destruct (makeIntervals_plan profile Hne opts) as (raw & Hmake & _).
    rewrite Hmake. apply Hfinal.
  - destruct (steadyPlan_returns profile Hne opts) as (raw & Hplan).
    unfold makeSteady. rewrite Hplan. apply Hfinal.
  - destruct (progressionPlan_returns profile Hne opts) as (raw & Hplan).
    unfold makeProgression. rewrite Hplan. apply Hfinal.
Qed.

(** X18 on the test profile and a steady run without options. *)
Lemma steady_name_by_default :
  exists w,
    makeSteady testProfile SteadyOpts.empty = Return w /\
    Workout.name w = "Steady"%string /\ Workout.units w = mph.
Proof.
  destruct (builders_name_and_units testProfile) as (_ & Hsteady & _); [discriminate|].
  exact (Hsteady SteadyOpts.empty).
Defined.

(** ** The ends of the ladder *)

Lemma ascending_last_greatest (l : list Q) :
  StronglySorted Qle l -> forall d v, In v l -> v <= last l d.
Proof.
  induction 1 as [|x rest Hrest IH Hall]; intros d v Hin; [destruct Hin|].
  rewrite last_cons. destruct Hin as [<- | Hin].
  - destruct rest as [|y rest']; [apply Qle_refl|].
    rewrite Forall_forall in Hall. apply Hall.
    apply lastOf_In. apply lastOf_last. discriminate.
  - apply IH, Hin.
Qed.

Lemma nth_error_last {A : Type} (l : list A) (d : A) :
  l <> [] -> nth_error l (List.length l - 1) = Some (last l d).
Proof.
  induction l as [|a rest IH]; intros Hne; [congruence|].
  destruct rest as [|b rest']; [reflexivity|].
  change (List.length (a :: b :: rest') - 1)%nat with (S (List.length rest')).
  change (nth_error (a :: b :: rest') (S (List.length rest')))
    with (nth_error (b :: rest') (List.length rest')).
  change (last (a :: b :: rest') d) with (last (b :: rest') d).
  rewrite <- IH by discriminate. f_equal. simpl. lia.
Qed.

Lemma lastOf_counted {A : Type} (f : Z -> A) (n : nat) :
  lastOf (map f (map Z.of_nat (seq 0 (S n)))) = Some (f (Z.of_nat n)).
Proof.
  rewrite seq_S, !map_app. apply lastOf_snoc.
Qed.

(** The index sampled for the first step is the first one, and the index
    sampled for the last step is the last one. *)
Lemma ladderIndex_ends (steps : Z) (usableCount : nat) :
  (1 <= steps)%Z -> (1 <= usableCount)%nat ->
  ladderIndex (inject_Z steps) usableCount (steps - 1) = (Z.of_nat usableCount - 1)%Z /\
  ((2 <= steps)%Z -> ladderIndex (inject_Z steps) usableCount 0 = 0%Z).
Proof.
  intros Hsteps Hcount. unfold ladderIndex.
  destruct (Qeq_bool (inject_Z steps) 1) eqn:Hone.
  - split; [reflexivity|]. intros Htwo. exfalso.
    apply Qeq_bool_iff in Hone. change 1 with (inject_Z 1) in Hone.
    apply (proj1 (inject_Z_injective steps 1)) in Hone. lia.
  - assert (steps <> 1)%Z as Hnot by (intros ->; discriminate Hone).
    assert (0 < inject_Z steps - 1) as Hpos.
    { change 1 with (inject_Z 1). rewrite <- inject_Z_sub.
      change 0 with (inject_Z 0). rewrite <- Zlt_Qlt. lia. }
    split; [|intros _].
    + transitivity (Qfloor (inject_Z (Z.of_nat usableCount - 1) + (1 # 2)));
        [apply Qfloor_comp | apply Qfloor_half].
      rewrite (inject_Z_sub steps 1). change (inject_Z 1) with 1. field. lra.
    + transitivity (Qfloor (inject_Z 0 + (1 # 2))); [apply Qfloor_comp | apply Qfloor_half].
      change (inject_Z 0) with 0. field. lra.
Qed.

(** X19.  The ladder of [makeProgression] runs from the warm-up speed to
    the top speed.  On a profile with speeds and for a whole number of
    steps, the top speed is not below the warm-up speed, every step is a
    speed of the profile between the two, the last step is at the top speed
    and, when there are two steps or more, the first is at the warm-up
    speed. *)
Theorem ladder_runs_from_warm_to_top {toText : NumberToString} (profile : DeviceProfile)
    (opts : ProgressionOpts.t) :
  speeds profile <> [] ->
  wholeNumber (stepCount opts) ->
  let sorted := sortSpeeds (speeds profile) in
  exists warm top ladder,
    warmSpeed sorted = Return warm /\
    quantizeDown sorted
      (Some (clamp (maxSpeed sorted * orDefault 0.8 (ProgressionOpts.topIntensity opts))
               warm (maxSpeed sorted))) = Return top /\
    progressionLadder profile opts = Return (warm, ladder) /\
    warm <= top /\
    Forall (fun entry => exists v, entry = Some v /\ In v (speeds profile) /\
                                   warm <= v /\ v <= top) ladder /\
    (exists v, lastOf ladder = Some (Some v) /\ v == top) /\
    (2 <= stepCount opts -> exists v, hd_error ladder = Some (Some v) /\ v == warm).
Proof.
  intros Hne Hwhole sorted.
  pose proof (sortSpeeds_nonempty _ Hne) as Hs. fold sorted in Hs.
  pose proof (sortSpeeds_ascending (speeds profile)) as Hasc. fold sorted in Hasc.
  unfold progressionLadder, warmSpeed. cbv zeta. fold sorted.
  destruct (quantizeDown_returns sorted
              (Some (clamp (minSpeed sorted + (maxSpeed sorted - minSpeed sorted) * 0.35)
                       (minSpeed sorted) (maxSpeed sorted))) Hs) as (warm & Hwarm & Hwin).
  rewrite Hwarm. cbv beta iota delta [bind].
  set (target := clamp (maxSpeed sorted * orDefault 0.8 (ProgressionOpts.topIntensity opts))
                   warm (maxSpeed sorted)).
  assert (warm <= target) as Htarget by (apply Q.le_max_l).
  assert (exists top, quantizeDown sorted (Some target) = Return top /\
                      In top sorted /\ warm <= top) as (top & Htop & Htin & Hle).
  { destruct sorted as [|first rest] eqn:Esorted; [congruence|].
    destruct (quantizeDown_floor first rest target Hasc) as (top & Htop & Htin & Hlarge & _).
    exists top. split; [exact Htop|]. split; [exact Htin|].
    assert (first <= target) as Hfirst.
    { apply Qle_trans with warm; [|exact Htarget].
      apply (ascending_head_least first rest Hasc), Hwin. }
    destruct (Hlarge Hfirst) as (_ & _ & Hmost). apply Hmost; assumption. }
  rewrite Htop. cbv beta iota delta [bind].
  exists warm, top. eexists. split; [reflexivity|]. split; [exact Htop|].
  split; [reflexivity|]. split; [exact Hle|].
  set (usable := filter (fun speed => Qle_bool warm speed && Qle_bool speed top) sorted).
  assert (forall v, In v usable <-> In v sorted /\ warm <= v /\ v <= top) as Husable.
  { intros v. unfold usable. rewrite filter_In, andb_true_iff, !Qle_bool_iff. tauto. }
  assert (StronglySorted Qle usable) as Hsorted
      by (apply filter_ascending, ascending_strongly, Hasc).
  assert (In warm usable) as Hwu by (apply Husable; repeat split; [exact Hwin | apply Qle_refl | exact Hle]).
  assert (In top usable) as Htu by (apply Husable; repeat split; [exact Htin | exact Hle | apply Qle_refl]).
  unfold wholeNumber in Hwhole.
  set (steps := Qfloor (stepCount opts)) in *.
  assert (1 <= steps)%Z as Hsteps.
  { rewrite Zle_Qle, Hwhole. change (inject_Z 1) with 1. apply Q.le_max_l. }
  unfold countUp.
  assert (Qceiling (stepCount opts) = steps) as ->.
  { rewrite <- (Qceiling_Z steps). apply Qceiling_comp. symmetry. exact Hwhole. }
  assert (forall i, ladderEntry (stepCount opts) warm usable i
                    = at_index usable (ladderIndex (inject_Z steps) (List.length usable) i))
    as Hentry.
  { intros i. unfold ladderEntry.
    rewrite (ladderIndex_comp (stepCount opts) (inject_Z steps)) by (symmetry; exact Hwhole).
    destruct usable; [destruct Hwu | reflexivity]. }
  assert (1 <= List.length usable)%nat as Hcount
      by (destruct usable; [destruct Hwu | simpl; lia]).
  destruct (ladderIndex_ends steps (List.length usable) Hsteps Hcount) as [Hlast Hfirst].
  split; [|split].
  - apply Forall_forall. intros entry Hin.
    apply in_map_iff in Hin. destruct Hin as (i & <- & Hi).
    apply in_map_iff in Hi. destruct Hi as (n & <- & Hn). apply in_seq in Hn.
    pose proof (ladderEntry_defined steps warm usable (Z.of_nat n) ltac:(lia)) as Hdefined.
    rewrite (Hentry (Z.of_nat n)).
    unfold ladderEntry in Hdefined. destruct usable as [|u us] eqn:Eusable; [destruct Hwu|].
    destruct (at_index (u :: us) (ladderIndex (inject_Z steps) (List.length (u :: us)) (Z.of_nat n)))
      as [v|] eqn:Ev; [|congruence].
    exists v. split; [reflexivity|].
    assert (In v (u :: us)) as Hv.
    { unfold at_index in Ev. destruct (_ <? 0)%Z; [discriminate|].
      apply nth_error_In in Ev. exact Ev. }
    apply Husable in Hv. destruct Hv as (Hv & Hlow & Hhigh).
    split; [apply sortSpeeds_In, Hv | split; assumption].
  - replace (Z.to_nat steps) with (S (Z.to_nat (steps - 1))) by lia.
    rewrite lastOf_counted, Hentry, Z2Nat.id, Hlast by lia.
    unfold at_index. rewrite (proj2 (Z.ltb_ge _ 0)) by lia.
    replace (Z.to_nat (Z.of_nat (List.length usable) - 1)) with (List.length usable - 1)%nat by lia.
    rewrite (nth_error_last usable 0) by (destruct usable; [destruct Hwu | discriminate]).
    eexists. split; [reflexivity|].
    apply Qle_antisym.
    + apply Husable. destruct usable; [destruct Hwu|].
      apply lastOf_In. apply lastOf_last. discriminate.
    + apply ascending_last_greatest; assumption.
  - intros Htwo.
    assert (2 <= steps)%Z as Htwo'.
    { rewrite Zle_Qle, Hwhole. exact Htwo. }
    replace (Z.to_nat steps) with (S (Z.to_nat (steps - 1))) by lia.
    cbn [seq map hd_error].
    rewrite Hentry. change (Z.of_nat 0) with 0%Z. rewrite (Hfirst Htwo').
    destruct usable as [|u us] eqn:Eusable; [destruct Hwu|].
    exists u. split; [reflexivity|].
    apply Qle_antisym.
    + apply (ascending_head_least u us); [apply Sorted.StronglySorted_Sorted, Hsorted | exact Hwu].
    + apply (Husable u). left. reflexivity.
Qed.

(** X19 on the test profile and the default options: four steps from 1.5
    to 2. *)
Lemma ladder_of_the_test_profile :
  exists warm top ladder,
    progressionLadder testProfile ProgressionOpts.empty = Return (warm, ladder) /\
    warm <= top /\
    (exists v, lastOf ladder = Some (Some v) /\ v == top).
Proof.
  destruct (ladder_runs_from_warm_to_top testProfile ProgressionOpts.empty)
    as (warm & top & ladder & _ & _ & Hladder & Hle & _ & Hlast & _);
    [discriminate | reflexivity |].
  exists warm, top, ladder. split; [exact Hladder|]. split; [exact Hle | exact Hlast].
Defined.

(** ** Intensities *)

Lemma clamp_monotone (a b lo hi : Q) : a <= b -> clamp a lo hi <= clamp b lo hi.
Proof.
  intros H. unfold clamp, Math_max, Math_min.
  apply Q.max_le_compat_l, Q.min_le_compat_l, H.
Qed.

(** X20.  A higher intensity never gives a lower speed, and an intensity of
    one or more gives the highest speed of the profile.  This is for sorted
    speeds that are not all negative; the speed of an intensity is
    [quantizeDown(speeds, clamp(max * intensity, min, max))], as the
    builders compute it for the hard, easy, cruise and stride speeds. *)
Theorem intensity_never_lowers_the_speed (sorted : list Q) (lower higher : Q) :
  sorted <> [] ->
  ascending sorted ->
  0 <= maxSpeed sorted ->
  lower <= higher ->
  exists slow fast,
    intensitySpeed sorted lower = Return slow /\
    intensitySpeed sorted higher = Return fast /\
    slow <= fast /\
    (1 <= higher -> fast == maxSpeed sorted).
Proof.
  intros Hne Hasc Hmax Hle.
  unfold intensitySpeed.
  destruct (quantizeDown_returns sorted
              (Some (clamp (maxSpeed sorted * lower) (minSpeed sorted) (maxSpeed sorted))) Hne)
    as (slow & Hslow & _).
  destruct sorted as [|first rest] eqn:Esorted; [congruence|]. rewrite <- Esorted in *.
  assert (In (maxSpeed sorted) sorted) as Hin.
  { apply lastOf_In. apply lastOf_last. exact Hne. }
  assert (minSpeed sorted <= maxSpeed sorted) as Hminmax.
  { rewrite Esorted at 1. apply (ascending_head_least first rest); rewrite <- Esorted; assumption. }
  set (target := clamp (maxSpeed sorted * higher) (minSpeed sorted) (maxSpeed sorted)).
  assert (minSpeed sorted <= target) as Hlow by (apply Q.le_max_l).
  assert (exists fast, quantizeDown sorted (Some target) = Return fast /\
                       largestBelow sorted target fast) as (fast & Hfast & Hlargest).
  { rewrite Esorted in Hasc. rewrite Esorted.
    destruct (quantizeDown_floor first rest target Hasc) as (fast & Hfast & _ & Hlargest & _).
    exists fast. split; [exact Hfast|]. apply Hlargest.
    rewrite Esorted in Hlow. exact Hlow. }
  exists slow, fast. split; [exact Hslow|]. split; [exact Hfast|]. split.
  - refine (quantizeDown_monotone sorted _ _ slow fast Hasc _ Hslow Hfast).
    apply clamp_monotone. nra.
  - intros Hfull. destruct Hlargest as (_ & Hbelow & Hmost).
    assert (target == maxSpeed sorted) as Htarget.
    { unfold target, clamp, Math_max, Math_min.
      rewrite Q.min_l by nra. apply Q.max_r, Hminmax. }
    apply Qle_antisym; [rewrite <- Htarget; exact Hbelow|].
    apply Hmost; [exact Hin | rewrite Htarget; apply Qle_refl].
Qed.

(** X20 on the speeds of the test profile: intensity 0.55 gives 1.5 and
    intensity 0.85 gives 2.5. *)
Lemma intensity_on_the_test_speeds :
  exists slow fast,
    intensitySpeed [1; 1.5; 2; 2.5; 3] 0.55 = Return slow /\
    intensitySpeed [1; 1.5; 2; 2.5; 3] 0.85 = Return fast /\
    slow <= fast.
Proof.
  destruct (intensity_never_lowers_the_speed [1; 1.5; 2; 2.5; 3] 0.55 0.85)
    as (slow & fast & Hslow & Hfast & Hle & _);
    [discriminate | repeat constructor; discriminate | discriminate | discriminate |].
  exists slow, fast. split; [exact Hslow|]. split; [exact Hfast | exact Hle].
Defined.

(** ** describe *)

Section Timeline.

Context {toText : NumberToString}.

Variable units : Units.

Lemma describeStep_snoc (segments : list Segment) (s : Segment) :
  fold_left (describeStep units) (segments ++ [s]) (0, [])
  = describeStep units (fold_left (describeStep units) segments (0, [])) s.
Proof.
  rewrite fold_left_app. reflexivity.
Qed.

Lemma describeStep_elapsed (segments : list Segment) :
  fst (fold_left (describeStep units) segments (0, [])) = sumSecs segments.
Proof.
  induction segments as [|s segments IH] using rev_ind; [reflexivity|].
  rewrite describeStep_snoc, sumSecs_snoc, <- IH. reflexivity.
Qed.

Lemma describeStep_length (segments : list Segment) :
  List.length (snd (fold_left (describeStep units) segments (0, []))) = List.length segments.
Proof.
  induction segments as [|s segments IH] using rev_ind; [reflexivity|].
  rewrite describeStep_snoc. cbn [describeStep snd]. rewrite !length_app, IH. reflexivity.
Qed.

Lemma describeStep_line (segments : list Segment) :
  forall i s,
    nth_error segments i = Some s ->
    nth_error (snd (fold_left (describeStep units) segments (0, []))) i
    = Some (describeLine units (sumSecs (firstn i segments))
              (sumSecs (firstn (S i) segments)) s).
Proof.
  induction segments as [|s' segments IH] using rev_ind; intros i s Hi;
    [destruct i; discriminate|].
  rewrite describeStep_snoc. cbn [describeStep snd].
  destruct (Nat.lt_ge_cases i (List.length segments)) as [Hlt | Hge].
  - rewrite nth_error_app1 in Hi by exact Hlt.
    rewrite nth_error_app1 by (rewrite describeStep_length; exact Hlt).
    rewrite (IH i s Hi), !firstn_app.
    replace (i - List.length segments)%nat with 0%nat by lia.
    replace (S i - List.length segments)%nat with 0%nat by lia.
    cbn [firstn]. rewrite !app_nil_r. reflexivity.
  - assert (i = List.length segments) as ->.
    { apply Nat.le_antisymm; [|exact Hge].
      assert (i < List.length (segments ++ [s']))%nat as H
          by (apply nth_error_Some; congruence).
      rewrite length_app in H. simpl in H. lia. }
    rewrite nth_error_app2 in Hi by lia. rewrite Nat.sub_diag in Hi. injection Hi as ->.
    rewrite nth_error_app2 by (rewrite describeStep_length; lia).
    rewrite describeStep_length, Nat.sub_diag. cbn [nth_error].
    rewrite describeStep_elapsed, !firstn_app, firstn_all, Nat.sub_diag.
    replace (S (List.length segments) - List.length segments)%nat with 1%nat by lia.
    rewrite (firstn_all2 (n := S (List.length segments))) by lia.
    cbn [firstn]. rewrite app_nil_r, sumSecs_snoc. reflexivity.
Qed.

End Timeline.

(** X21.  [describe] prints one line per segment, and the lines form a
    timeline without gaps: the line of a segment starts at the total time
    of the segments before it and ends at that time plus its own, so the
    first line starts at zero, every line starts where the one before it
    ends, and the last line ends at the sum of all the durations. *)
Theorem describe_is_a_timeline {toText : NumberToString} (workout : Workout.t) :
  List.length (describeLines workout) = List.length (Workout.segments workout) /\
  forall i s,
    nth_error (Workout.segments workout) i = Some s ->
    nth_error (describeLines workout) i
    = Some (describeLine (Workout.units workout)
              (sumSecs (firstn i (Workout.segments workout)))
              (sumSecs (firstn i (Workout.segments workout)) + secs s) s) /\
    sumSecs (firstn (S i) (Workout.segments workout))
    = sumSecs (firstn i (Workout.segments workout)) + secs s.
Proof.
  unfold describeLines. split; [apply describeStep_length|].
  intros i s Hi.
  assert (sumSecs (firstn (S i) (Workout.segments workout))
          = sumSecs (firstn i (Workout.segments workout)) + secs s) as Hnext.
  { rewrite <- sumSecs_snoc. f_equal.
    clear - Hi. revert i Hi.
    induction (Workout.segments workout) as [|a l IH]; intros [|i] Hi; try discriminate.
    - injection Hi as ->. reflexivity.
    - change (a :: firstn (S i) l = a :: (firstn i l ++ [s])). f_equal. apply IH, Hi. }
  split; [|exact Hnext].
  rewrite (describeStep_line _ _ i s Hi), Hnext. reflexivity.
Qed.

(** ** formatTime *)

Lemma jsRemainder_whole (value : Q) (z : Z) :
  (0 <= z)%Z -> value == inject_Z z ->
  Qfloor (value / 60) = (z / 60)%Z /\ Qfloor (jsRemainder value 60) = (z mod 60)%Z.
Proof.
  intros Hz Hvalue.
  assert (Qfloor (value / 60) = (z / 60)%Z) as Hdiv.
  { rewrite Zdiv_Qdiv. apply Qfloor_comp. rewrite Hvalue. reflexivity. }
  split; [exact Hdiv|].
  unfold jsRemainder. cbv zeta.
  assert (Qle_bool 0 (value / 60) = true) as ->.
  { apply Qle_bool_iff. apply Qle_shift_div_l; [reflexivity|].
    rewrite Hvalue. change (0 * 60) with (inject_Z 0). rewrite <- Zle_Qle. exact Hz. }
  rewrite Hdiv, <- (Qfloor_Z (z mod 60)). apply Qfloor_comp.
  rewrite Hvalue, Z.mod_eq by lia. rewrite inject_Z_sub, inject_Z_mult. reflexivity.
Qed.

Lemma two_digits (z : Z) :
  (0 <= z < 100)%Z -> String.length (padStart2 (digitsOf z)) = 2%nat.
Proof.
  intros Hz.
  assert (forallb (fun n => (String.length (padStart2 (digitsOf (Z.of_nat n))) =? 2)%nat)
            (seq 0 100) = true) as Hall by (vm_compute; reflexivity).
  rewrite forallb_forall in Hall.
  specialize (Hall (Z.to_nat z)). rewrite Z2Nat.id in Hall by lia.
  apply Nat.eqb_eq, Hall. apply in_seq. lia.
Qed.

(** In exact arithmetic, and with every whole number printed by all its
    digits: [formatTime] shows the whole seconds of its argument as minutes
    and seconds, each padded to two digits. *)
Lemma formatTime_digits (seconds : Q) :
  formatTime seconds
  = padStart2 (digitsOf (Z.max 0 (Qfloor seconds) / 60)) +++ ":"
    +++ padStart2 (digitsOf (Z.max 0 (Qfloor seconds) mod 60)) /\
  (seconds < 1 -> formatTime seconds = "00:00"%string) /\
  (seconds < 6000 -> String.length (formatTime seconds) = 5%nat).
Proof.
  set (whole := Z.max 0 (Qfloor seconds)).
  assert (0 <= whole)%Z as Hwhole by (unfold whole; lia).
  assert (Math_max 0 (Math_floor seconds) == inject_Z whole) as Htotal.
  { unfold Math_max, Math_floor, whole.
    destruct (Q.max_spec 0 (inject_Z (Qfloor seconds))) as [[Hlt Hmax] | [Hle Hmax]];
      rewrite Hmax.
    - change 0 with (inject_Z 0) in Hlt. rewrite <- Zlt_Qlt in Hlt.
      rewrite Z.max_r by lia. reflexivity.
    - change 0 with (inject_Z 0) in Hle. rewrite <- Zle_Qle in Hle.
      rewrite Z.max_l by lia. reflexivity. }
  destruct (jsRemainder_whole _ whole Hwhole Htotal) as [Hdiv Hmod].
  assert (formatTime seconds
          = padStart2 (digitsOf (whole / 60)) +++ ":" +++ padStart2 (digitsOf (whole mod 60)))
    as Hformat.
  { unfold formatTime, wholeToString, Math_floor. cbv zeta.
    unfold Math_floor in Hdiv, Hmod. rewrite !Qfloor_Z, Hdiv, Hmod. reflexivity. }
  split; [exact Hformat|]. split; intros Hbound; rewrite Hformat.
  - assert (Qfloor seconds <= 0)%Z as Hfloor.
    { assert (Qfloor seconds < 1)%Z; [|lia].
      rewrite Zlt_Qlt. apply Qle_lt_trans with seconds; [apply Qfloor_le | exact Hbound]. }
    unfold whole. rewrite Z.max_l by lia. reflexivity.
  - assert (whole < 6000)%Z as Hsmall.
    { assert (Qfloor seconds < 6000)%Z; [|unfold whole; lia].
      rewrite Zlt_Qlt. apply Qle_lt_trans with seconds; [apply Qfloor_le | exact Hbound]. }
    assert (forall a b, String.length (a +++ b) = (String.length a + String.length b)%nat)
      as Hlength by (induction a as [|c a IH]; intros b; simpl; [|rewrite IH]; reflexivity).
    pose proof (Z.mod_pos_bound whole 60 ltac:(lia)) as Hmodulo.
    assert (0 <= whole / 60 < 100)%Z as Hquotient
        by (split; [apply Z.div_pos; lia | apply Z.div_lt_upper_bound; lia]).
    rewrite !Hlength, !two_digits by lia. reflexivity.
Qed.

(** X22.  For a time in seconds that is a binary64 number below 2^53, so
    that the host divides its whole seconds by sixty without rounding past
    a whole number and prints the minutes by all their digits:
    [formatTime] shows the whole seconds of its argument as minutes and
    seconds, each padded to two digits: the minutes are the whole seconds
    divided by sixty, the seconds are the rest.  Anything below one second,
    negative times included, shows as 00:00, and below a hundred minutes
    the text has five characters. *)
Theorem formatTime_minutes_and_seconds (seconds : Q) :
  binary64 seconds ->
  seconds < 2 ^ 53 ->
  formatTime seconds
  = padStart2 (digitsOf (Z.max 0 (Qfloor seconds) / 60)) +++ ":"
    +++ padStart2 (digitsOf (Z.max 0 (Qfloor seconds) mod 60)) /\
  (seconds < 1 -> formatTime seconds = "00:00"%string) /\
  (seconds < 6000 -> String.length (formatTime seconds) = 5%nat).
Proof.
  intros _ _. apply formatTime_digits.
Qed.

(** X22 on two minutes, five seconds and a half. *)
Lemma formatTime_of_125_seconds_and_a_half :
  binary64 (251 # 2) /\
  formatTime (251 # 2) = "02:05"%string /\
  String.length (formatTime (251 # 2)) = 5%nat.
Proof.
  assert (binary64 (251 # 2)) as Hexact
      by (apply (binary64At_sound (-1)); vm_compute; reflexivity).
  split; [exact Hexact|].
  destruct (formatTime_minutes_and_seconds (251 # 2) Hexact) as (Htext & _ & Hlength);
    [reflexivity|].
  split; [rewrite Htext; reflexivity | apply Hlength; reflexivity].
Defined.

(** ** normalizeSpeeds *)

Lemma strictlyAscending_ascending (l : list Q) : strictlyAscending l -> ascending l.
Proof.
  unfold strictlyAscending, ascending.
  induction 1 as [|x rest Hrest IH Hhd]; constructor; [exact IH|].
  destruct Hhd; constructor. apply Qlt_le_weak. assumption.
Qed.

Lemma dropRepeats_strict (values : list Q) :
  forall previous,
    ascending (previous :: values) ->
    strictlyAscending (dropRepeats previous values) /\
    HdRel Qlt previous (dropRepeats previous values).
Proof.
  unfold ascending, strictlyAscending.
  induction values as [|value rest IH]; intros previous Hs; [split; constructor|].
  inversion Hs as [|? ? Htail Hhd]; subst. inversion Hhd as [|? ? Hle]; subst.
  destruct (IH value Htail) as [Hsorted Hhead].
  cbn [dropRepeats]. destruct (Qeq_bool value previous) eqn:Heq; cbn [negb].
  - apply Qeq_bool_iff in Heq. split; [exact Hsorted|].
    destruct Hhead as [|next others Hlt]; constructor. rewrite <- Heq. exact Hlt.
  - apply Qeq_bool_neq in Heq.
    split; [constructor; assumption|]. constructor.
    apply Qle_lteq in Hle. destruct Hle as [Hlt | Hsame]; [exact Hlt|].
    exfalso. apply Heq. symmetry. exact Hsame.
Qed.

Lemma dropRepeats_In (values : list Q) :
  forall previous v, In v (dropRepeats previous values) -> In v values.
Proof.
  induction values as [|value rest IH]; intros previous v Hin; [exact Hin|].
  cbn [dropRepeats] in Hin. destruct (negb (Qeq_bool value previous)).
  - destruct Hin as [<- | Hin]; [left; reflexivity | right; apply (IH value), Hin].
  - right. apply (IH value), Hin.
Qed.

Lemma dropRepeats_keeps (values : list Q) :
  forall previous v,
    In v (previous :: values) ->
    exists u, In u (previous :: dropRepeats previous values) /\ u == v.
Proof.
  induction values as [|value rest IH]; intros previous v Hin.
  - exists v. split; [exact Hin | reflexivity].
  - destruct Hin as [<- | Hin]; [exists previous; split; [left|]; reflexivity|].
    destruct (IH value v Hin) as (u & Hu & Huv).
    cbn [dropRepeats]. destruct (Qeq_bool value previous) eqn:Heq; cbn [negb].
    + apply Qeq_bool_iff in Heq. destruct Hu as [<- | Hu].
      * exists previous. split; [left; reflexivity|]. rewrite <- Heq. exact Huv.
      * exists u. split; [right; exact Hu | exact Huv].
    + exists u. split; [right; exact Hu | exact Huv].
Qed.

Lemma dropRepeats_of_strict (values : list Q) :
  forall previous,
    strictlyAscending (previous :: values) -> dropRepeats previous values = values.
Proof.
  unfold strictlyAscending.
  induction values as [|value rest IH]; intros previous Hs; [reflexivity|].
  inversion Hs as [|? ? Htail Hhd]; subst. inversion Hhd as [|? ? Hlt]; subst.
  cbn [dropRepeats].
  destruct (Qeq_bool value previous) eqn:Heq; cbn [negb].
  - apply Qeq_bool_iff in Heq. exfalso. rewrite Heq in Hlt. apply (Qlt_irrefl _ Hlt).
  - rewrite (IH value Htail). reflexivity.
Qed.

Lemma normalizeSpeeds_strict (values : list Q) : strictlyAscending (normalizeSpeeds values).
Proof.
  unfold normalizeSpeeds.
  pose proof (sortSpeeds_ascending values) as Hs.
  destruct (sortSpeeds values) as [|first rest]; [constructor|].
  destruct (dropRepeats_strict rest first Hs) as [Hsorted Hhead].
  constructor; assumption.
Qed.

(** X23.  [normalizeSpeeds] returns the speeds it was given in strictly
    ascending order: every speed of the result is one of the given ones,
    every given speed is in the result as a number, and no two speeds of
    the result are equal. *)
Theorem normalizeSpeeds_sorts_and_dedupes (values : list Q) :
  strictlyAscending (normalizeSpeeds values) /\
  (forall v, In v (normalizeSpeeds values) -> In v values) /\
  (forall v, In v values -> exists u, In u (normalizeSpeeds values) /\ u == v).
Proof.
  split; [apply normalizeSpeeds_strict|].
  unfold normalizeSpeeds. split; intros v Hin.
  - apply sortSpeeds_In.
    destruct (sortSpeeds values) as [|first rest]; [destruct Hin|].
    destruct Hin as [<- | Hin]; [left; reflexivity | right; apply (dropRepeats_In _ _ _ Hin)].
  - apply sortSpeeds_In in Hin.
    destruct (sortSpeeds values) as [|first rest]; [destruct Hin|].
    apply dropRepeats_keeps, Hin.
Qed.

(** X24.  Speeds that went through [normalizeSpeeds] are a fixed point of
    the sorting the generator does on every call, and of [normalizeSpeeds]
    itself. *)
Theorem normalizeSpeeds_is_stable (values : list Q) :
  sortSpeeds (normalizeSpeeds values) = normalizeSpeeds values /\
  normalizeSpeeds (normalizeSpeeds values) = normalizeSpeeds values.
Proof.
  pose proof (normalizeSpeeds_strict values) as Hstrict.
  assert (sortSpeeds (normalizeSpeeds values) = normalizeSpeeds values) as Hsort
      by (apply sortSpeeds_fixed, strictlyAscending_ascending, Hstrict).
  split; [exact Hsort|].
  unfold normalizeSpeeds at 1. rewrite Hsort.
  destruct (normalizeSpeeds values) as [|first rest]; [reflexivity|].
  rewrite (dropRepeats_of_strict rest first Hstrict). reflexivity.
Qed.

(** ** buildWorkout *)



(** ** The warm-up *)

(** The warm-up speed lies in the lowest 35% of the range of the speeds. *)
Lemma warmSpeed_gentle (sorted : list Q) :
  sorted <> [] -> ascending sorted ->
  exists warm,
    warmSpeed sorted = Return warm /\
    In warm sorted /\
    minSpeed sorted <= warm /\
    warm <= minSpeed sorted + (maxSpeed sorted - minSpeed sorted) * 0.35.
Proof.
  intros Hne Hasc. unfold warmSpeed. cbv zeta.
  destruct sorted as [|first rest]; [congruence|].
  assert (In (maxSpeed (first :: rest)) (first :: rest)) as Hin
      by (apply lastOf_In, lastOf_last, Hne).
  change (minSpeed (first :: rest)) with first.
  pose proof (ascending_head_least first rest Hasc _ Hin) as Hminmax.
  set (highest := maxSpeed (first :: rest)) in *.
  set (target := clamp (first + (highest - first) * 0.35) first highest).
  assert (target == first + (highest - first) * 0.35) as Htarget.
  { unfold target, clamp, Math_max, Math_min.
    rewrite Q.min_r by lra. apply Q.max_r. lra. }
  destruct (quantizeDown_floor first rest target Hasc) as (warm & Hwarm & Hwin & Hlargest & _).
  exists warm. split; [exact Hwarm|]. split; [exact Hwin|].
  split; [apply (ascending_head_least first rest Hasc), Hwin|].
  destruct Hlargest as (_ & Hbelow & _); [rewrite Htarget; lra|].
  apply Qle_trans with target; [exact Hbelow | rewrite Htarget; apply Qle_refl].
Qed.

Section Openings.

Context {toText : NumberToString}.

Variable profile : DeviceProfile.
Hypothesis speeds_nonempty : speeds profile <> [].

Lemma pushStep_head (count base : Q) (ladder : list (option Q)) :
  forall first segments remainder index,
    exists rest,
      fst (fst (fold_left (pushStep profile count base) ladder
                  (first :: segments, remainder, index))) = first :: rest.
Proof.
  induction ladder as [|entry others IH]; intros first segments remainder index.
  - exists segments. reflexivity.
  - cbn [fold_left pushStep]. rewrite <- app_comm_cons. apply IH.
Qed.

Lemma steadyPlan_opens (opts : SteadyOpts.t) (warm : Q) :
  warmSpeed (sortSpeeds (speeds profile)) = Return warm ->
  exists first rest,
    steadyPlan profile opts = Return (first :: rest) /\ speed first = Some warm.
Proof.
  intros Hwarm.
  pose proof (sortSpeeds_nonempty _ speeds_nonempty) as Hs.
  unfold steadyPlan. rewrite Hwarm. cbv beta iota delta [bind]. cbv zeta.
  quantized Hs.
  match goal with |- context [if ?c then _ else _] => destruct c end.
  - quantized Hs. eexists; eexists. split; reflexivity.
  - eexists; eexists. split; reflexivity.
Qed.

Lemma progressionPlan_opens (opts : ProgressionOpts.t) (warm : Q) :
  warmSpeed (sortSpeeds (speeds profile)) = Return warm ->
  exists first rest,
    progressionPlan profile opts = Return (first :: rest) /\ speed first = Some warm.
Proof.
  intros Hwarm.
  pose proof (sortSpeeds_nonempty _ speeds_nonempty) as Hs.
  unfold progressionPlan, progressionLadder. rewrite Hwarm.
  cbv beta iota delta [bind]. cbv zeta.
  quantized Hs.
  match goal with |- context [fold_left ?f ?l ?a] =>
    match a with (?first :: _, _, _) =>
      assert (exists rest, fst (fst (fold_left f l a)) = first :: rest)
        as (rest & Hrest) by apply pushStep_head
    end;
    destruct (fold_left f l a) as [[pushed remainder] index]
  end.
  cbn [fst] in Hrest. subst pushed.
  eexists; eexists. split; reflexivity.
Qed.

End Openings.

(** X26.  A steady run and a progression always open at the warm-up speed,
    whatever the ramp limit and the minimum duration of the profile: the
    first segment of the workout runs at a speed of the profile in the
    lowest 35% of its range, between [min] and [min + 0.35 * (max - min)]. *)
Theorem workouts_open_at_the_warm_up_speed {toText : NumberToString}
    (profile : DeviceProfile) :
  speeds profile <> [] ->
  let sorted := sortSpeeds (speeds profile) in
  let gentle (w : Workout.t) :=
    exists head tail,
      Workout.segments w = head :: tail /\
      In (speed head) (speeds profile) /\
      minSpeed sorted <= speed head /\
      speed head <= minSpeed sorted + (maxSpeed sorted - minSpeed sorted) * 0.35 in
  (forall opts, exists w, makeSteady profile opts = Return w /\ gentle w) /\
  (forall opts, exists w, makeProgression profile opts = Return w /\ gentle w).
Proof.
  intros Hne sorted gentle.
  pose proof (sortSpeeds_nonempty _ Hne) as Hs.
  pose proof (sortSpeeds_ascending (speeds profile)) as Hasc.
  destruct (warmSpeed_gentle _ Hs Hasc) as (warm & Hwarm & Hwin & Hlow & Hhigh).
  fold sorted in Hwarm, Hwin, Hlow, Hhigh.
  assert (forall name' first rest,
            speed first = Some warm ->
            exists w, finalizeWorkout profile name' (first :: rest) = Return w /\ gentle w)
    as Hfinal.
  { intros name' first rest Hfirst.
    destruct (finalizeWorkout_of_plan profile name' (first :: rest) Hne)
      as (w & Hw & Hsafe & _).
    destruct (applySafety_first_segment profile first rest Hne)
      as (q & _ & _ & head & tail & Hq & _ & _ & _ & _ & Happly & Hhead).
    pose proof (eq_trans (eq_sym Hsafe) Happly) as Hsame'. injection Hsame' as Hsegments.
    destruct (quantizeDown_member _ warm Hasc Hwin) as (q' & Hq' & Hsame & Hin).
    rewrite Hfirst in Hq. fold sorted in Hq'. unfold sorted in Hq'. rewrite Hq' in Hq.
    injection Hq as <-.
    exists w. split; [exact Hw|]. exists head, tail. split; [exact Hsegments|].
    rewrite Hhead. split; [apply sortSpeeds_In, Hin|].
    rewrite Hsame. split; assumption. }
  split; intros opts.
  - destruct (steadyPlan_opens profile Hne opts warm Hwarm) as (first & rest & Hplan & Hfirst).
    unfold makeSteady. rewrite Hplan. apply Hfinal, Hfirst.
  - destruct (progressionPlan_opens profile Hne opts warm Hwarm)
      as (first & rest & Hplan & Hfirst).
    unfold makeProgression. rewrite Hplan. apply Hfinal, Hfirst.
Qed.

(** X26 on the test profile and a steady run without options: the run
    opens between 1 and 1.7. *)
Lemma steady_run_opens_gently :
  exists w head tail,
    makeSteady testProfile SteadyOpts.empty = Return w /\
    Workout.segments w = head :: tail /\
    1 <= speed head /\ speed head <= 1.7.
Proof.
  destruct (workouts_open_at_the_warm_up_speed testProfile) as [Hsteady _]; [discriminate|].
  destruct (Hsteady SteadyOpts.empty) as (w & Hw & head & tail & Hsegments & _ & Hlow & Hhigh).
  exists w, head, tail. split; [exact Hw|]. split; [exact Hsegments|].
  split; [exact Hlow|]. apply Qle_trans with (1 := Hhigh). discriminate.
Defined.
